(** * pacpartial: the package catalog and the dependency resolver of pac.py

    A shallow embedding of [src/pac.py]: the record parser [alpm_parse], the
    [Package] attribute bag with [parse_desc] and [parse_deps], the catalog
    construction [Repo.initialize_db], the resolver [Mirror.resolve_name]
    and [Mirror.resolve_deps], and the selection of packages that
    [Mirror.download] makes before it fetches them. Fetching itself, the
    checksum and the file system belong to the environment and are not
    modelled.

    Conventions of the embedding.
    - A Python exception is a value of [exn]; code that may raise returns a
      [result].
    - Python objects with identity (the [Package] instances) live in a heap
      and are referred to by their location; sets of packages are sets of
      locations, as Python hashes and compares [Package] by identity.
    - A [dict] keeps insertion order, as Python's does; a [set] is a list
      without repetition, listed in insertion order (Python leaves the
      iteration order of a set unspecified, and the theorems below speak of
      membership only).
    - Text is taken after [decode('utf-8')]; a character is an 8-bit code
      point, on which [str.strip] and [str.lower] are written out. *)

From stdpp Require Import base option list strings gmap.
From Stdlib Require Import Ascii Lia.
From Stdlib Require String.

Local Open Scope nat_scope.

(** ** Exceptions and results *)

Inductive exn : Type :=
  | TypeError
  | AttributeError
  | IndexError
  | KeyError (key : string)
  | ValueError (msg : string).

Inductive result (A : Type) : Type :=
  | Ok (a : A)
  | Raise (e : exn).
Arguments Ok {A} a.
Arguments Raise {A} e.

#[global] Instance result_ret : MRet result := λ A a, Ok a.
#[global] Instance result_bind : MBind result := λ A B f r,
  match r with
  | Ok a => f a
  | Raise e => Raise e
  end.

(** A [for] loop whose body may raise: the state is threaded from left to
    right and the first exception ends the loop. *)
Fixpoint for_each {A S : Type} (body : S → A → result S) (xs : list A) (s : S)
  : result S :=
  match xs with
  | [] => Ok s
  | x :: xs' => s' ← body s x; for_each body xs' s'
  end.

(** ** Text *)

Module Str.

Definition code (c : ascii) : nat := nat_of_ascii c.

(** [str.isspace] on one character of the 8-bit range. *)
Definition isspace (c : ascii) : bool :=
  let n := code c in
  ((9 <=? n) && (n <=? 13)) || ((28 <=? n) && (n <=? 32))
  || (n =? 133) || (n =? 160).

(** [str.lower] on one character of the 8-bit range. *)
Definition lower_char (c : ascii) : ascii :=
  let n := code c in
  if ((65 <=? n) && (n <=? 90))
     || ((192 <=? n) && (n <=? 222) && negb (n =? 215))
  then ascii_of_nat (n + 32) else c.

Fixpoint lower (s : string) : string :=
  match s with
  | EmptyString => EmptyString
  | String c s' => String (lower_char c) (lower s')
  end.

Definition is_empty (s : string) : bool :=
  match s with EmptyString => true | _ => false end.

Fixpoint lstrip (s : string) : string :=
  match s with
  | EmptyString => EmptyString
  | String c s' => if isspace c then lstrip s' else s
  end.

Fixpoint rstrip (s : string) : string :=
  match s with
  | EmptyString => EmptyString
  | String c s' =>
      let r := rstrip s' in
      if isspace c && is_empty r then EmptyString else String c r
  end.

(** [s.strip()] *)
Definition strip (s : string) : string := rstrip (lstrip s).

(** [s[0]] and [s[-1]]; [None] stands for the IndexError of an empty [s]. *)
Definition first (s : string) : option ascii :=
  match s with EmptyString => None | String c _ => Some c end.

Fixpoint last (s : string) : option ascii :=
  match s with
  | EmptyString => None
  | String c EmptyString => Some c
  | String _ s' => last s'
  end.

(** [s[:-1]] *)
Fixpoint drop_last (s : string) : string :=
  match s with
  | EmptyString => EmptyString
  | String _ EmptyString => EmptyString
  | String c s' => String c (drop_last s')
  end.

(** [s[1:-1]] *)
Definition inner (s : string) : string :=
  match s with
  | EmptyString => EmptyString
  | String _ s' => drop_last s'
  end.

Definition is_char (c : ascii) (o : option ascii) : bool :=
  match o with Some d => Ascii.eqb c d | None => false end.

(** [s.split(sep)] for a one-character separator. *)
Fixpoint split (sep : ascii) (s : string) : list string :=
  match s with
  | EmptyString => [EmptyString]
  | String c s' =>
      if Ascii.eqb c sep then EmptyString :: split sep s'
      else match split sep s' with
           | [] => [String c EmptyString]
           | w :: ws => String c w :: ws
           end
  end.

(** [sep.join(parts)] *)
Fixpoint join (sep : string) (parts : list string) : string :=
  match parts with
  | [] => EmptyString
  | [w] => w
  | w :: ws => w +:+ sep +:+ join sep ws
  end.

Fixpoint starts_with (p s : string) : bool :=
  match p, s with
  | EmptyString, _ => true
  | String a p', String b s' => Ascii.eqb a b && starts_with p' s'
  | String _ _, EmptyString => false
  end.

Definition ends_with_char (c : ascii) (s : string) : bool := is_char c (last s).

(** [s.replace(old, new)] for a non-empty [old]; [skip] counts the
    characters of a match that are still to be passed over. *)
Fixpoint replace_from (old new : string) (skip : nat) (s : string) : string :=
  match s with
  | EmptyString => EmptyString
  | String c s' =>
      match skip with
      | S k => replace_from old new k s'
      | O =>
          if starts_with old s
          then new +:+ replace_from old new (String.length old - 1) s'
          else String c (replace_from old new 0 s')
      end
  end.

Definition replace (old new s : string) : string := replace_from old new 0 s.

End Str.

(** ** Dictionaries

    A Python [dict]: keys are unique and keep the order of their first
    insertion; assigning to a key that is present replaces its value in
    place. *)

Section Dict.
Context {K V : Type} `{EqDecision K}.

(** [d.get(k)]: [None] when the key is absent. *)
Fixpoint dict_get (d : list (K * V)) (k : K) : option V :=
  match d with
  | [] => None
  | (k', v) :: d' => if decide (k' = k) then Some v else dict_get d' k
  end.

(** [k in d] *)
Definition dict_mem (k : K) (d : list (K * V)) : bool :=
  match dict_get d k with Some _ => true | None => false end.

(** [d[k] = v] *)
Fixpoint dict_set (d : list (K * V)) (k : K) (v : V) : list (K * V) :=
  match d with
  | [] => [(k, v)]
  | (k', v') :: d' =>
      if decide (k' = k) then (k', v) :: d' else (k', v') :: dict_set d' k v
  end.

Definition dict_keys (d : list (K * V)) : list K := fst <$> d.
Definition dict_values (d : list (K * V)) : list V := snd <$> d.

End Dict.

(** ** The record parser *)

Definition percent : ascii := "%"%char.

(** What [alpm_parse] holds between two lines: [entries] and [last_key]. *)
Definition parse_state : Type :=
  list (option string * list string) * option string.

(** [line[0] == '%' and line[-1] == '%'] *)
Definition is_marker (line : string) : bool :=
  Str.is_char percent (Str.first line) && Str.is_char percent (Str.last line).

(** The body of the loop of [alpm_parse] on one line. *)
Definition alpm_line (st : parse_state) (raw : string) : parse_state :=
  let '(entries, last_key) := st in
  let line := Str.strip raw in
  if Str.is_empty line then st
  else if is_marker line
  then (entries, Some (Str.lower (Str.inner line)))
  else (dict_set entries last_key
          (default [] (dict_get entries last_key) ++ [line]), last_key).

Definition alpm_parse (file : list string) : list (option string * list string) :=
  fst (foldl alpm_line ([], None) file).


(** ** Packages *)

(** What an attribute of a [Package] may hold: [None], a [str], or a tuple
    of [str]. *)
Inductive pyval : Type :=
  | PyNone
  | PyStr (s : string)
  | PyTuple (l : list string).

#[global] Instance pyval_eq_dec : EqDecision pyval.
Proof. solve_decision. Defined.

(** A [Package] instance: its slots that are set, with their values. *)
Abbreviation Package := (gmap string pyval).

Definition slots : list string :=
  [ "filename"; "name"; "version";
    "desc"; "csize"; "isize"; "md5sum";
    "sha256sum"; "pgpsig"; "url"; "license";
    "arch"; "builddate"; "packager"; "replaces"; "groups";
    "base";
    "depends"; "makedepends"; "checkdepends"; "optdepends";
    "conflicts"; "provides";
    "remote_url"; "local_path" ].

Definition tuple_slots : list string :=
  [ "groups"; "makedepends"; "checkdepends"; "depends";
    "optdepends"; "conflicts"; "provides" ].

(** [setattr(self, k, v)] with a name computed at run time. A name that is
    not a [str] is a TypeError. A slot name is assigned. The name
    [__class__] reaches the setter that [object] provides, which refuses
    every value that is not a class (the values assigned here are strings
    and tuples) with a TypeError. Every other name is an AttributeError:
    the class has no [__dict__], and its methods and class attributes are
    read-only on the instance. *)
Definition setattr (self : Package) (k : option string) (v : pyval)
  : result Package :=
  match k with
  | None => Raise TypeError
  | Some k =>
      if bool_decide (k ∈ slots) then Ok (<[k := v]> self)
      else if decide (k = "__class__") then Raise TypeError
      else Raise AttributeError
  end.

(** [self.k] for a slot name [k], the only names the code reads: a slot
    that was never set is an AttributeError. *)
Definition getattr (self : Package) (k : string) : result pyval :=
  match self !! k with
  | Some v => Ok v
  | None => Raise AttributeError
  end.

(** [for x in v]: the items a [for] loop draws from an attribute value. *)
Fixpoint chars (s : string) : list string :=
  match s with
  | EmptyString => []
  | String c s' => String c EmptyString :: chars s'
  end.

Definition py_iter (v : pyval) : result (list string) :=
  match v with
  | PyNone => Raise TypeError
  | PyStr s => Ok (chars s)
  | PyTuple l => Ok l
  end.

(** [v[0]] *)
Definition item0 (v : list string) : result string :=
  match v with
  | [] => Raise IndexError
  | x :: _ => Ok x
  end.

(** [Package.parse_desc], on the lines of the file. *)
Definition parse_desc_field (self : Package) (kv : option string * list string)
  : result Package :=
  let '(k, v) := kv in
  if decide (k = Some "groups") then setattr self k (PyTuple v)
  else x ← item0 v; setattr self k (PyStr x).

Definition parse_desc (self : Package) (descbuf : list string) : result Package :=
  for_each parse_desc_field (alpm_parse descbuf) self.

(** [re.match('[^><=:]+', e)]: the longest leading run of characters other
    than [>], [<], [=] and [:], or [None] when that run is empty. *)
Definition is_operator (c : ascii) : bool :=
  Ascii.eqb c ">" || Ascii.eqb c "<" || Ascii.eqb c "=" || Ascii.eqb c ":".

Fixpoint leading_run (e : string) : string :=
  match e with
  | EmptyString => EmptyString
  | String c e' => if is_operator c then EmptyString else String c (leading_run e')
  end.

Definition re_match (e : string) : option string :=
  if Str.is_empty (leading_run e) then None else Some (leading_run e).

(** [re.match(...).group(0)]: [None] has no attribute [group]. *)
Definition bare_name (e : string) : result string :=
  match re_match e with
  | Some m => Ok m
  | None => Raise AttributeError
  end.

(** [tuple(f(e) for e in v)] *)
Fixpoint tuple_of {A B : Type} (f : A → result B) (v : list A) : result (list B) :=
  match v with
  | [] => Ok []
  | e :: v' => x ← f e; xs ← tuple_of f v'; Ok (x :: xs)
  end.

(** [Package.parse_deps], on the lines of the file. *)
Definition parse_deps_field (self : Package) (kv : option string * list string)
  : result Package :=
  let '(k, v) := kv in
  v' ← tuple_of bare_name v;
  setattr self k (PyTuple v').

Definition parse_deps (self : Package) (depsbuf : list string) : result Package :=
  for_each parse_deps_field (alpm_parse depsbuf) self.

(** [Package.__init__]: every slot is set to [None], the tuple-valued ones to
    the empty tuple, then the name; the optional buffers are parsed when
    given. *)
Definition Package_blank (name : string) : Package :=
  <["name" := PyStr name]>
    (foldl (λ self s, <[s := PyTuple []]> self)
       (foldl (λ self s, <[s := PyNone]> self) ∅ slots) tuple_slots).

Definition Package_init (name : string) (descbuf depsbuf : option (list string))
  : result Package :=
  self ← match descbuf with
         | Some buf => parse_desc (Package_blank name) buf
         | None => Ok (Package_blank name)
         end;
  match depsbuf with
  | Some buf => parse_deps self buf
  | None => Ok self
  end.

(** ** Paths *)

Definition slash : ascii := "/"%char.

(** One round of the loop of [posixpath.join]. *)
Definition path_join_step (path b : string) : string :=
  if Str.starts_with "/" b then b
  else if Str.is_empty path || Str.ends_with_char slash path then path +:+ b
  else path +:+ "/" +:+ b.

(** [os.path.join(a, *p)] *)
Definition path_join (a : string) (p : list string) : string :=
  foldl path_join_step a p.

(** [os.path.basename(p)]: what follows the last slash. *)
Definition basename (p : string) : string :=
  default EmptyString (List.last (Some <$> Str.split slash p) None).

(** [os.path.join(base, v)] for an attribute value [v]: anything but a [str]
    is a TypeError. *)
Definition path_join_attr (base : string) (v : pyval) : result string :=
  match v with
  | PyStr s => Ok (path_join base [s])
  | _ => Raise TypeError
  end.

(** ** The heap of [Package] instances *)

Abbreviation loc := nat.

Abbreviation heap := (list Package).

(** The object at a location; a location that was never allocated reads as
    an object with no slot set, a case no run of the program reaches. *)
Definition heap_get (h : heap) (l : loc) : Package := default ∅ (h !! l).

Definition heap_new (h : heap) (p : Package) : heap * loc := (h ++ [p], length h).

(** ** Catalogs *)

(** One member of the archive, as the traversal of the tar file yields it:
    its path, whether it is a directory, and the lines of the file. *)
Record TarInfo : Type := mkTarInfo {
  ti_name : string;
  ti_isdir : bool;
  ti_lines : list string
}.

Record Repo : Type := mkRepo {
  packages : list (string * loc);
  mirrored_packages : list (string * loc);
  groups : list (string * list string);
  name : string;
  arch : string;
  local_path : string;
  server : string;
  provides : list (string * list string)
}.

Definition set_packages (self : Repo) (d : list (string * loc)) : Repo :=
  mkRepo d (mirrored_packages self) (groups self) (name self) (arch self)
    (local_path self) (server self) (provides self).

Definition set_indices (self : Repo) (g p : list (string * list string)) : Repo :=
  mkRepo (packages self) (mirrored_packages self) g (name self) (arch self)
    (local_path self) (server self) p.

(** [d[k]] on a plain dict, and on a defaultdict where the key is present. *)
Definition subscript {V : Type} (d : list (string * V)) (k : string) : result V :=
  match dict_get d k with
  | Some v => Ok v
  | None => Raise (KeyError k)
  end.

(** [d[k].append(x)] on a [defaultdict(list)] *)
Definition dict_append (d : list (string * list string)) (k x : string)
  : list (string * list string) :=
  dict_set d k (default [] (dict_get d k) ++ [x]).

(** ['-'.join(s.split('-')[:-2])] *)
Definition package_name_of (s : string) : string :=
  let parts := Str.split "-" s in
  Str.join "-" (take (length parts - 2) parts).

(** The body of the first loop of [Repo.initialize_db] on one member. The
    parse methods update the object in place; an exception leaves the loop
    and the whole construction, so no partly updated object is ever read. *)
Definition db_member (st : heap * Repo) (finfo : TarInfo) : result (heap * Repo) :=
  let '(h, self) := st in
  let name := package_name_of (ti_name finfo) in
  let path := ti_name finfo in
  if ti_isdir finfo then
    p ← Package_init name None None;
    let '(h', l) := heap_new h p in
    Ok (h', set_packages self (dict_set (packages self) name l))
  else
    l ← subscript (packages self) name;
    let filename := basename path in
    if decide (filename = "desc") then
      package ← parse_desc (heap_get h l) (ti_lines finfo);
      fn ← getattr package "filename";
      url ← path_join_attr (server self) fn;
      fn ← getattr package "filename";
      local ← path_join_attr (local_path self) fn;
      let package := <["remote_url" := PyStr url]> package in
      let package := <["local_path" := PyStr local]> package in
      Ok (<[l := package]> h, self)
    else if decide (filename = "depends") then
      package ← parse_deps (heap_get h l) (ti_lines finfo);
      Ok (<[l := package]> h, self)
    else Ok (h, self).

(** The body of the second loop of [Repo.initialize_db] on one item of
    [self.packages]. *)
Definition index_package (h : heap)
    (st : list (string * list string) * list (string * list string))
    (item : string * loc)
  : result (list (string * list string) * list (string * list string)) :=
  let '(groups, provides) := st in
  let '(name, l) := item in
  let pkg := heap_get h l in
  v ← getattr pkg "groups";
  gs ← py_iter v;
  let groups := foldl (λ d g, dict_append d g name) groups gs in
  v ← getattr pkg "provides";
  ps ← py_iter v;
  let provides := foldl (λ d p, dict_append d p name) provides ps in
  Ok (groups, provides).

(** [Repo.initialize_db], on the members of the archive that
    [get_db_file] and [tarfile.open] deliver. *)
Definition initialize_db (h : heap) (self : Repo) (dbfile : list TarInfo)
  : result (heap * Repo) :=
  '(h, self) ← for_each db_member dbfile (h, self);
  '(g, p) ← for_each (index_package h) (packages self) (groups self, provides self);
  Ok (h, set_indices self g p).

(** [Repo.__init__]; creating the local directory and fetching the archive
    are the environment's, which hands over the members [dbfile].
    [Repo_new] is the object as it stands when [initialize_db] is called. *)
Definition Repo_new (name arch server repo_root : string) : Repo :=
  {| name := name;
     arch := arch;
     local_path := path_join repo_root [name; "os"; arch];
     server := Str.replace "$arch" arch (Str.replace "$repo" name server);
     packages := [];
     groups := [];
     provides := [];
     mirrored_packages := [] |}.

Definition Repo_init (h : heap) (name arch server repo_root : string)
    (dbfile : list TarInfo) : result (heap * Repo) :=
  initialize_db h (Repo_new name arch server repo_root) dbfile.

(** [Repo.__contains__] *)
Definition Repo_contains (self : Repo) (pkgname : string) : bool :=
  dict_mem pkgname (packages self) || dict_mem pkgname (provides self)
  || dict_mem pkgname (groups self).

(** ** The mirror *)

Definition DEFAULT_SERVER : string := "http://arch.tamcore.eu/$repo/os/$arch".
Definition ARCHS : list string := ["i686"; "x86_64"].
Definition REPOS : list string := ["core"; "extra"; "community"].

Record Mirror : Type := mkMirror {
  repos : list ((string * string) * Repo)
}.

(** [itertools.product(xs, ys)] *)
Definition product {A B : Type} (xs : list A) (ys : list B) : list (A * B) :=
  x ← xs; y ← ys; [(x, y)].

(** [Mirror.__init__]; [db name arch] is the archive the environment holds
    for that repository and architecture. *)
Definition Mirror_init (db : string → string → list TarInfo)
    (repo_names : list string) (server : string) (archs : list string)
  : result (heap * Mirror) :=
  for_each
    (λ (st : heap * Mirror) (na : string * string),
       let '(h, self) := st in
       let '(name, arch) := na in
       '(h, repo) ← Repo_init h name arch server "" (db name arch);
       Ok (h, mkMirror (dict_set (repos self) (name, arch) repo)))
    (product repo_names archs) ([], mkMirror []).

(** ** Sets of packages *)

(** [s.add(x)] and [s.update(xs)] on a set of objects. *)
Definition set_add (s : list loc) (x : loc) : list loc :=
  if bool_decide (x ∈ s) then s else s ++ [x].

Definition set_update (s : list loc) (xs : list loc) : list loc :=
  foldl set_add s xs.

(** ** Name resolution *)

(** Truth value of [found_packages]: [None] and the empty list are false. *)
Definition truthy (found : option (list string)) : bool :=
  match found with
  | Some (_ :: _) => true
  | _ => false
  end.

(** The body of the loop of [Mirror.resolve_name] on one catalog; the state
    is the set [packages] and the variable [found_packages]. *)
Definition resolve_name_repo (pkgname : string)
    (st : list loc * option (list string)) (repo : Repo)
  : result (list loc * option (list string)) :=
  let '(pkgs, found_packages) := st in
  found_packages ←
    (if dict_mem pkgname (packages repo) then Ok (Some [pkgname])
     else if dict_mem pkgname (provides repo)
     then l ← subscript (provides repo) pkgname; Ok (Some l)
     else if dict_mem pkgname (groups repo)
     then l ← subscript (groups repo) pkgname; Ok (Some l)
     else Ok found_packages);
  if truthy found_packages then
    objs ← tuple_of (subscript (packages repo)) (default [] found_packages);
    Ok (set_update pkgs objs, None)
  else Ok (pkgs, found_packages).

Definition not_found (pkgname : string) : exn :=
  ValueError (pkgname +:+ " not found in any repo").

(** [Mirror.resolve_name] *)
Definition resolve_name (self : Mirror) (pkgname : string) (important : bool)
  : result (list loc) :=
  '(pkgs, _) ← for_each (resolve_name_repo pkgname) (dict_values (repos self))
                  ([], None);
  if negb (bool_decide (pkgs = [])) || negb important then Ok pkgs
  else Raise (not_found pkgname).

(** ** Dependency closure *)

(** The inner loops of [Mirror.resolve_deps]: every package that each name
    resolves to is appended to the queue. *)
Definition enqueue (self : Mirror) (important : bool)
    (queue : list loc) (d_name : string) : result (list loc) :=
  ds ← resolve_name self d_name important;
  Ok (queue ++ ds).

(** What one visit of [p] does to the queue. *)
Definition expand (self : Mirror) (h : heap) (optdepends : bool)
    (p : loc) (queue : list loc) : result (list loc) :=
  v ← getattr (heap_get h p) "depends";
  names ← py_iter v;
  queue ← for_each (enqueue self true) names queue;
  if optdepends then
    v ← getattr (heap_get h p) "optdepends";
    names ← py_iter v;
    for_each (enqueue self false) names queue
  else Ok queue.

(** The [while] loop of [Mirror.resolve_deps]; [fuel] bounds the number of
    rounds, and [None] says that it ran out. *)
Fixpoint resolve_deps_loop (fuel : nat) (self : Mirror) (h : heap)
    (optdepends : bool) (queue known_packages : list loc)
  : option (result (list loc)) :=
  match fuel with
  | O => None
  | S fuel' =>
      match queue with
      | [] => Some (Ok known_packages)
      | p :: queue' =>
          if bool_decide (p ∈ known_packages)
          then resolve_deps_loop fuel' self h optdepends queue' known_packages
          else
            match expand self h optdepends p queue' with
            | Ok queue'' =>
                resolve_deps_loop fuel' self h optdepends queue''
                  (set_add known_packages p)
            | Raise e => Some (Raise e)
            end
      end
  end.

(** [Mirror.resolve_deps] *)
Definition resolve_deps (fuel : nat) (self : Mirror) (h : heap)
    (packages : list loc) (optdepends : bool) : option (result (list loc)) :=
  resolve_deps_loop fuel self h optdepends packages [].

(** ** Notions used by the statements *)

(** A line that [alpm_parse] skips, and a line it stores as a value. *)
Definition is_blank (raw : string) : bool := Str.is_empty (Str.strip raw).

Definition is_value_line (raw : string) : bool :=
  negb (is_blank raw) && negb (is_marker (Str.strip raw)).

(** The field names a mapping may carry for [setattr] to accept it. *)
Definition known_field (k : option string) : Prop :=
  ∃ s, k = Some s ∧ s ∈ slots.

(** A field of a parsed mapping applied to a package: the value [val]
    computes from the field is assigned under the field's name. Both
    [parse_desc_field] and [parse_deps_field] have this shape. *)
Definition store_field (val : option string → list string → result pyval)
    (self : Package) (kv : option string * list string) : result Package :=
  x ← val kv.1 kv.2; setattr self kv.1 x.

Definition desc_value (k : option string) (v : list string) : result pyval :=
  if decide (k = Some "groups") then Ok (PyTuple v)
  else x ← item0 v; Ok (PyStr x).

Definition deps_value (k : option string) (v : list string) : result pyval :=
  v' ← tuple_of bare_name v; Ok (PyTuple v').

(** The characters of a string, and strings free of operator characters. *)
Fixpoint all_chars (P : ascii → bool) (s : string) : bool :=
  match s with
  | EmptyString => true
  | String c s' => P c && all_chars P s'
  end.

Definition operator_free (s : string) : bool :=
  all_chars (λ c, negb (is_operator c)) s.

(** The keys of the mapping are pairwise distinct and every value sequence
    holds at least one value. *)
Definition parsed_ok (entries : list (option string * list string)) : Prop :=
  NoDup (dict_keys entries) ∧ Forall (λ kv, kv.2 ≠ []) entries.

(** A value that begins with a character other than an operator: the
    values on which the pattern of [parse_deps] matches. *)
Definition starts_bare (e : string) : bool :=
  match e with
  | EmptyString => false
  | String c _ => negb (is_operator c)
  end.

#[global] Instance known_field_dec k : Decision (known_field k).
Proof.
  destruct k as [s|].
  - destruct (decide (s ∈ slots)) as [Hs|Hs].
    + left. by exists s.
    + right. intros (s' & [= <-] & ?). done.
  - right. intros (s & ? & _). done.
Defined.

(** An index of a catalog refers to the catalog's packages: every entry
    lists at least one name, and every name it lists is a key of the
    package map. *)
Definition index_ok (pkgs : list (string * loc)) (idx : list (string * list string))
  : Prop :=
  Forall (λ kv, kv.2 ≠ [] ∧ Forall (λ n, n ∈ dict_keys pkgs) kv.2) idx.

Definition repo_ok (r : Repo) : Prop :=
  index_ok (packages r) (groups r) ∧ index_ok (packages r) (provides r).

(** The package objects of a catalog, and of all the catalogs of a mirror. *)
Definition repo_locs (r : Repo) : list loc := dict_values (packages r).

Definition mirror_locs (self : Mirror) : list loc :=
  dict_values (repos self) ≫= repo_locs.

(** What construction guarantees of a mirror: the indices of every catalog
    refer to its packages, and no object belongs to two catalogs, nor twice
    to one. *)
Definition mirror_ok (self : Mirror) : Prop :=
  Forall repo_ok (dict_values (repos self)) ∧ NoDup (mirror_locs self).

(** The names a catalog matches [pkgname] to, in the words of the
    specification: the name itself when it is a package name, else the
    entry of the provides index, else the entry of the group index. *)
Definition match_set (r : Repo) (pkgname : string) : list string :=
  match dict_get (packages r) pkgname with
  | Some _ => [pkgname]
  | None =>
      match dict_get (provides r) pkgname with
      | Some ns => ns
      | None => default [] (dict_get (groups r) pkgname)
      end
  end.

(** What the first loop of [initialize_db] keeps: the indices are not
    touched, the heap does not shrink, and the objects of the catalog are
    pairwise distinct locations of the heap, none older than [lo]. *)
Definition members_inv (lo : nat) (g p : list (string * list string))
    (st : heap * Repo) : Prop :=
  groups st.2 = g ∧ provides st.2 = p
  ∧ lo ≤ length st.1
  ∧ NoDup (repo_locs st.2)
  ∧ Forall (λ l, lo ≤ l < length st.1) (repo_locs st.2).

(** A package that a catalog resolves [pkgname] to: the object stored under
    one of the names of the match set. *)
Definition resolved_in (r : Repo) (pkgname : string) (l : loc) : Prop :=
  ∃ n, n ∈ match_set r pkgname ∧ dict_get (packages r) n = Some l.

(** What the loop of [Mirror.__init__] keeps. *)
Definition mirror_inv (st : heap * Mirror) : Prop :=
  mirror_ok st.2 ∧ Forall (λ l, l < length st.1) (mirror_locs st.2).

(** ** A sample mirror

    Two catalogs for the examples below. [core] holds [bash] (which provides
    [sh] and lists an optional dependency found nowhere), a package
    literally named [sh], [glibc], [readline], and [ping] and [pong], each
    depending on the other; [extra] holds a second [bash] and [broken],
    whose dependency exists in no catalog. *)
Definition sample_core : list TarInfo :=
  [ mkTarInfo "bash-5.0-1" true [];
    mkTarInfo "bash-5.0-1/desc" false
      ["%FILENAME%"; "bash-5.0-1-x86_64.pkg.tar.xz"; ""; "%NAME%"; "bash"; "";
       "%GROUPS%"; "base"];
    mkTarInfo "bash-5.0-1/depends" false
      ["%DEPENDS%"; "glibc>=2.30"; "readline"; ""; "%OPTDEPENDS%";
       "bash-completion: for tab completion"; ""; "%PROVIDES%"; "sh"];
    mkTarInfo "sh-1.0-1" true [];
    mkTarInfo "sh-1.0-1/desc" false ["%FILENAME%"; "sh-1.0-1-x86_64.pkg.tar.xz"];
    mkTarInfo "glibc-2.30-1" true [];
    mkTarInfo "glibc-2.30-1/desc" false
      ["%FILENAME%"; "glibc-2.30-1-x86_64.pkg.tar.xz"; ""; "%GROUPS%"; "base"];
    mkTarInfo "readline-8.0-1" true [];
    mkTarInfo "readline-8.0-1/desc" false
      ["%FILENAME%"; "readline-8.0-1-x86_64.pkg.tar.xz"];
    mkTarInfo "readline-8.0-1/depends" false ["%DEPENDS%"; "glibc"];
    mkTarInfo "ping-1-1" true [];
    mkTarInfo "ping-1-1/desc" false ["%FILENAME%"; "ping-1-1-any.pkg.tar.xz"];
    mkTarInfo "ping-1-1/depends" false ["%DEPENDS%"; "pong"];
    mkTarInfo "pong-1-1" true [];
    mkTarInfo "pong-1-1/desc" false ["%FILENAME%"; "pong-1-1-any.pkg.tar.xz"];
    mkTarInfo "pong-1-1/depends" false ["%DEPENDS%"; "ping"] ].

Definition sample_extra : list TarInfo :=
  [ mkTarInfo "bash-5.1-2" true [];
    mkTarInfo "bash-5.1-2/desc" false ["%FILENAME%"; "bash-5.1-2-x86_64.pkg.tar.xz"];
    mkTarInfo "broken-0.1-1" true [];
    mkTarInfo "broken-0.1-1/desc" false ["%FILENAME%"; "broken-0.1-1-any.pkg.tar.xz"];
    mkTarInfo "broken-0.1-1/depends" false ["%DEPENDS%"; "missing-lib"] ].

Definition sample_db (name arch : string) : list TarInfo :=
  if decide (name = "core") then sample_core
  else if decide (name = "extra") then sample_extra
  else [].

Abbreviation sample_mirror :=
  (Mirror_init sample_db ["core"; "extra"] DEFAULT_SERVER ["x86_64"]).


Abbreviation sample_repo :=
  (initialize_db [] (Repo_new "core" "x86_64" DEFAULT_SERVER "") sample_core).

(** What [f] reads off the heap and the catalog or mirror that a
    construction returned. *)
Definition on_ok {S A : Type} (r : result (heap * S)) (f : heap → S → A)
  : option A :=
  match r with
  | Ok (h, s) => Some (f h s)
  | Raise _ => None
  end.

(** The objects that may still be visited: those of the queue and of the
    catalogs that are not yet known. Its size bounds the visits to come. *)
Definition pending (self : Mirror) (queue known : list loc) : list loc :=
  filter (λ x, x ∉ known) (remove_dups (queue ++ mirror_locs self)).

(** A name that no catalog of the mirror holds. *)
Definition unmatched (self : Mirror) (n : string) : Prop :=
  ∀ r, r ∈ dict_values (repos self) → Repo_contains r n = false.

(** A package without the optional dependency [n]. *)
Definition drop_optional (n : string) (pkg : Package) : Package :=
  match pkg !! "optdepends" with
  | Some (PyTuple l) => <["optdepends" := PyTuple (filter (λ x, x ≠ n) l)]> pkg
  | _ => pkg
  end.

(** The packages that are reachable from the seeds: a seed, or a package
    that the visit of a reachable package puts on the queue. *)
Inductive reachable (self : Mirror) (h : heap) (optdepends : bool)
    (seeds : list loc) : loc → Prop :=
  | reach_seed x : x ∈ seeds → reachable self h optdepends seeds x
  | reach_step p l x :
      reachable self h optdepends seeds p →
      expand self h optdepends p [] = Ok l → x ∈ l →
      reachable self h optdepends seeds x.

(** Every known package has been visited with success, and what its visit
    queued is known or still in the queue. *)
Definition visited_ok (self : Mirror) (h : heap) (optdepends : bool)
    (known queue : list loc) : Prop :=
  ∀ p, p ∈ known →
    ∃ l, expand self h optdepends p [] = Ok l
      ∧ ∀ x, x ∈ l → x ∈ known ∨ x ∈ queue.

(** A second sample: one catalog where [app] has the optional dependency
    [plugin], which the catalog holds, and [tool] depends on [plugin] and on
    [ghost], which no catalog holds. *)
Definition sample_community : list TarInfo :=
  [ mkTarInfo "app-1.0-1" true [];
    mkTarInfo "app-1.0-1/desc" false ["%FILENAME%"; "app-1.0-1-any.pkg.tar.xz"];
    mkTarInfo "app-1.0-1/depends" false ["%OPTDEPENDS%"; "plugin: more features"];
    mkTarInfo "plugin-2.0-1" true [];
    mkTarInfo "plugin-2.0-1/desc" false ["%FILENAME%"; "plugin-2.0-1-any.pkg.tar.xz"];
    mkTarInfo "tool-0.3-2" true [];
    mkTarInfo "tool-0.3-2/desc" false ["%FILENAME%"; "tool-0.3-2-any.pkg.tar.xz"];
    mkTarInfo "tool-0.3-2/depends" false ["%DEPENDS%"; "plugin>=2"; "ghost"] ].

Abbreviation sample_small :=
  (Mirror_init (λ _ _, sample_community) ["community"] DEFAULT_SERVER ["i686"]).


(** The values that follow the markers of field [k] in a file, in the
    order of the file; [cur] is the field of the last marker seen. *)
Fixpoint values_for (cur k : option string) (file : list string) : list string :=
  match file with
  | [] => []
  | raw :: rest =>
      let line := Str.strip raw in
      if Str.is_empty line then values_for cur k rest
      else if is_marker line
      then values_for (Some (Str.lower (Str.inner line))) k rest
      else (if decide (cur = k) then [line] else []) ++ values_for cur k rest
  end.

(** A dict holds no entry for an empty sequence of values. *)
Definition nonempty (vs : list string) : option (list string) :=
  match vs with
  | [] => None
  | _ => Some vs
  end.

(** What [Package.__init__] leaves in a slot. *)
Definition initial_value (name s : string) : pyval :=
  if decide (s = "name") then PyStr name
  else if decide (s ∈ tuple_slots) then PyTuple []
  else PyNone.

(** An attribute that is set and can be iterated over. *)
Definition iterable (pkg : Package) (s : string) : Prop :=
  ∃ v, pkg !! s = Some v ∧ v ≠ PyNone.

(** The attributes that the index loop and the traversal iterate over. *)
Definition pkg_ready (pkg : Package) : Prop :=
  iterable pkg "groups" ∧ iterable pkg "provides"
  ∧ iterable pkg "depends" ∧ iterable pkg "optdepends".

(** The first two statements of [Mirror.download]: the packages to fetch
    for a package or group name. *)
Definition Mirror_download_packages (fuel : nat) (self : Mirror) (h : heap)
    (package_or_group : string) (optdepends : bool) : option (result (list loc)) :=
  match resolve_name self package_or_group true with
  | Ok packages => resolve_deps fuel self h packages optdepends
  | Raise e => Some (Raise e)
  end.

(** The attribute [attr] of a package can be iterated and yields [k]. *)
Definition lists (pkg : Package) (attr k : string) : Prop :=
  ∃ v ks, getattr pkg attr = Ok v ∧ py_iter v = Ok ks ∧ k ∈ ks.

(** The exception of [setattr] on a field name that is not a slot. *)
Definition setattr_error (k : option string) : exn :=
  match k with
  | None => TypeError
  | Some s => if decide (s = "__class__") then TypeError else AttributeError
  end.

(** The state a loop leaves behind, whether it completes or raises: the
    rounds that completed have made their updates in place, and the round
    that raises makes none. *)
Fixpoint for_each_leaves {A S : Type} (body : S → A → result S) (xs : list A)
    (s : S) : S :=
  match xs with
  | [] => s
  | x :: xs' =>
      match body s x with
      | Ok s' => for_each_leaves body xs' s'
      | Raise _ => s
      end
  end.

(** The package as [parse_desc] and [parse_deps] leave it: both assign the
    fields one at a time to the object they are called on. *)
Definition parse_desc_leaves (self : Package) (descbuf : list string) : Package :=
  for_each_leaves parse_desc_field (alpm_parse descbuf) self.

Definition parse_deps_leaves (self : Package) (depsbuf : list string) : Package :=
  for_each_leaves parse_deps_field (alpm_parse depsbuf) self.

(** What the fields of a mapping amount to once [parse_desc] has applied
    them to [self]: the full sequence under [groups], the first value under
    every other field, the remaining attributes as they were. *)
Definition desc_stored (entries : list (option string * list string))
    (self self' : Package) : Prop :=
  (∀ v, dict_get entries (Some "groups") = Some v →
     self' !! "groups" = Some (PyTuple v))
  ∧ (∀ k v, k ≠ "groups" → dict_get entries (Some k) = Some v →
       ∃ x, head v = Some x ∧ self' !! k = Some (PyStr x))
  ∧ (∀ k, dict_get entries (Some k) = None → self' !! k = self !! k).

(** The same for [parse_deps]: the leading runs of the values under each
    field. *)
Definition deps_stored (entries : list (option string * list string))
    (self self' : Package) : Prop :=
  (∀ k v, dict_get entries (Some k) = Some v →
     self' !! k = Some (PyTuple (leading_run <$> v)))
  ∧ (∀ k, dict_get entries (Some k) = None → self' !! k = self !! k).

(** The packages that dependencies lead to from the seeds: a seed; a
    package that a name listed in [depends] of such a package resolves to,
    strictly; and, when [optdepends] is set, a package that a name listed in
    [optdepends] of such a package resolves to, leniently. *)
Inductive dep_reachable (self : Mirror) (h : heap) (optdepends : bool)
    (seeds : list loc) : loc → Prop :=
  | dep_seed x : x ∈ seeds → dep_reachable self h optdepends seeds x
  | dep_hard p v names d ds x :
      dep_reachable self h optdepends seeds p →
      getattr (heap_get h p) "depends" = Ok v → py_iter v = Ok names →
      d ∈ names → resolve_name self d true = Ok ds → x ∈ ds →
      dep_reachable self h optdepends seeds x
  | dep_optional p v names d ds x :
      optdepends = true →
      dep_reachable self h optdepends seeds p →
      getattr (heap_get h p) "optdepends" = Ok v → py_iter v = Ok names →
      d ∈ names → resolve_name self d false = Ok ds → x ∈ ds →
      dep_reachable self h optdepends seeds x.

(** * Properties *)

(** ** Loops, results *)

Lemma for_each_app {A S : Type} (body : S → A → result S) xs ys s :
  for_each body (xs ++ ys) s = (s' ← for_each body xs s; for_each body ys s').
Proof.
  revert s. induction xs as [|x xs IH]; intros s; simpl; [done|].
  destruct (body s x); simpl; auto.
Qed.

Lemma for_each_invariant {A S : Type} (body : S → A → result S) (I : S → Prop) xs :
  (∀ s x s', x ∈ xs → I s → body s x = Ok s' → I s') →
  ∀ s s', I s → for_each body xs s = Ok s' → I s'.
Proof.
  induction xs as [|x xs IH]; intros Hstep s s' Hs; simpl.
  - intros [= <-]. done.
  - destruct (body s x) as [s1|] eqn:E; simpl; [|done].
    apply IH.
    + intros ???? ; apply Hstep. by apply list_elem_of_further.
    + eapply Hstep; [apply list_elem_of_here | done | done].
Qed.

(** ** Dictionaries *)

Section DictFacts.
Context {K V : Type} `{EqDecision K}.
Implicit Types (d : list (K * V)) (k : K) (v : V).

Lemma dict_get_set_eq d k v : dict_get (dict_set d k v) k = Some v.
Proof.
  induction d as [|[k' v'] d IH]; simpl.
  - by rewrite decide_True.
  - destruct (decide (k' = k)) as [->|Hne]; simpl.
    + by rewrite decide_True.
    + by rewrite decide_False.
Qed.

Lemma dict_get_set_ne d k k' v :
  k ≠ k' → dict_get (dict_set d k v) k' = dict_get d k'.
Proof.
  intros Hne. induction d as [|[k0 v0] d IH]; simpl.
  - by rewrite decide_False.
  - destruct (decide (k0 = k)) as [->|Hne0]; simpl.
    + by rewrite !decide_False.
    + by rewrite IH.
Qed.

Lemma dict_get_Some_elem d k v : dict_get d k = Some v → (k, v) ∈ d.
Proof.
  induction d as [|[k0 v0] d IH]; csimpl; [done|].
  destruct (decide (k0 = k)) as [->|Hne].
  - intros [= ->]. apply list_elem_of_here.
  - intros. apply list_elem_of_further. auto.
Qed.

Lemma dict_get_Some_key d k v : dict_get d k = Some v → k ∈ dict_keys d.
Proof.
  intros H1%dict_get_Some_elem. unfold dict_keys.
  apply list_elem_of_fmap. by exists (k, v).
Qed.

Lemma dict_get_Some_value d k v : dict_get d k = Some v → v ∈ dict_values d.
Proof.
  intros H1%dict_get_Some_elem. unfold dict_values.
  apply list_elem_of_fmap. by exists (k, v).
Qed.

Lemma dict_get_None d k : dict_get d k = None ↔ k ∉ dict_keys d.
Proof.
  unfold dict_keys. induction d as [|[k0 v0] d IH]; csimpl.
  - split; [intros _; apply not_elem_of_nil | done].
  - rewrite not_elem_of_cons. destruct (decide (k0 = k)) as [->|Hne].
    + split; [done | intros [? _]; done].
    + rewrite IH. split; [intros; split; [done | done] | intros [_ ?]; done].
Qed.

Lemma dict_key_get d k : k ∈ dict_keys d → ∃ v, dict_get d k = Some v.
Proof.
  intros Hin. destruct (dict_get d k) as [v|] eqn:E; [by exists v|].
  by apply dict_get_None in E.
Qed.

Lemma dict_mem_true d k : dict_mem k d = true ↔ k ∈ dict_keys d.
Proof.
  unfold dict_mem. split.
  - destruct (dict_get d k) eqn:E; [|done]. intros _. by eapply dict_get_Some_key.
  - intros [v ->]%dict_key_get. done.
Qed.

Lemma dict_mem_false d k : dict_mem k d = false ↔ dict_get d k = None.
Proof. unfold dict_mem. destruct (dict_get d k); split; done. Qed.

Lemma dict_elem_get d k v :
  NoDup (dict_keys d) → (k, v) ∈ d → dict_get d k = Some v.
Proof.
  unfold dict_keys. induction d as [|[k0 v0] d IH]; csimpl.
  - intros _ Hin. by apply elem_of_nil in Hin.
  - intros [Hk0 Hnd]%NoDup_cons [Heq|Hin]%elem_of_cons.
    + injection Heq as -> ->. by rewrite decide_True.
    + destruct (decide (k0 = k)) as [->|Hne]; [|auto].
      exfalso. apply Hk0. apply list_elem_of_fmap. by exists (k, v).
Qed.

Lemma dict_keys_set d k v :
  dict_keys (dict_set d k v) =
    if bool_decide (k ∈ dict_keys d) then dict_keys d else dict_keys d ++ [k].
Proof.
  unfold dict_keys. induction d as [|[k0 v0] d IH]; csimpl.
  - done.
  - destruct (decide (k0 = k)) as [->|Hne]; csimpl.
    + rewrite bool_decide_true; [done | apply list_elem_of_here].
    + rewrite IH. case_bool_decide as Hin.
      * rewrite bool_decide_true; [done | by apply list_elem_of_further].
      * rewrite bool_decide_false; [done|].
        intros [?|?]%elem_of_cons; congruence.
Qed.

Lemma dict_keys_set_NoDup d k v :
  NoDup (dict_keys d) → NoDup (dict_keys (dict_set d k v)).
Proof.
  intros Hnd. rewrite dict_keys_set. case_bool_decide as Hin; [done|].
  apply NoDup_app. split_and!; [done | | apply NoDup_singleton].
  intros x Hx ->%list_elem_of_singleton. done.
Qed.

Lemma dict_values_set d k v x :
  x ∈ dict_values (dict_set d k v) → x = v ∨ x ∈ dict_values d.
Proof.
  unfold dict_values. induction d as [|[k0 v0] d IH]; csimpl.
  - intros ->%list_elem_of_singleton. by left.
  - destruct (decide (k0 = k)) as [->|Hne]; csimpl.
    + intros [->|?]%elem_of_cons; [by left | right; by apply list_elem_of_further].
    + intros [->|?]%elem_of_cons; [right; apply list_elem_of_here|].
      destruct IH as [?|?]; [done | by left | right; by apply list_elem_of_further].
Qed.

Lemma dict_values_set_NoDup d k v :
  NoDup (dict_values d) → v ∉ dict_values d →
  NoDup (dict_values (dict_set d k v)).
Proof.
  unfold dict_values. induction d as [|[k0 v0] d IH]; csimpl.
  - intros _ _. apply NoDup_singleton.
  - intros [Hv0 Hnd]%NoDup_cons [Hne Hv]%not_elem_of_cons.
    destruct (decide (k0 = k)) as [->|Hk]; csimpl.
    + apply NoDup_cons. done.
    + apply NoDup_cons. split; [|auto].
      intros [->|?]%(dict_values_set d k v); done.
Qed.

End DictFacts.

(** ** The record parser *)

Lemma foldl_alpm_invariant (I : parse_state → Prop) file :
  (∀ st raw, I st → I (alpm_line st raw)) →
  ∀ st, I st → I (foldl alpm_line st file).
Proof.
  intros Hstep. induction file as [|raw file IH]; intros st Hst; simpl; auto.
Qed.

Lemma alpm_line_blank st raw : is_blank raw = true → alpm_line st raw = st.
Proof.
  unfold is_blank, alpm_line. destruct st as [entries last_key].
  by intros ->.
Qed.

Lemma alpm_line_value entries last_key raw :
  is_value_line raw = true →
  alpm_line (entries, last_key) raw =
    (dict_set entries last_key
       (default [] (dict_get entries last_key) ++ [Str.strip raw]), last_key).
Proof.
  unfold is_value_line, is_blank, alpm_line.
  intros [H1 H2]%andb_true_iff.
  apply negb_true_iff in H1, H2. by rewrite H1, H2.
Qed.

Lemma foldl_alpm_blanks st blanks :
  Forall (λ raw, is_blank raw = true) blanks → foldl alpm_line st blanks = st.
Proof.
  induction 1 as [|raw blanks Hb _ IH]; simpl; [done|].
  by rewrite alpm_line_blank.
Qed.

Lemma dict_set_Forall {K V : Type} `{EqDecision K} (P : K * V → Prop)
    (d : list (K * V)) k v :
  Forall P d → P (k, v) → Forall P (dict_set d k v).
Proof.
  intros Hd Hkv. induction Hd as [|[k0 v0] d H0 Hd IH]; simpl.
  - by constructor.
  - destruct (decide (k0 = k)) as [->|Hne]; by constructor.
Qed.

Lemma alpm_parse_ok file : parsed_ok (alpm_parse file).
Proof.
  unfold alpm_parse.
  apply (foldl_alpm_invariant (λ st, parsed_ok st.1)).
  - intros [entries last_key] raw [Hnd Hne]. unfold alpm_line. simpl.
    destruct (Str.is_empty _); [done|].
    destruct (is_marker _); [done|]. simpl. split.
    + by apply dict_keys_set_NoDup.
    + apply dict_set_Forall; [done|]. simpl.
      by destruct (default [] _).
  - split; [apply NoDup_nil_2 | constructor].
Qed.

(** Once a value line has come before any marker, the mapping starts with
    the null key, and its value sequence with that line. *)
Lemma alpm_parse_null_key blanks raw rest :
  Forall (λ raw, is_blank raw = true) blanks →
  is_value_line raw = true →
  ∃ vs tl, alpm_parse (blanks ++ raw :: rest) = (None, Str.strip raw :: vs) :: tl.
Proof.
  intros Hb Hv. unfold alpm_parse.
  rewrite foldl_app. rewrite (foldl_alpm_blanks _ _ Hb). cbn [foldl].
  rewrite (alpm_line_value _ _ _ Hv). simpl.
  apply (foldl_alpm_invariant
           (λ st, ∃ vs tl, st.1 = (None, Str.strip raw :: vs) :: tl)).
  - intros [entries last_key] raw' (vs & tl & Hst). simpl in Hst. subst entries.
    unfold alpm_line.
    destruct (Str.is_empty _); [by eauto|].
    destruct (is_marker _); [by eauto|]. simpl.
    destruct last_key as [k|]; simpl; eauto.
  - simpl. eauto.
Qed.

(** ** Applying a parsed mapping to a package *)

Lemma setattr_Ok self k v self' :
  setattr self k v = Ok self' ↔ ∃ s, k = Some s ∧ s ∈ slots ∧ self' = <[s := v]> self.
Proof.
  unfold setattr. destruct k as [s|].
  - case_bool_decide as Hs; split.
    + intros [= <-]. eauto.
    + intros (s' & [= <-] & _ & ->). done.
    + by destruct (decide (s = "__class__")).
    + intros (s' & [= <-] & ? & _). done.
  - split; [done | intros (s & ? & _); done].
Qed.

Lemma setattr_known self k v : known_field k → ∃ s, k = Some s ∧ setattr self k v = Ok (<[s := v]> self).
Proof.
  intros (s & -> & Hs). exists s. split; [done|].
  unfold setattr. by rewrite bool_decide_true.
Qed.

Lemma setattr_unknown self k v :
  ¬ known_field k → ∃ e, setattr self k v = Raise e ∧ (e = TypeError ∨ e = AttributeError).
Proof.
  intros Hk. unfold setattr. destruct k as [s|]; [|eauto].
  case_bool_decide as Hs; [|destruct (decide (s = "__class__")); eauto].
  exfalso. apply Hk. by exists s.
Qed.

Lemma store_field_Ok val self kv self' :
  store_field val self kv = Ok self' →
  known_field kv.1 ∧ ∃ x, val kv.1 kv.2 = Ok x.
Proof.
  unfold store_field. destruct (val kv.1 kv.2) as [x|] eqn:E; simpl; [|done].
  intros (s & Hk & Hs & _)%setattr_Ok. split; [by exists s | eauto].
Qed.

Lemma store_fields_ok val entries self :
  NoDup (dict_keys entries) →
  Forall (λ kv, known_field kv.1 ∧ ∃ x, val kv.1 kv.2 = Ok x) entries →
  ∃ self', for_each (store_field val) entries self = Ok self' ∧
    (∀ k v, dict_get entries (Some k) = Some v →
       ∃ x, val (Some k) v = Ok x ∧ self' !! k = Some x) ∧
    (∀ k, dict_get entries (Some k) = None → self' !! k = self !! k).
Proof.
  intros Hnd Hall. revert self.
  induction Hall as [|[k0 v0] entries [Hk0 [x Hx]] Hall IH]; intros self.
  - exists self. split_and!; [done | done | done].
  - unfold dict_keys in Hnd. rewrite fmap_cons in Hnd.
    apply NoDup_cons in Hnd as [Hfresh Hnd].
    destruct (setattr_known self k0 x Hk0) as (s & -> & Hset).
    destruct (IH Hnd (<[s := x]> self)) as (self' & Hrun & Hin & Hout).
    exists self'. split_and!.
    + assert (store_field val self (Some s, v0) = Ok (<[s := x]> self)) as Hstep.
      { unfold store_field. simpl in Hx |- *. rewrite Hx. exact Hset. }
      cbn [for_each]. rewrite Hstep. done.
    + intros k v. simpl. destruct (decide (Some s = Some k)) as [[= ->]|Hne].
      * intros [= <-]. exists x. split; [done|].
        rewrite Hout; [by rewrite lookup_insert_eq|].
        by apply dict_get_None.
      * apply Hin.
    + intros k. simpl. destruct (decide (Some s = Some k)) as [|Hne]; [done|].
      intros Hk. rewrite Hout by done. apply lookup_insert_ne. congruence.
Qed.

Lemma store_fields_raise (val : option string → list string → result pyval)
    (errs : exn → Prop) entries self :
  Forall (λ kv, ∀ e, val kv.1 kv.2 = Raise e → errs e) entries →
  errs TypeError → errs AttributeError →
  Exists (λ kv, ¬ known_field kv.1 ∨ ∃ e, val kv.1 kv.2 = Raise e) entries →
  ∃ e, for_each (store_field val) entries self = Raise e ∧ errs e.
Proof.
  intros Hval Hty Hat Hex. revert self.
  induction entries as [|kv entries IH]; intros self.
  - by apply Exists_nil in Hex.
  - apply Forall_cons in Hval as [Hkv Hval].
    simpl. destruct (store_field val self kv) as [self1|e] eqn:E; simpl.
    + apply Exists_cons in Hex as [Hbad|Hex]; [|by apply IH].
      apply store_field_Ok in E as [Hk [x Hx]].
      destruct Hbad as [Hbad|[e He]]; [done | congruence].
    + exists e. split; [done|]. unfold store_field in E.
      destruct (val kv.1 kv.2) as [x|e'] eqn:Ev; simpl in E.
      * unfold setattr in E. destruct kv.1 as [s|]; [|by injection E as <-].
        case_bool_decide; [done|].
        destruct (decide (s = "__class__")); by injection E as <-.
      * injection E as <-. eauto.
Qed.

Lemma parse_desc_field_store self kv :
  parse_desc_field self kv = store_field desc_value self kv.
Proof.
  destruct kv as [k v]. unfold parse_desc_field, store_field, desc_value. simpl.
  destruct (decide (k = Some "groups")); [done|].
  by destruct (item0 v).
Qed.

Lemma parse_deps_field_store self kv :
  parse_deps_field self kv = store_field deps_value self kv.
Proof.
  destruct kv as [k v]. unfold parse_deps_field, store_field, deps_value. simpl.
  by destruct (tuple_of bare_name v).
Qed.

Lemma for_each_ext {A S : Type} (f g : S → A → result S) xs s :
  (∀ s x, f s x = g s x) → for_each f xs s = for_each g xs s.
Proof.
  intros Hfg. revert s. induction xs as [|x xs IH]; intros s; simpl; [done|].
  rewrite Hfg. destruct (g s x); simpl; auto.
Qed.

(** ** The state of a package when a parse method raises *)

Lemma for_each_leaves_ext {A S : Type} (f g : S → A → result S) xs s :
  (∀ s x, f s x = g s x) → for_each_leaves f xs s = for_each_leaves g xs s.
Proof.
  intros Hfg. revert s. induction xs as [|x xs IH]; intros s; simpl; [done|].
  rewrite Hfg. destruct (g s x); auto.
Qed.

Lemma setattr_error_raise self k v :
  ¬ known_field k → setattr self k v = Raise (setattr_error k).
Proof.
  intros Hk. unfold setattr, setattr_error. destruct k as [s|]; [|done].
  case_bool_decide as Hs; [|by destruct (decide (s = "__class__"))].
  exfalso. apply Hk. by exists s.
Qed.

(** The first field of a mapping that cannot be stored: the fields before
    it are stored, and the loop ends with what that field raises. *)
Lemma store_fields_first_bad val entries :
  Exists (λ kv, ¬ known_field kv.1 ∨ ∃ e, val kv.1 kv.2 = Raise e) entries →
  ∀ self, ∃ good kv rest self1,
    entries = good ++ kv :: rest
    ∧ Forall (λ kv, known_field kv.1 ∧ ∃ x, val kv.1 kv.2 = Ok x) good
    ∧ (¬ known_field kv.1 ∨ ∃ e, val kv.1 kv.2 = Raise e)
    ∧ for_each (store_field val) good self = Ok self1
    ∧ for_each (store_field val) entries self = store_field val self1 kv
    ∧ (∃ e, store_field val self1 kv = Raise e)
    ∧ for_each_leaves (store_field val) entries self = self1.
Proof.
  induction entries as [|kv entries IH]; intros Hbad self.
  - by apply Exists_nil in Hbad.
  - destruct (store_field val self kv) as [self'|e] eqn:E.
    + pose proof (store_field_Ok _ _ _ _ E) as [Hk [x Hx]].
      apply Exists_cons in Hbad as [[?|[e He]]|Hbad]; [done | congruence |].
      destruct (IH Hbad self')
        as (good & kv' & rest & self1 & -> & Hgood & Hkv & Hrun & Hend & Hraise & Hleft).
      exists (kv :: good), kv', rest, self1. cbn [for_each for_each_leaves].
      rewrite E. cbn [mbind result_bind].
      split_and!; [done | | done | done | done | done | done].
      constructor; [|done]. split; [done | eauto].
    + exists [], kv, entries, self. cbn [for_each for_each_leaves]. rewrite E.
      split_and!; [done | constructor | | done | done | eauto | done].
      unfold store_field in E. destruct (val kv.1 kv.2) as [x|e'] eqn:Ev; [|eauto].
      left. intros Hk. destruct (setattr_known self kv.1 x Hk) as (s & _ & Hset).
      simpl in E. congruence.
Qed.

Lemma NoDup_dict_keys_app_l {K V : Type} (d1 d2 : list (K * V)) :
  NoDup (dict_keys (d1 ++ d2)) → NoDup (dict_keys d1).
Proof. unfold dict_keys. rewrite fmap_app. by intros [? _]%NoDup_app. Qed.

(** ** The bare name of a dependency value *)

Lemma leading_run_split e :
  ∃ rest, e = leading_run e +:+ rest
    ∧ operator_free (leading_run e) = true
    ∧ (rest = EmptyString ∨ ∃ c rest', rest = String c rest' ∧ is_operator c = true).
Proof.
  induction e as [|c e (rest & Heq & Hfree & Hrest)]; simpl.
  - exists EmptyString. auto.
  - destruct (is_operator c) eqn:Hc.
    + exists (String c e). split_and!; [done | done | right; eauto].
    + exists rest. simpl. split_and!; [by rewrite Heq at 1 | | done].
      unfold operator_free in *. simpl. by rewrite Hc.
Qed.

Lemma leading_run_operator_free e : operator_free e = true → leading_run e = e.
Proof.
  unfold operator_free. induction e as [|c e IH]; simpl; [done|].
  intros [Hc He]%andb_true_iff. apply negb_true_iff in Hc. rewrite Hc.
  by rewrite IH.
Qed.

Lemma bare_name_starts_bare e :
  bare_name e = if starts_bare e then Ok (leading_run e) else Raise AttributeError.
Proof.
  unfold bare_name, re_match. destruct e as [|c e]; simpl; [done|].
  by destruct (is_operator c).
Qed.

Lemma tuple_of_bare_name_ok v :
  Forall (λ e, starts_bare e = true) v →
  tuple_of bare_name v = Ok (leading_run <$> v).
Proof.
  induction 1 as [|e v He _ IH]; simpl; [done|].
  rewrite bare_name_starts_bare, He. simpl. by rewrite IH.
Qed.

Lemma tuple_of_bare_name_raise v e :
  tuple_of bare_name v = Raise e → e = AttributeError.
Proof.
  induction v as [|x v IH]; simpl; [done|].
  rewrite bare_name_starts_bare. destruct (starts_bare x); simpl.
  - destruct (tuple_of bare_name v); simpl; [done|]. intros [= <-]. auto.
  - by intros [= <-].
Qed.

Lemma tuple_of_bare_name_bad v :
  Exists (λ e, starts_bare e = false) v → tuple_of bare_name v = Raise AttributeError.
Proof.
  induction 1 as [e v He|e v _ IH]; simpl.
  - by rewrite bare_name_starts_bare, He.
  - rewrite IH. rewrite bare_name_starts_bare. by destruct (starts_bare e).
Qed.

(** A fact [f h s = v] about the outcome [Ok (h, s)] of a construction, read
    off by evaluating the construction; [E] says what the outcome is. *)
Tactic Notation "read_off" constr(r) "by" hyp(E) "at" constr(f) "is" constr(v)
    "as" ident(H) :=
  assert (on_ok r f = Some v) as H by (vm_compute; reflexivity);
  rewrite E in H; cbn [on_ok] in H; injection H as H.

Tactic Notation "no_raise" constr(r) "by" hyp(E) :=
  let H := fresh in
  assert (on_ok r (λ _ _, tt) = Some tt) as H by (vm_compute; reflexivity);
  rewrite E in H; discriminate H.

(** Closed goals over decidable statements, settled by evaluation. *)
Ltac by_evaluation :=
  apply (bool_decide_unpack _); vm_compute; exact I.

(** ** Claims on the record parser and on package construction *)

(** C8, as the code has it. When the first non-blank line of the input is a
    value line, [alpm_parse] does not reject the input: it returns a mapping
    whose first key is the null key [None], holding that line as its first
    value. The input is refused only by the callers: [parse_desc] raises a
    TypeError and [parse_deps] a TypeError or an AttributeError when they
    assign the null-keyed field to the package. *)
Theorem alpm_parse_value_before_marker blanks raw rest :
  Forall (λ raw, is_blank raw = true) blanks →
  is_value_line raw = true →
  (∃ vs tl, alpm_parse (blanks ++ raw :: rest) = (None, Str.strip raw :: vs) :: tl)
  ∧ (∀ self, parse_desc self (blanks ++ raw :: rest) = Raise TypeError)
  ∧ (∀ self, ∃ e, parse_deps self (blanks ++ raw :: rest) = Raise e
               ∧ (e = TypeError ∨ e = AttributeError)).
Proof.
  intros Hb Hv.
  destruct (alpm_parse_null_key blanks raw rest Hb Hv) as (vs & tl & Heq).
  split_and!.
  - eauto.
  - intros self. unfold parse_desc. rewrite Heq. simpl. done.
  - intros self. unfold parse_deps. rewrite Heq.
    assert (∃ e, parse_deps_field self (None, Str.strip raw :: vs) = Raise e
                 ∧ (e = TypeError ∨ e = AttributeError)) as (e & Hstep & He).
    { unfold parse_deps_field.
      destruct (tuple_of bare_name (Str.strip raw :: vs)) as [v'|e] eqn:E.
      - exists TypeError. auto.
      - exists e. split; [done|]. right. by eapply tuple_of_bare_name_raise. }
    exists e. cbn [for_each]. by rewrite Hstep.
Qed.

(** C8 fails as stated: a value line ahead of every marker is stored under
    the null key and [alpm_parse] returns normally. *)
Lemma alpm_parse_accepts_leading_value :
  is_value_line "orphan" = true
  ∧ alpm_parse ["orphan"; "%NAME%"; "bash"]
    = [(None, ["orphan"]); (Some "name", ["bash"])].
Proof. split; reflexivity. Qed.

Lemma alpm_parse_value_before_marker_witness :
  (∃ vs tl, alpm_parse ([""; "  "] ++ "orphan" :: ["%NAME%"; "bash"])
            = (None, Str.strip "orphan" :: vs) :: tl)
  ∧ parse_desc (Package_blank "bash") ([""; "  "] ++ "orphan" :: ["%NAME%"; "bash"])
    = Raise TypeError.
Proof.
  assert (Forall (λ raw, is_blank raw = true) [""; "  "]) as Hb
    by (repeat constructor).
  assert (is_value_line "orphan" = true) as Hv by reflexivity.
  destruct (alpm_parse_value_before_marker [""; "  "] "orphan" ["%NAME%"; "bash"] Hb Hv)
    as (H1 & H2 & _).
  split; [exact H1 | exact (H2 (Package_blank "bash"))].
Defined.

(** C9, as the code has it. For every parsed metadata mapping whose field
    names all belong to [__slots__], [parse_desc] stores the full value
    sequence under [groups], the first value alone under every other field,
    and leaves the remaining attributes as they were. A field name that is
    not in [__slots__] is not ignored: at the first such field, in the order
    of the mapping, [parse_desc] raises what [setattr] raises on that name
    (a TypeError for the null name and for [__class__], an AttributeError
    for every other name), and the package is left with the fields before
    it stored in that same way. *)
Theorem parse_desc_stores self descbuf :
  (Forall (λ kv, known_field kv.1) (alpm_parse descbuf) →
   ∃ self', parse_desc self descbuf = Ok self'
     ∧ (∀ v, dict_get (alpm_parse descbuf) (Some "groups") = Some v →
          self' !! "groups" = Some (PyTuple v))
     ∧ (∀ k v, k ≠ "groups" → dict_get (alpm_parse descbuf) (Some k) = Some v →
          ∃ x, head v = Some x ∧ self' !! k = Some (PyStr x))
     ∧ (∀ k, dict_get (alpm_parse descbuf) (Some k) = None →
          self' !! k = self !! k))
  ∧ (Exists (λ kv, ¬ known_field kv.1) (alpm_parse descbuf) →
     ∃ good k v rest,
       alpm_parse descbuf = good ++ (k, v) :: rest
       ∧ Forall (λ kv, known_field kv.1) good ∧ ¬ known_field k
       ∧ parse_desc self descbuf = Raise (setattr_error k)
       ∧ desc_stored good self (parse_desc_leaves self descbuf)).
Proof.
  destruct (alpm_parse_ok descbuf) as [Hnd Hne].
  unfold parse_desc, parse_desc_leaves.
  rewrite (for_each_ext _ (store_field desc_value)) by apply parse_desc_field_store.
  rewrite (for_each_leaves_ext _ (store_field desc_value))
    by apply parse_desc_field_store.
  assert (∀ k v, v ≠ [] → ∃ x, desc_value k v = Ok x) as Hval.
  { intros k [|x v] Hv; [done|]. unfold desc_value.
    destruct (decide _); simpl; eauto. }
  assert (∀ entries s s',
            NoDup (dict_keys entries) →
            Forall (λ kv, known_field kv.1 ∧ ∃ x, desc_value kv.1 kv.2 = Ok x)
              entries →
            for_each (store_field desc_value) entries s = Ok s' →
            desc_stored entries s s') as Hstored.
  { intros entries s s' Hnd' Hok Hrun.
    destruct (store_fields_ok desc_value entries s Hnd' Hok)
      as (s'' & Hrun' & Hin & Hout).
    assert (s'' = s') as -> by congruence. split_and!; [| | done].
    - intros v Hv. destruct (Hin _ _ Hv) as (x & Hx & ->).
      unfold desc_value in Hx. rewrite decide_True in Hx by done. congruence.
    - intros k v Hk Hv. destruct (Hin _ _ Hv) as (x & Hx & ->).
      unfold desc_value in Hx. rewrite decide_False in Hx by congruence.
      destruct v as [|x0 v]; simpl in Hx; [done|].
      injection Hx as <-. eauto. }
  split.
  - intros Hknown.
    assert (Forall (λ kv, known_field kv.1 ∧ ∃ x, desc_value kv.1 kv.2 = Ok x)
              (alpm_parse descbuf)) as Hok.
    { rewrite Forall_forall in Hknown, Hne |- *. intros kv Hkv. split; auto. }
    destruct (store_fields_ok desc_value (alpm_parse descbuf) self Hnd Hok)
      as (self' & Hrun & _).
    exists self'. split; [done|]. by apply Hstored.
  - intros Hbad.
    destruct (store_fields_first_bad desc_value (alpm_parse descbuf)) with (self := self)
      as (good & [k v] & rest & self1 & Hsplit & Hgood & Hkv & Hrun & Hend & _ & Hleft).
    { eapply Exists_impl; [exact Hbad | auto]. }
    rewrite Hsplit in Hnd, Hne.
    assert (v ≠ []) as Hv.
    { rewrite Forall_forall in Hne. apply (Hne (k, v)).
      apply elem_of_app. right. apply list_elem_of_here. }
    destruct (Hval k v Hv) as [x Hx].
    assert (¬ known_field k) as Hk.
    { destruct Hkv as [?|[e He]]; [done|]. simpl in He. congruence. }
    exists good, k, v, rest. rewrite <- Hsplit, Hend, Hleft.
    split_and!; [done | | done | |].
    + eapply Forall_impl; [exact Hgood|]. by intros kv [? _].
    + unfold store_field. simpl. rewrite Hx. simpl. by apply setattr_error_raise.
    + apply Hstored; [|done|done]. by eapply NoDup_dict_keys_app_l.
Qed.

(** C9 fails as stated: a field name outside [__slots__] is not ignored, it
    makes [parse_desc] raise. *)
Lemma parse_desc_unknown_field_raises :
  alpm_parse ["%NAME%"; "bash"; "%XDATA%"; "pkgtype=pkg"]
    = [(Some "name", ["bash"]); (Some "xdata", ["pkgtype=pkg"])]
  ∧ ("xdata" ∉ slots)
  ∧ parse_desc (Package_blank "bash") ["%NAME%"; "bash"; "%XDATA%"; "pkgtype=pkg"]
    = Raise AttributeError.
Proof.
  split_and!; [reflexivity | | reflexivity].
  intros Hin. apply (bool_decide_pack _) in Hin. vm_compute in Hin. done.
Qed.

Lemma parse_desc_stores_witness :
  (∃ self',
     parse_desc (Package_blank "bash")
       ["%NAME%"; "bash"; ""; "%GROUPS%"; "base"; "base-devel"; "";
        "%LICENSE%"; "GPL"; "custom"] = Ok self'
     ∧ self' !! "groups" = Some (PyTuple ["base"; "base-devel"])
     ∧ self' !! "license" = Some (PyStr "GPL")
     ∧ self' !! "depends" = Some (PyTuple []))
  ∧ parse_desc (Package_blank "sh")
      ["%NAME%"; "bash"; "%__CLASS__%"; "x"; "%URL%"; "u"] = Raise TypeError
  ∧ ∃ good k v rest,
      alpm_parse ["%NAME%"; "bash"; "%__CLASS__%"; "x"; "%URL%"; "u"]
        = good ++ (k, v) :: rest
      ∧ Forall (λ kv, known_field kv.1) good ∧ ¬ known_field k
      ∧ parse_desc (Package_blank "sh")
          ["%NAME%"; "bash"; "%__CLASS__%"; "x"; "%URL%"; "u"]
        = Raise (setattr_error k)
      ∧ desc_stored good (Package_blank "sh")
          (parse_desc_leaves (Package_blank "sh")
             ["%NAME%"; "bash"; "%__CLASS__%"; "x"; "%URL%"; "u"]).
Proof.
  pose (buf := ["%NAME%"; "bash"; ""; "%GROUPS%"; "base"; "base-devel"; "";
                "%LICENSE%"; "GPL"; "custom"]).
  split_and!.
  - destruct (proj1 (parse_desc_stores (Package_blank "bash") buf))
      as (self' & Hrun & Hgroups & Hfirst & Hrest).
    { by_evaluation. }
    exists self'. split_and!.
    + exact Hrun.
    + apply Hgroups. reflexivity.
    + destruct (Hfirst "license" ["GPL"; "custom"]) as (x & Hx & ->);
        [done | reflexivity |]. simpl in Hx. congruence.
    + rewrite Hrest by reflexivity. reflexivity.
  - reflexivity.
  - apply (proj2 (parse_desc_stores (Package_blank "sh")
                    ["%NAME%"; "bash"; "%__CLASS__%"; "x"; "%URL%"; "u"])).
    by_evaluation.
Defined.

(** C7, as the code has it. For every parsed dependency mapping whose field
    names all belong to [__slots__] and whose values all begin with a
    character other than [<], [>], [=] and [:], [parse_deps] stores under
    each field name the sequence of the longest leading runs of such
    characters of its values, and leaves the other attributes as they were.
    The run [leading_run e] is a prefix of [e] free of those characters and
    is followed by the end of [e] or by one of them; a value free of them
    passes through unchanged; "glibc>=2.30" gives "glibc". Otherwise
    [parse_deps] raises at the first field, in the order of the mapping,
    that has a value beginning with one of the four characters or a name
    outside [__slots__]: an AttributeError when one of its values begins so,
    else what [setattr] raises on the name (a TypeError for the null name
    and for [__class__], an AttributeError for every other name); the
    package is left with the fields before that one stored. *)
Theorem parse_deps_stores self depsbuf :
  (Forall (λ kv, known_field kv.1 ∧ Forall (λ e, starts_bare e = true) kv.2)
     (alpm_parse depsbuf) →
   ∃ self', parse_deps self depsbuf = Ok self'
     ∧ (∀ k v, dict_get (alpm_parse depsbuf) (Some k) = Some v →
          self' !! k = Some (PyTuple (leading_run <$> v)))
     ∧ (∀ k, dict_get (alpm_parse depsbuf) (Some k) = None →
          self' !! k = self !! k))
  ∧ (Exists (λ kv, ¬ known_field kv.1 ∨ Exists (λ e, starts_bare e = false) kv.2)
       (alpm_parse depsbuf) →
     ∃ good k v rest,
       alpm_parse depsbuf = good ++ (k, v) :: rest
       ∧ Forall (λ kv, known_field kv.1 ∧ Forall (λ e, starts_bare e = true) kv.2)
           good
       ∧ (¬ known_field k ∨ Exists (λ e, starts_bare e = false) v)
       ∧ parse_deps self depsbuf
         = Raise (if bool_decide (Forall (λ e, starts_bare e = true) v)
                  then setattr_error k else AttributeError)
       ∧ deps_stored good self (parse_deps_leaves self depsbuf))
  ∧ (∀ e, ∃ rest, e = leading_run e +:+ rest
        ∧ operator_free (leading_run e) = true
        ∧ (rest = EmptyString
           ∨ ∃ c rest', rest = String c rest' ∧ is_operator c = true))
  ∧ (∀ e, operator_free e = true → leading_run e = e)
  ∧ leading_run "glibc>=2.30" = "glibc".
Proof.
  destruct (alpm_parse_ok depsbuf) as [Hnd Hne].
  unfold parse_deps, parse_deps_leaves.
  rewrite (for_each_ext _ (store_field deps_value)) by apply parse_deps_field_store.
  rewrite (for_each_leaves_ext _ (store_field deps_value))
    by apply parse_deps_field_store.
  assert (∀ k v, (∃ x, deps_value k v = Ok x) ↔ Forall (λ e, starts_bare e = true) v)
    as Hval.
  { intros k v. unfold deps_value. split.
    - intros [x Hx]. apply Forall_forall. intros e He.
      destruct (starts_bare e) eqn:Hb; [done|].
      rewrite tuple_of_bare_name_bad in Hx; [done|].
      apply Exists_exists. eauto.
    - intros Hv. rewrite tuple_of_bare_name_ok by done. simpl. eauto. }
  assert (∀ entries s s',
            NoDup (dict_keys entries) →
            Forall (λ kv, known_field kv.1
                          ∧ Forall (λ e, starts_bare e = true) kv.2) entries →
            for_each (store_field deps_value) entries s = Ok s' →
            deps_stored entries s s') as Hstored.
  { intros entries s s' Hnd' Hok Hrun.
    destruct (store_fields_ok deps_value entries s Hnd') as (s'' & Hrun' & Hin & Hout).
    { eapply Forall_impl; [exact Hok|]. intros [k v] [Hk Hv]. split; [done|].
      by apply Hval. }
    assert (s'' = s') as -> by congruence. split; [|done].
    intros k v Hv. destruct (Hin _ _ Hv) as (x & Hx & ->).
    rewrite Forall_forall in Hok.
    destruct (Hok _ (dict_get_Some_elem _ _ _ Hv)) as [_ Hbare].
    unfold deps_value in Hx. rewrite tuple_of_bare_name_ok in Hx by done.
    simpl in Hx. congruence. }
  split_and!.
  - intros Hgood.
    destruct (store_fields_ok deps_value (alpm_parse depsbuf) self Hnd)
      as (self' & Hrun & _).
    { eapply Forall_impl; [exact Hgood|]. intros [k v] [Hk Hv]. split; [done|].
      by apply Hval. }
    exists self'. split; [done|]. by apply Hstored.
  - intros Hbad.
    destruct (store_fields_first_bad deps_value (alpm_parse depsbuf)) with (self := self)
      as (good & [k v] & rest & self1 & Hsplit & Hgood & Hkv & Hrun & Hend & _ & Hleft).
    { eapply Exists_impl; [exact Hbad|]. intros [k v] [Hk|Hv]; [by left|].
      right. exists AttributeError. simpl. unfold deps_value.
      by rewrite tuple_of_bare_name_bad. }
    assert (Forall (λ kv, known_field kv.1
                          ∧ Forall (λ e, starts_bare e = true) kv.2) good) as Hgood'.
    { eapply Forall_impl; [exact Hgood|]. intros [k' v'] [Hk' Hv']. split; [done|].
      by apply Hval in Hv'. }
    rewrite Hsplit in Hnd.
    exists good, k, v, rest. rewrite <- Hsplit, Hend, Hleft. simpl in Hkv.
    split_and!; [done | done | | |].
    + destruct Hkv as [?|[e He]]; [by left|]. right.
      destruct (decide (Forall (λ e, starts_bare e = true) v)) as [Hall|Hnot].
      * apply Hval with (k := k) in Hall as [x Hx]. congruence.
      * apply not_Forall_Exists in Hnot; [|apply _].
        eapply Exists_impl; [exact Hnot|]. intros e' He'. simpl in He'.
        by destruct (starts_bare e').
    + unfold store_field. simpl. case_bool_decide as Hall.
      * unfold deps_value in *. rewrite tuple_of_bare_name_ok in * by done.
        simpl. apply setattr_error_raise.
        destruct Hkv as [?|[e He]]; [done|]. simpl in He. done.
      * apply not_Forall_Exists in Hall; [|apply _].
        unfold deps_value. rewrite tuple_of_bare_name_bad; [done|].
        eapply Exists_impl; [exact Hall|]. intros e' He'. simpl in He'.
        by destruct (starts_bare e').
    + apply Hstored; [|done|done]. by eapply NoDup_dict_keys_app_l.
  - apply leading_run_split.
  - apply leading_run_operator_free.
  - reflexivity.
Qed.

(** C7 fails as stated: on a value that begins with an operator character
    the leading run is empty and [parse_deps] raises instead of storing it;
    so it does on a field name outside [__slots__]. *)
Lemma parse_deps_raises :
  leading_run ">=2.30" = EmptyString
  ∧ parse_deps (Package_blank "bash") ["%DEPENDS%"; ">=2.30"] = Raise AttributeError
  ∧ parse_deps (Package_blank "bash") ["%XDATA%"; "glibc"] = Raise AttributeError.
Proof. split_and!; reflexivity. Qed.

Lemma parse_deps_stores_witness :
  (∃ self',
     parse_deps (Package_blank "bash")
       ["%DEPENDS%"; "glibc>=2.30"; "readline"; ""; "%OPTDEPENDS%";
        "bash-completion: for tab completion"] = Ok self'
     ∧ self' !! "depends" = Some (PyTuple ["glibc"; "readline"])
     ∧ self' !! "optdepends" = Some (PyTuple ["bash-completion"])
     ∧ self' !! "provides" = Some (PyTuple []))
  ∧ parse_deps (Package_blank "bash")
      ["%DEPENDS%"; "glibc"; "%CONFLICTS%"; "=1.0"] = Raise AttributeError
  ∧ parse_deps_leaves (Package_blank "bash")
      ["%DEPENDS%"; "glibc"; "%CONFLICTS%"; "=1.0"] !! "depends"
    = Some (PyTuple ["glibc"])
  ∧ ∃ good k v rest,
      alpm_parse ["%DEPENDS%"; "glibc"; "%CONFLICTS%"; "=1.0"]
        = good ++ (k, v) :: rest
      ∧ Forall (λ kv, known_field kv.1 ∧ Forall (λ e, starts_bare e = true) kv.2)
          good
      ∧ (¬ known_field k ∨ Exists (λ e, starts_bare e = false) v)
      ∧ parse_deps (Package_blank "bash")
          ["%DEPENDS%"; "glibc"; "%CONFLICTS%"; "=1.0"]
        = Raise (if bool_decide (Forall (λ e, starts_bare e = true) v)
                 then setattr_error k else AttributeError)
      ∧ deps_stored good (Package_blank "bash")
          (parse_deps_leaves (Package_blank "bash")
             ["%DEPENDS%"; "glibc"; "%CONFLICTS%"; "=1.0"]).
Proof.
  pose (buf := ["%DEPENDS%"; "glibc>=2.30"; "readline"; ""; "%OPTDEPENDS%";
                "bash-completion: for tab completion"]).
  split_and!.
  - destruct (proj1 (parse_deps_stores (Package_blank "bash") buf))
      as (self' & Hrun & Hin & Hrest).
    { by_evaluation. }
    exists self'. split_and!.
    + exact Hrun.
    + rewrite (Hin "depends" ["glibc>=2.30"; "readline"]) by reflexivity.
      reflexivity.
    + rewrite (Hin "optdepends" ["bash-completion: for tab completion"])
        by reflexivity. reflexivity.
    + rewrite Hrest by reflexivity. reflexivity.
  - reflexivity.
  - vm_compute. reflexivity.
  - apply (proj1 (proj2 (parse_deps_stores (Package_blank "bash")
                           ["%DEPENDS%"; "glibc"; "%CONFLICTS%"; "=1.0"]))).
    by_evaluation.
Defined.

(** ** Catalog construction *)

Lemma dict_append_ok pkgs d k x :
  index_ok pkgs d → x ∈ dict_keys pkgs → index_ok pkgs (dict_append d k x).
Proof.
  intros Hd Hx. unfold dict_append. apply dict_set_Forall; [done|]. simpl. split.
  - by destruct (default [] _).
  - apply Forall_app. split; [|by repeat constructor].
    destruct (dict_get d k) as [old|] eqn:E; simpl; [|constructor].
    apply dict_get_Some_elem in E. unfold index_ok in Hd.
    rewrite Forall_forall in Hd. by destruct (Hd _ E).
Qed.

Lemma foldl_dict_append_ok pkgs d ks x :
  index_ok pkgs d → x ∈ dict_keys pkgs →
  index_ok pkgs (foldl (λ d k, dict_append d k x) d ks).
Proof.
  intros Hd Hx. revert d Hd. induction ks as [|k ks IH]; intros d Hd; simpl; [done|].
  apply IH. by apply dict_append_ok.
Qed.

Lemma index_package_ok h pkgs st item st' :
  item.1 ∈ dict_keys pkgs →
  index_ok pkgs st.1 ∧ index_ok pkgs st.2 →
  index_package h st item = Ok st' →
  index_ok pkgs st'.1 ∧ index_ok pkgs st'.2.
Proof.
  destruct st as [g p], item as [n l]. simpl. intros Hn [Hg Hp].
  unfold index_package.
  destruct (getattr (heap_get h l) "groups") as [v|]; simpl; [|done].
  destruct (py_iter v) as [gs|]; simpl; [|done].
  destruct (getattr (heap_get h l) "provides") as [v'|]; simpl; [|done].
  destruct (py_iter v') as [ps|]; simpl; [|done].
  intros [= <-]. simpl. split; by apply foldl_dict_append_ok.
Qed.

Lemma index_loop_ok h pkgs g p :
  for_each (index_package h) pkgs ([], []) = Ok (g, p) →
  index_ok pkgs g ∧ index_ok pkgs p.
Proof.
  intros Hrun.
  apply (for_each_invariant (index_package h)
           (λ st, index_ok pkgs st.1 ∧ index_ok pkgs st.2) pkgs) in Hrun;
    [done | | split; constructor].
  intros st item st' Hitem Hst Hstep.
  eapply index_package_ok; [|done|done].
  unfold dict_keys. apply list_elem_of_fmap. by exists item.
Qed.

Lemma db_member_inv lo g p st finfo st' :
  members_inv lo g p st → db_member st finfo = Ok st' → members_inv lo g p st'.
Proof.
  destruct st as [h r]. intros (Hg & Hp & Hlo & Hnd & Hin). simpl in *.
  unfold db_member. destruct (ti_isdir finfo).
  - simpl. intros [= <-]. unfold members_inv, repo_locs in *. simpl.
    rewrite length_app. simpl.
    rewrite Forall_forall in Hin.
    split_and!; [done | done | lia | |].
    + apply dict_values_set_NoDup; [done|]. intros Hl%Hin. lia.
    + apply Forall_forall. intros l [->|Hl%Hin]%dict_values_set; lia.
  - destruct (subscript (packages r) _) as [l|]; simpl; [|done].
    destruct (decide (basename _ = "desc")).
    + destruct (parse_desc _ _) as [pkg|]; simpl; [|done].
      destruct (getattr pkg "filename") as [fn|]; simpl; [|done].
      destruct (path_join_attr (server r) fn) as [url|]; simpl; [|done].
      destruct (path_join_attr (local_path r) fn) as [loc|]; simpl; [|done].
      intros [= <-]. unfold members_inv. simpl. rewrite length_insert. done.
    + destruct (decide (basename _ = "depends")).
      * destruct (parse_deps _ _) as [pkg|]; simpl; [|done].
        intros [= <-]. unfold members_inv. simpl. rewrite length_insert. done.
      * intros [= <-]. done.
Qed.

Lemma initialize_db_ok h self dbfile h' self' :
  packages self = [] → groups self = [] → provides self = [] →
  initialize_db h self dbfile = Ok (h', self') →
  repo_ok self' ∧ length h ≤ length h' ∧ NoDup (repo_locs self')
  ∧ Forall (λ l, length h ≤ l < length h') (repo_locs self').
Proof.
  intros Hpk Hg Hp. unfold initialize_db.
  destruct (for_each db_member dbfile (h, self)) as [[h1 r1]|] eqn:E1; simpl; [|done].
  apply (for_each_invariant db_member (members_inv (length h) [] []) dbfile)
    in E1 as (Hg1 & Hp1 & Hlo & Hnd & Hin).
  - simpl in *. rewrite Hg1, Hp1.
    destruct (for_each (index_package h1) (packages r1) ([], [])) as [[g p]|] eqn:E2;
      simpl; [|done].
    intros [= <- <-]. apply index_loop_ok in E2 as [Hgi Hpi].
    unfold repo_ok, repo_locs. simpl. done.
  - intros st x st' _. apply db_member_inv.
  - unfold members_inv, repo_locs. simpl. rewrite Hpk.
    split_and!; [done | done | lia | constructor | constructor].
Qed.

Lemma Repo_init_ok h name arch server root dbfile h' self' :
  Repo_init h name arch server root dbfile = Ok (h', self') →
  repo_ok self' ∧ length h ≤ length h' ∧ NoDup (repo_locs self')
  ∧ Forall (λ l, length h ≤ l < length h') (repo_locs self').
Proof. unfold Repo_init. by apply initialize_db_ok. Qed.

(** ** Mirror construction *)

Lemma bind_dict_set_elem {K V B : Type} `{EqDecision K} (f : V → list B)
    (d : list (K * V)) k v x :
  x ∈ dict_values (dict_set d k v) ≫= f → x ∈ f v ∨ x ∈ dict_values d ≫= f.
Proof.
  intros (y & Hx & Hy)%list_elem_of_bind.
  apply dict_values_set in Hy as [->|Hy]; [by left|].
  right. apply list_elem_of_bind. eauto.
Qed.

Lemma bind_dict_set_NoDup {K V B : Type} `{EqDecision K} (f : V → list B)
    (d : list (K * V)) k v :
  NoDup (dict_values d ≫= f) → NoDup (f v) →
  (∀ x, x ∈ f v → x ∉ dict_values d ≫= f) →
  NoDup (dict_values (dict_set d k v) ≫= f).
Proof.
  unfold dict_values. induction d as [|[k0 v0] d IH]; csimpl.
  - intros _ Hv _. by rewrite app_nil_r.
  - intros (H0 & Hdisj & Hd)%NoDup_app Hv Hfresh.
    destruct (decide (k0 = k)) as [->|Hne]; csimpl.
    + apply NoDup_app. split_and!; [done | | done].
      intros x Hx Hx'. apply (Hfresh x Hx). apply elem_of_app. by right.
    + apply NoDup_app. split_and!; [done | |].
      * intros x Hx [Hx'|Hx']%(bind_dict_set_elem f d k v).
        -- apply (Hfresh x Hx'). apply elem_of_app. by left.
        -- by apply (Hdisj x).
      * apply IH; [done | done |].
        intros x Hx Hx'. apply (Hfresh x Hx). apply elem_of_app. by right.
Qed.

Lemma dict_set_values_Forall {K V : Type} `{EqDecision K} (P : V → Prop)
    (d : list (K * V)) k v :
  Forall P (dict_values d) → P v → Forall P (dict_values (dict_set d k v)).
Proof.
  intros Hd Hv. apply Forall_forall.
  intros x [->|Hx]%dict_values_set; [done|].
  rewrite Forall_forall in Hd. auto.
Qed.

Lemma Mirror_init_step_inv db server st na st' :
  mirror_inv st →
  (let '(h, self) := st in
   let '(name, arch) := na in
   '(h, repo) ← Repo_init h name arch server "" (db name arch);
   Ok (h, mkMirror (dict_set (repos self) (name, arch) repo))) = Ok st' →
  mirror_inv st'.
Proof.
  destruct st as [h self], na as [name arch].
  intros [[Hok Hnd] Hlt]. simpl in Hok, Hnd, Hlt.
  destruct (Repo_init h name arch server "" (db name arch)) as [[h' r]|] eqn:E;
    simpl; [|done].
  intros [= <-]. apply Repo_init_ok in E as (Hr & Hlen & Hrnd & Hrin).
  rewrite Forall_forall in Hlt, Hrin.
  unfold mirror_inv, mirror_ok, mirror_locs in *. simpl. split_and!.
  - by apply dict_set_values_Forall.
  - apply bind_dict_set_NoDup; [done | done |].
    intros x Hx%Hrin Hx'%Hlt. lia.
  - apply Forall_forall. intros x [Hx%Hrin|Hx%Hlt]%bind_dict_set_elem; lia.
Qed.

(** A mirror that [Mirror.__init__] has built is well formed. *)
Lemma Mirror_init_ok db repo_names server archs h self :
  Mirror_init db repo_names server archs = Ok (h, self) → mirror_ok self.
Proof.
  unfold Mirror_init. intros Hrun.
  eapply (for_each_invariant _ mirror_inv) in Hrun as [Hok _]; [done | | ].
  - intros st na st' _ Hst Hstep. by eapply Mirror_init_step_inv.
  - split; [split|]; constructor.
Qed.

(** ** Sets of packages *)

Lemma elem_of_set_add s y x : x ∈ set_add s y ↔ x ∈ s ∨ x = y.
Proof.
  unfold set_add. case_bool_decide as Hy.
  - split; [by left | intros [?| ->]; done].
  - rewrite elem_of_app, list_elem_of_singleton. done.
Qed.

Lemma NoDup_set_add s y : NoDup s → NoDup (set_add s y).
Proof.
  intros Hs. unfold set_add. case_bool_decide as Hy; [done|].
  apply NoDup_app. split_and!; [done | | apply NoDup_singleton].
  intros x Hx ->%list_elem_of_singleton. done.
Qed.

Lemma elem_of_set_update s ys x : x ∈ set_update s ys ↔ x ∈ s ∨ x ∈ ys.
Proof.
  unfold set_update. revert s. induction ys as [|y ys IH]; intros s; simpl.
  - split; [by left | intros [?|?%elem_of_nil]; done].
  - rewrite IH, elem_of_set_add, elem_of_cons. tauto.
Qed.

Lemma NoDup_set_update s ys : NoDup s → NoDup (set_update s ys).
Proof.
  unfold set_update. revert s. induction ys as [|y ys IH]; intros s Hs; simpl;
    [done|]. by apply IH, NoDup_set_add.
Qed.

(** ** Name resolution *)

Lemma tuple_of_subscript_ok (pkgs : list (string * loc)) ns :
  Forall (λ n, n ∈ dict_keys pkgs) ns →
  ∃ objs, tuple_of (subscript pkgs) ns = Ok objs
    ∧ Forall2 (λ n l, dict_get pkgs n = Some l) ns objs.
Proof.
  induction 1 as [|n ns [l Hl]%dict_key_get _ (objs & Hrun & Hall)]; simpl.
  - exists []. split; [done | constructor].
  - exists (l :: objs). split; [|by constructor].
    assert (subscript pkgs n = Ok l) as -> by (unfold subscript; by rewrite Hl).
    simpl. by rewrite Hrun.
Qed.

Lemma index_ok_get pkgs idx k ns :
  index_ok pkgs idx → dict_get idx k = Some ns →
  ns ≠ [] ∧ Forall (λ n, n ∈ dict_keys pkgs) ns.
Proof.
  unfold index_ok. rewrite Forall_forall.
  intros Hidx Hk%dict_get_Some_elem. apply (Hidx _ Hk).
Qed.

(** One catalog's round of the loop of [resolve_name]: the objects under
    the names of [match_set] join the set, and [found_packages] is left
    with no truth in it. *)
Lemma resolve_name_repo_spec pkgname pkgs found r :
  repo_ok r → truthy found = false →
  ∃ objs found',
    resolve_name_repo pkgname (pkgs, found) r = Ok (set_update pkgs objs, found')
    ∧ truthy found' = false
    ∧ Forall2 (λ n l, dict_get (packages r) n = Some l) (match_set r pkgname) objs.
Proof.
  intros [Hg Hp] Hfound. unfold resolve_name_repo, match_set, dict_mem.
  destruct (dict_get (packages r) pkgname) as [l|] eqn:Epk.
  { exists [l], None. simpl. unfold subscript. rewrite Epk. simpl.
    split_and!; [done | done | by repeat constructor]. }
  destruct (dict_get (provides r) pkgname) as [ns|] eqn:Epr.
  { destruct (index_ok_get _ _ _ _ Hp Epr) as [Hne Hns].
    destruct (tuple_of_subscript_ok _ _ Hns) as (objs & Hrun & Hall).
    exists objs, None.
    assert (subscript (provides r) pkgname = Ok ns) as ->
      by (unfold subscript; by rewrite Epr).
    destruct ns as [|n ns]; [done|].
    cbn [mbind result_bind truthy default id]. rewrite Hrun. done. }
  destruct (dict_get (groups r) pkgname) as [ns|] eqn:Egr.
  { destruct (index_ok_get _ _ _ _ Hg Egr) as [Hne Hns].
    destruct (tuple_of_subscript_ok _ _ Hns) as (objs & Hrun & Hall).
    exists objs, None.
    assert (subscript (groups r) pkgname = Ok ns) as ->
      by (unfold subscript; by rewrite Egr).
    destruct ns as [|n ns]; [done|].
    cbn [mbind result_bind truthy default id]. rewrite Hrun. done. }
  exists [], found. simpl. rewrite Hfound. split_and!; [done | done | constructor].
Qed.

Lemma resolved_in_Forall2 r pkgname objs l :
  Forall2 (λ n l, dict_get (packages r) n = Some l) (match_set r pkgname) objs →
  l ∈ objs ↔ resolved_in r pkgname l.
Proof.
  intros Hall. unfold resolved_in. split.
  - intros Hl. apply list_elem_of_lookup in Hl as [i Hi].
    destruct (Forall2_lookup_r _ _ _ _ _ Hall Hi) as (n & Hn & Hget).
    exists n. split; [|done]. apply list_elem_of_lookup. eauto.
  - intros (n & Hn & Hget). apply list_elem_of_lookup in Hn as [i Hi].
    destruct (Forall2_lookup_l _ _ _ _ _ Hall Hi) as (l' & Hl' & Hget').
    apply list_elem_of_lookup. exists i. congruence.
Qed.

Lemma resolve_name_loop_spec pkgname rs pkgs found :
  Forall repo_ok rs → truthy found = false → NoDup pkgs →
  ∃ pkgs' found',
    for_each (resolve_name_repo pkgname) rs (pkgs, found) = Ok (pkgs', found')
    ∧ NoDup pkgs'
    ∧ (∀ l, l ∈ pkgs' ↔ l ∈ pkgs ∨ ∃ r, r ∈ rs ∧ resolved_in r pkgname l).
Proof.
  intros Hrs. revert pkgs found.
  induction Hrs as [|r rs Hr _ IH]; intros pkgs found Hfound Hnd; cbn [for_each].
  - exists pkgs, found. split_and!; [done | done |].
    intros l. split; [by left | intros [?|(r & ?%elem_of_nil & _)]; done].
  - destruct (resolve_name_repo_spec pkgname pkgs found r Hr Hfound)
      as (objs & found1 & Hstep & Hfound1 & Hall).
    rewrite Hstep. simpl.
    destruct (IH (set_update pkgs objs) found1 Hfound1 (NoDup_set_update _ _ Hnd))
      as (pkgs' & found' & Hrun & Hnd' & Hmem).
    exists pkgs', found'. split_and!; [done | done |].
    intros l. rewrite Hmem, elem_of_set_update, (resolved_in_Forall2 _ _ _ _ Hall).
    split.
    + intros [[?|?]|(r' & ? & ?)]; [by left | right | right].
      * exists r. split; [apply list_elem_of_here | done].
      * exists r'. split; [by apply list_elem_of_further | done].
    + intros [?|(r' & [->|?]%elem_of_cons & ?)]; [by left; left | by left; right|].
      right. eauto.
Qed.

(** [resolve_name] on a well-formed mirror: the set it builds holds exactly
    the packages that some catalog resolves the name to; it is returned,
    unless it is empty and [important] is set. *)
Lemma resolve_name_spec self pkgname important :
  Forall repo_ok (dict_values (repos self)) →
  ∃ s, NoDup s
    ∧ (∀ l, l ∈ s ↔ ∃ r, r ∈ dict_values (repos self) ∧ resolved_in r pkgname l)
    ∧ resolve_name self pkgname important =
        if important && bool_decide (s = []) then Raise (not_found pkgname)
        else Ok s.
Proof.
  intros Hok.
  destruct (resolve_name_loop_spec pkgname _ [] None Hok eq_refl (NoDup_nil_2))
    as (s & found' & Hrun & Hnd & Hmem).
  exists s. split_and!; [done | |].
  - intros l. rewrite Hmem. split; [intros [?%elem_of_nil|?]; done | by right].
  - unfold resolve_name. rewrite Hrun. simpl.
    destruct important; case_bool_decide; done.
Qed.

Lemma resolve_name_repo_literal pkgname pkgs found r l :
  dict_get (packages r) pkgname = Some l →
  resolve_name_repo pkgname (pkgs, found) r = Ok (set_add pkgs l, None).
Proof.
  intros Hl. unfold resolve_name_repo, dict_mem. rewrite Hl.
  cbn [mbind result_bind truthy default id tuple_of].
  assert (subscript (packages r) pkgname = Ok l) as ->
    by (unfold subscript; by rewrite Hl).
  done.
Qed.

Lemma match_set_literal r pkgname l :
  dict_get (packages r) pkgname = Some l → match_set r pkgname = [pkgname].
Proof. unfold match_set. by intros ->. Qed.

Lemma match_set_absent r pkgname :
  Repo_contains r pkgname = false → match_set r pkgname = [].
Proof.
  unfold Repo_contains, match_set.
  intros [[H1 H2]%orb_false_iff H3]%orb_false_iff.
  apply dict_mem_false in H1, H2, H3. by rewrite H1, H2, H3.
Qed.

Lemma match_set_present r pkgname :
  repo_ok r → Repo_contains r pkgname = true → ∃ l, resolved_in r pkgname l.
Proof.
  intros [Hg Hp]. unfold Repo_contains, resolved_in, match_set, dict_mem.
  destruct (dict_get (packages r) pkgname) as [l|] eqn:Epk.
  { intros _. exists l, pkgname. split; [apply list_elem_of_here | done]. }
  destruct (dict_get (provides r) pkgname) as [ns|] eqn:Epr.
  { intros _. destruct (index_ok_get _ _ _ _ Hp Epr) as [Hne Hns].
    destruct ns as [|n ns]; [done|]. apply Forall_cons in Hns as [Hn _].
    apply dict_key_get in Hn as [l Hl].
    exists l, n. split; [apply list_elem_of_here | done]. }
  destruct (dict_get (groups r) pkgname) as [ns|] eqn:Egr; [|done].
  intros _. destruct (index_ok_get _ _ _ _ Hg Egr) as [Hne Hns].
  destruct ns as [|n ns]; [done|]. apply Forall_cons in Hns as [Hn _].
  apply dict_key_get in Hn as [l Hl].
  exists l, n. split; [apply list_elem_of_here | done].
Qed.

Lemma NoDup_bind_elem {A B : Type} (f : A → list B) rs r :
  NoDup (rs ≫= f) → r ∈ rs → NoDup (f r).
Proof.
  induction rs as [|r0 rs IH]; csimpl.
  - by intros _ ?%elem_of_nil.
  - intros (H0 & _ & Hrs)%NoDup_app [->|Hr]%elem_of_cons; auto.
Qed.

Lemma NoDup_bind_same {A B : Type} (f : A → list B) rs r r' x :
  NoDup (rs ≫= f) → r ∈ rs → r' ∈ rs → x ∈ f r → x ∈ f r' → r = r'.
Proof.
  induction rs as [|r0 rs IH]; csimpl.
  - by intros _ ?%elem_of_nil.
  - intros (H0 & Hdisj & Hrs)%NoDup_app [->|Hr]%elem_of_cons [->|Hr']%elem_of_cons
      Hx Hx'; [done | | | by apply IH].
    + exfalso. apply (Hdisj x Hx). apply list_elem_of_bind. eauto.
    + exfalso. apply (Hdisj x Hx'). apply list_elem_of_bind. eauto.
Qed.

Lemma dict_get_inj {K V : Type} `{EqDecision K} (d : list (K * V)) k1 k2 v :
  NoDup (dict_values d) → dict_get d k1 = Some v → dict_get d k2 = Some v → k1 = k2.
Proof.
  unfold dict_values. induction d as [|[k0 v0] d IH]; csimpl; [done|].
  intros [Hv0 Hnd]%NoDup_cons.
  destruct (decide (k0 = k1)) as [E1|H1], (decide (k0 = k2)) as [E2|H2].
  - congruence.
  - intros [= ->] H%dict_get_Some_value. done.
  - intros H%dict_get_Some_value [= ->]. done.
  - by apply IH.
Qed.

(** ** Claims on catalog construction and name resolution *)

(** C10. When [initialize_db] completes on a catalog that [Repo.__init__]
    has just created (empty package map, empty indices), every name listed
    in an entry of the groups index or of the provides index is a key of the
    catalog's package map; hence the round of [resolve_name] on that catalog
    never fails: every name of a match set is found in the package map. *)
Theorem initialize_db_indices h self0 dbfile h' self :
  packages self0 = [] → groups self0 = [] → provides self0 = [] →
  initialize_db h self0 dbfile = Ok (h', self) →
  (∀ k ns n,
     dict_get (groups self) k = Some ns ∨ dict_get (provides self) k = Some ns →
     n ∈ ns → dict_mem n (packages self) = true)
  ∧ (∀ pkgname pkgs found, truthy found = false →
       ∃ st', resolve_name_repo pkgname (pkgs, found) self = Ok st').
Proof.
  intros Hpk Hg Hp Hrun.
  destruct (initialize_db_ok _ _ _ _ _ Hpk Hg Hp Hrun) as ([Hgi Hpi] & _).
  split.
  - intros k ns n [Hk|Hk] Hn; apply dict_mem_true.
    + destruct (index_ok_get _ _ _ _ Hgi Hk) as [_ Hns].
      rewrite Forall_forall in Hns. auto.
    + destruct (index_ok_get _ _ _ _ Hpi Hk) as [_ Hns].
      rewrite Forall_forall in Hns. auto.
  - intros pkgname pkgs found Hfound.
    destruct (resolve_name_repo_spec pkgname pkgs found self) as (objs & f' & Hstep & _);
      [by split | done | eauto].
Qed.

Lemma initialize_db_indices_witness :
  ∃ h' self,
    sample_repo = Ok (h', self)
    ∧ dict_get (groups self) "base" = Some ["bash"; "glibc"]
    ∧ dict_get (provides self) "sh" = Some ["bash"]
    ∧ dict_mem "bash" (packages self) = true
    ∧ dict_mem "glibc" (packages self) = true.
Proof.
  destruct sample_repo as [[h' self]|e] eqn:E; [|no_raise sample_repo by E].
  exists h', self. split; [reflexivity|].
  read_off sample_repo by E at (λ (_ : heap) self, dict_get (groups self) "base")
    is (Some ["bash"; "glibc"]) as Hbase.
  read_off sample_repo by E at (λ (_ : heap) self, dict_get (provides self) "sh")
    is (Some ["bash"]) as Hsh.
  destruct (initialize_db_indices [] (Repo_new "core" "x86_64" DEFAULT_SERVER "")
              sample_core h' self eq_refl eq_refl eq_refl E) as [Hkeys _].
  clear E. split_and!; [done | done | |].
  - apply (Hkeys "sh" ["bash"]); [by right | apply list_elem_of_here].
  - apply (Hkeys "base" ["bash"; "glibc"]); [by left|].
    apply list_elem_of_further, list_elem_of_here.
Defined.

(** C1. On every mirror that [Mirror.__init__] builds, and for every name,
    the set that [resolve_name] builds is the union, over all the catalogs,
    of the packages stored in the catalog under the names of the catalog's
    match set ([match_set]: the name itself, else the provides entry, else
    the group entry); it is returned unless it is empty and [important] is
    set. In particular, when the mirror has two catalogs and each holds a
    package of that very name ([bash], say), the result is a set of two
    distinct objects, one from each catalog. *)
Theorem resolve_name_union db repo_names server archs h self :
  Mirror_init db repo_names server archs = Ok (h, self) →
  (∀ pkgname important,
     ∃ s, NoDup s
       ∧ (∀ l, l ∈ s ↔
            ∃ r, r ∈ dict_values (repos self) ∧ resolved_in r pkgname l)
       ∧ resolve_name self pkgname important =
           if important && bool_decide (s = []) then Raise (not_found pkgname)
           else Ok s)
  ∧ (∀ k1 r1 k2 r2 pkgname important,
       repos self = [(k1, r1); (k2, r2)] →
       dict_mem pkgname (packages r1) = true →
       dict_mem pkgname (packages r2) = true →
       ∃ l1 l2, l1 ≠ l2
         ∧ dict_get (packages r1) pkgname = Some l1
         ∧ dict_get (packages r2) pkgname = Some l2
         ∧ resolve_name self pkgname important = Ok [l1; l2]).
Proof.
  intros [Hok Hnd]%Mirror_init_ok. split.
  - intros pkgname important. by apply resolve_name_spec.
  - intros k1 r1 k2 r2 pkgname important Hrepos
      [l1 Hl1]%dict_mem_true%dict_key_get [l2 Hl2]%dict_mem_true%dict_key_get.
    exists l1, l2.
    assert (l1 ≠ l2) as Hne.
    { unfold mirror_locs in Hnd. rewrite Hrepos in Hnd. csimpl in Hnd.
      apply NoDup_app in Hnd as (_ & Hdisj & _). intros ->.
      apply (Hdisj l2); [by eapply dict_get_Some_value|].
      rewrite app_nil_r. by eapply dict_get_Some_value. }
    split_and!; [done | done | done |].
    unfold resolve_name. rewrite Hrepos. cbn [dict_values fmap list_fmap snd for_each].
    rewrite (resolve_name_repo_literal _ _ _ _ _ Hl1). cbn [mbind result_bind].
    rewrite (resolve_name_repo_literal _ _ _ _ _ Hl2). cbn [mbind result_bind].
    assert (set_add (set_add [] l1) l2 = [l1; l2]) as ->.
    { assert (set_add [] l1 = [l1]) as ->.
      { unfold set_add. by rewrite bool_decide_false by apply not_elem_of_nil. }
      unfold set_add. rewrite bool_decide_false; [done|].
      intros ->%list_elem_of_singleton. done. }
    rewrite bool_decide_false by done. done.
Qed.

Lemma resolve_name_union_witness :
  ∃ h self, sample_mirror = Ok (h, self)
    ∧ resolve_name self "bash" true = Ok [0; 6]
    ∧ ∃ s, resolve_name self "base" true = Ok s ∧ NoDup s.
Proof.
  destruct sample_mirror as [[h self]|e] eqn:E; [|no_raise sample_mirror by E].
  exists h, self. split; [reflexivity|].
  destruct (resolve_name_union sample_db ["core"; "extra"] DEFAULT_SERVER
              ["x86_64"] h self E) as [Hunion Htwo].
  read_off sample_mirror by E at (λ (_ : heap) self, dict_keys (repos self))
    is [("core", "x86_64"); ("extra", "x86_64")] as Hkeys.
  read_off sample_mirror by E
    at (λ (_ : heap) self, (λ r, dict_get (packages r) "bash") <$> dict_values (repos self))
    is [Some 0; Some 6] as Hbash.
  read_off sample_mirror by E at (λ (_ : heap) self, resolve_name self "base" true)
    is (Ok (A:=list loc) [0; 2]) as Hbase.
  clear E. split.
  - destruct (repos self) as [|[k1 r1] [|[k2 r2] [|]]] eqn:Hrepos; try done.
    injection Hbash as H1 H2.
    destruct (Htwo k1 r1 k2 r2 "bash" true eq_refl)
      as (l1 & l2 & _ & Hl1 & Hl2 & Hres).
    + unfold dict_mem. by rewrite H1.
    + unfold dict_mem. by rewrite H2.
    + congruence.
  - destruct (Hunion "base" true) as (s & Hnd & _ & Hres).
    exists s. split; [|done]. rewrite Hres. rewrite Hbase in Hres.
    destruct s; [done | done].
Defined.

(** C2. On every mirror that [Mirror.__init__] builds: a name that no
    catalog holds as a package name, a provides entry or a group entry makes
    [resolve_name] raise the ValueError that names it when [important] is
    set, and return the empty set when it is not; a name that some catalog
    holds makes [resolve_name] return a non-empty set, whatever [important]
    is. *)
Theorem resolve_name_strict db repo_names server archs h self :
  Mirror_init db repo_names server archs = Ok (h, self) →
  ∀ pkgname,
    ((∀ r, r ∈ dict_values (repos self) → Repo_contains r pkgname = false) →
     resolve_name self pkgname true
       = Raise (ValueError (pkgname +:+ " not found in any repo"))
     ∧ resolve_name self pkgname false = Ok [])
    ∧ ((∃ r, r ∈ dict_values (repos self) ∧ Repo_contains r pkgname = true) →
       ∀ important, ∃ s, s ≠ [] ∧ resolve_name self pkgname important = Ok s).
Proof.
  intros [Hok Hnd]%Mirror_init_ok pkgname. split.
  - intros Hnone.
    assert (∀ s : list loc,
              (∀ l, l ∈ s ↔ ∃ r, r ∈ dict_values (repos self)
                                 ∧ resolved_in r pkgname l) → s = []) as Hempty.
    { intros [|l s] Hmem; [done|]. exfalso.
      destruct (proj1 (Hmem l)) as (r & Hr & n & Hn & _); [apply list_elem_of_here|].
      rewrite (match_set_absent _ _ (Hnone r Hr)) in Hn. by apply elem_of_nil in Hn. }
    destruct (resolve_name_spec self pkgname true Hok) as (s & _ & Hmem & ->).
    destruct (resolve_name_spec self pkgname false Hok) as (s' & _ & Hmem' & ->).
    rewrite (Hempty s Hmem), (Hempty s' Hmem'). done.
  - intros (r & Hr & Hin) important.
    destruct (resolve_name_spec self pkgname important Hok) as (s & _ & Hmem & ->).
    rewrite Forall_forall in Hok.
    destruct (match_set_present r pkgname (Hok r Hr) Hin) as [l Hl].
    assert (l ∈ s) as Hls by (apply Hmem; eauto).
    exists s. destruct s; [by apply elem_of_nil in Hls|].
    split; [done|]. rewrite bool_decide_false by done. by rewrite andb_false_r.
Qed.

Lemma resolve_name_strict_witness :
  ∃ h self, sample_mirror = Ok (h, self)
    ∧ resolve_name self "missing" true = Raise (ValueError "missing not found in any repo")
    ∧ resolve_name self "missing" false = Ok []
    ∧ ∃ s, s ≠ [] ∧ resolve_name self "sh" true = Ok s.
Proof.
  destruct sample_mirror as [[h self]|e] eqn:E; [|no_raise sample_mirror by E].
  exists h, self. split; [reflexivity|].
  destruct (resolve_name_strict sample_db ["core"; "extra"] DEFAULT_SERVER
              ["x86_64"] h self E "missing") as [Hnone _].
  destruct (resolve_name_strict sample_db ["core"; "extra"] DEFAULT_SERVER
              ["x86_64"] h self E "sh") as [_ Hsome].
  read_off sample_mirror by E
    at (λ (_ : heap) self, (λ r, Repo_contains r "missing") <$> dict_values (repos self))
    is [false; false] as Hmissing.
  read_off sample_mirror by E
    at (λ (_ : heap) self, (λ r, Repo_contains r "sh") <$> dict_values (repos self))
    is [true; false] as Hsh.
  clear E.
  destruct (dict_values (repos self)) as [|r1 [|r2 [|]]] eqn:Hrepos; try done.
  injection Hmissing as Hm1 Hm2. injection Hsh as Hs1 _.
  destruct Hnone as [Hstrict Hlenient].
  { intros r [->|[->|?%elem_of_nil]%elem_of_cons]%elem_of_cons; done. }
  split_and!; [exact Hstrict | exact Hlenient |].
  apply Hsome. exists r1. split; [apply list_elem_of_here | done].
Defined.

(** C3. On every mirror that [Mirror.__init__] builds, one catalog's round
    of [resolve_name] adds the objects of a single match set, chosen in the
    order package name, provides entry, group entry ([match_set]). When the
    catalog holds a package literally named [pkgname], that round adds this
    package and nothing else, whatever the provides and group indices say;
    the result of [resolve_name] then holds the literal package and no
    other package of that catalog, so no provider of the name from it. *)
Theorem resolve_name_shadowing db repo_names server archs h self :
  Mirror_init db repo_names server archs = Ok (h, self) →
  ∀ r pkgname, r ∈ dict_values (repos self) →
    (∀ pkgs found, truthy found = false →
       ∃ objs found',
         resolve_name_repo pkgname (pkgs, found) r = Ok (set_update pkgs objs, found')
         ∧ Forall2 (λ n l, dict_get (packages r) n = Some l) (match_set r pkgname) objs)
    ∧ (∀ l, dict_get (packages r) pkgname = Some l →
         match_set r pkgname = [pkgname]
         ∧ (∀ pkgs found,
              resolve_name_repo pkgname (pkgs, found) r = Ok (set_add pkgs l, None))
         ∧ ∀ important, ∃ s,
             resolve_name self pkgname important = Ok s
             ∧ l ∈ s
             ∧ ∀ q lq, q ≠ pkgname → dict_get (packages r) q = Some lq → lq ∉ s).
Proof.
  intros [Hok Hnd]%Mirror_init_ok r pkgname Hr. split.
  - intros pkgs found Hfound. rewrite Forall_forall in Hok.
    destruct (resolve_name_repo_spec pkgname pkgs found r (Hok r Hr) Hfound)
      as (objs & found' & Hstep & _ & Hall). eauto.
  - intros l Hl. split_and!.
    + by eapply match_set_literal.
    + intros pkgs found. by apply resolve_name_repo_literal.
    + intros important.
      destruct (resolve_name_spec self pkgname important Hok) as (s & _ & Hmem & ->).
      assert (l ∈ s) as Hls.
      { apply Hmem. exists r. split; [done|]. exists pkgname.
        rewrite (match_set_literal _ _ _ Hl). split; [apply list_elem_of_here | done]. }
      exists s. split_and!; [| done |].
      * destruct s; [by apply elem_of_nil in Hls|].
        rewrite bool_decide_false by done. by rewrite andb_false_r.
      * intros q lq Hq Hlq (r' & Hr' & n & Hn & Hget)%Hmem.
        assert (r = r') as <-.
        { eapply (NoDup_bind_same repo_locs); [exact Hnd | done | done | |].
          - by eapply dict_get_Some_value.
          - by eapply dict_get_Some_value. }
        rewrite (match_set_literal _ _ _ Hl) in Hn.
        apply list_elem_of_singleton in Hn as ->.
        apply Hq. eapply dict_get_inj; [|exact Hlq|exact Hget].
        by eapply (NoDup_bind_elem repo_locs).
Qed.

Lemma resolve_name_shadowing_witness :
  ∃ h self, sample_mirror = Ok (h, self)
    ∧ ∃ r s, dict_get (repos self) ("core", "x86_64") = Some r
        ∧ dict_get (provides r) "sh" = Some ["bash"]
        ∧ dict_get (packages r) "bash" = Some 0
        ∧ dict_get (packages r) "sh" = Some 1
        ∧ resolve_name self "sh" true = Ok s
        ∧ 1 ∈ s ∧ 0 ∉ s.
Proof.
  destruct sample_mirror as [[h self]|e] eqn:E; [|no_raise sample_mirror by E].
  exists h, self. split; [reflexivity|].
  pose proof (resolve_name_shadowing sample_db ["core"; "extra"] DEFAULT_SERVER
                ["x86_64"] h self E) as Hshadow.
  read_off sample_mirror by E
    at (λ (_ : heap) self,
          (λ r, (dict_get (provides r) "sh", dict_get (packages r) "bash",
                 dict_get (packages r) "sh"))
            <$> dict_get (repos self) ("core", "x86_64"))
    is (Some (Some ["bash"], Some 0, Some 1)) as Hcore.
  clear E.
  destruct (dict_get (repos self) ("core", "x86_64")) as [r|] eqn:Hr; [|done].
  injection Hcore as Hprov Hbash Hsh.
  destruct (Hshadow r "sh" (dict_get_Some_value _ _ _ Hr)) as [_ Hlit].
  destruct (Hlit 1 Hsh) as (_ & _ & Hall).
  destruct (Hall true) as (s & Hs & Hin & Hno).
  exists r, s. split_and!; [done | done | done | done | done | done |].
  by apply (Hno "bash" 0).
Defined.

(** ** Dependency closure *)

Lemma tuple_of_subscript_values {V : Type} (d : list (string * V)) ns objs :
  tuple_of (subscript d) ns = Ok objs → Forall (λ l, l ∈ dict_values d) objs.
Proof.
  revert objs. induction ns as [|n ns IH]; intros objs; simpl.
  - intros [= <-]. constructor.
  - destruct (subscript d n) as [l|] eqn:E; simpl; [|done].
    destruct (tuple_of (subscript d) ns) as [ls|]; simpl; [|done].
    intros [= <-]. constructor; [|by apply IH].
    unfold subscript in E. destruct (dict_get d n) eqn:E'; [|done].
    injection E as ->. by eapply dict_get_Some_value.
Qed.

Lemma resolve_name_repo_locs pkgname st r st' :
  resolve_name_repo pkgname st r = Ok st' →
  ∀ l, l ∈ st'.1 → l ∈ st.1 ∨ l ∈ repo_locs r.
Proof.
  destruct st as [pkgs found]. unfold resolve_name_repo.
  destruct (if dict_mem pkgname (packages r) then _ else _) as [found1|];
    simpl; [|done].
  destruct (truthy found1).
  - destruct (tuple_of _ _) as [objs|] eqn:E; simpl; [|done].
    intros [= <-] l. simpl. rewrite elem_of_set_update.
    intros [?|Hl]; [by left | right].
    apply tuple_of_subscript_values in E. rewrite Forall_forall in E. auto.
  - intros [= <-] l. simpl. by left.
Qed.

(** Whatever [resolve_name] returns belongs to the catalogs. *)
Lemma resolve_name_locs self pkgname important s :
  resolve_name self pkgname important = Ok s →
  ∀ l, l ∈ s → l ∈ mirror_locs self.
Proof.
  unfold resolve_name.
  destruct (for_each _ _ _) as [[pkgs found]|] eqn:E; simpl; [|done].
  intros Hs.
  assert (s = pkgs) as -> by (destruct (_ || _); congruence). clear Hs.
  apply (λ Hstep Hs,
           for_each_invariant _ (λ st, ∀ l, l ∈ st.1 → l ∈ mirror_locs self)
             _ Hstep _ (pkgs, found) Hs E).
  - intros st r st' Hr Hst Hstep l Hl.
    destruct (resolve_name_repo_locs _ _ _ _ Hstep l Hl) as [?|?]; [auto|].
    unfold mirror_locs. apply list_elem_of_bind. eauto.
  - simpl. by intros l ?%elem_of_nil.
Qed.

Lemma enqueue_locs self important names queue queue' :
  for_each (enqueue self important) names queue = Ok queue' →
  (∀ l, l ∈ queue → l ∈ queue')
  ∧ (∀ l, l ∈ queue' → l ∈ queue ∨ l ∈ mirror_locs self).
Proof.
  intros Hrun.
  apply (for_each_invariant _
           (λ q, (∀ l, l ∈ queue → l ∈ q)
                 ∧ (∀ l, l ∈ q → l ∈ queue ∨ l ∈ mirror_locs self)))
    in Hrun; [done | | auto].
  intros q d_name q' _ [Hkeep Hq]. unfold enqueue.
  destruct (resolve_name self d_name important) as [ds|] eqn:E; simpl; [|done].
  intros [= <-]. split.
  - intros l Hl. apply elem_of_app. left. auto.
  - intros l [?|?]%elem_of_app; [auto|].
    right. by eapply resolve_name_locs.
Qed.

Lemma expand_locs self h optdepends p queue queue' :
  expand self h optdepends p queue = Ok queue' →
  (∀ l, l ∈ queue → l ∈ queue')
  ∧ (∀ l, l ∈ queue' → l ∈ queue ∨ l ∈ mirror_locs self).
Proof.
  unfold expand.
  destruct (getattr (heap_get h p) "depends") as [v|]; simpl; [|done].
  destruct (py_iter v) as [names|]; simpl; [|done].
  destruct (for_each (enqueue self true) names queue) as [q1|] eqn:E1; simpl; [|done].
  apply enqueue_locs in E1 as [Hkeep1 Hin1].
  destruct optdepends.
  - destruct (getattr (heap_get h p) "optdepends") as [v'|]; simpl; [|done].
    destruct (py_iter v') as [names'|]; simpl; [|done].
    intros [Hkeep2 Hin2]%enqueue_locs. split; [auto|].
    intros l [?|?]%Hin2; auto.
  - intros [= <-]. auto.
Qed.

Lemma elem_of_pending self queue known x :
  x ∈ pending self queue known ↔ (x ∉ known) ∧ (x ∈ queue ∨ x ∈ mirror_locs self).
Proof.
  unfold pending. by rewrite list_elem_of_filter, elem_of_remove_dups, elem_of_app.
Qed.

Lemma NoDup_pending self queue known : NoDup (pending self queue known).
Proof. unfold pending. apply NoDup_filter, NoDup_remove_dups. Qed.

Lemma pending_length_le self q1 k1 q2 k2 :
  (∀ x, x ∈ pending self q1 k1 → x ∈ pending self q2 k2) →
  length (pending self q1 k1) ≤ length (pending self q2 k2).
Proof.
  intros Hsub. apply submseteq_length, NoDup_submseteq; [apply NoDup_pending | done].
Qed.

Lemma pending_length_lt self q1 k1 q2 k2 x :
  (∀ y, y ∈ pending self q1 k1 → y ∈ pending self q2 k2) →
  x ∈ pending self q2 k2 → x ∉ pending self q1 k1 →
  length (pending self q1 k1) < length (pending self q2 k2).
Proof.
  intros Hsub Hx Hnx.
  assert (length (x :: pending self q1 k1) ≤ length (pending self q2 k2)) as Hle.
  { apply submseteq_length, NoDup_submseteq.
    - apply NoDup_cons. split; [done | apply NoDup_pending].
    - intros y [->|Hy]%elem_of_cons; auto. }
  simpl in Hle. lia.
Qed.

(** The loop of [resolve_deps] ends: a visit of a new package takes it out
    of [pending], and a package already known only shortens the queue. *)
Lemma resolve_deps_loop_ends self h optdepends n :
  ∀ queue known, length (pending self queue known) ≤ n →
  ∃ N r, ∀ fuel, N ≤ fuel →
    resolve_deps_loop fuel self h optdepends queue known = Some r.
Proof.
  induction n as [|n IHn]; intros queue; induction queue as [|p queue IHq];
    intros known Hlen.
  - exists 1, (Ok known). intros [|fuel] ?; [lia | done].
  - destruct (decide (p ∈ known)) as [Hp|Hp].
    + destruct (IHq known) as (N & r & Hrun).
      { etrans; [|exact Hlen]. apply pending_length_le. intros x.
        rewrite !elem_of_pending, elem_of_cons. tauto. }
      exists (S N), r. intros [|fuel] ?; [lia|]. simpl.
      rewrite bool_decide_true by done. apply Hrun. lia.
    + exfalso.
      assert (p ∈ pending self (p :: queue) known) as Hin.
      { apply elem_of_pending. split; [done|]. left. apply list_elem_of_here. }
      destruct (pending self (p :: queue) known); [by apply elem_of_nil in Hin|].
      simpl in Hlen. lia.
  - exists 1, (Ok known). intros [|fuel] ?; [lia | done].
  - destruct (decide (p ∈ known)) as [Hp|Hp].
    + destruct (IHq known) as (N & r & Hrun).
      { etrans; [|exact Hlen]. apply pending_length_le. intros x.
        rewrite !elem_of_pending, elem_of_cons. tauto. }
      exists (S N), r. intros [|fuel] ?; [lia|]. simpl.
      rewrite bool_decide_true by done. apply Hrun. lia.
    + destruct (expand self h optdepends p queue) as [queue'|e] eqn:E.
      * destruct (IHn queue' (set_add known p)) as (N & r & Hrun).
        { assert (length (pending self queue' (set_add known p))
                  < length (pending self (p :: queue) known)); [|lia].
          apply (pending_length_lt _ _ _ _ _ p).
          - intros x. rewrite !elem_of_pending, elem_of_set_add, elem_of_cons.
            intros [Hx Hin]. split; [tauto|].
            destruct Hin as [Hin|?]; [|tauto].
            destruct (proj2 (expand_locs _ _ _ _ _ _ E) x Hin); tauto.
          - apply elem_of_pending. split; [done|]. left. apply list_elem_of_here.
          - rewrite elem_of_pending, elem_of_set_add. tauto. }
        exists (S N), r. intros [|fuel] ?; [lia|]. simpl.
        rewrite bool_decide_false by done. rewrite E. apply Hrun. lia.
      * exists 1, (Raise e). intros [|fuel] ?; [lia|]. simpl.
        rewrite bool_decide_false by done. by rewrite E.
Qed.

(** More fuel than needed does not change the outcome. *)
Lemma resolve_deps_loop_more_fuel self h optdepends fuel :
  ∀ queue known r fuel',
    resolve_deps_loop fuel self h optdepends queue known = Some r →
    fuel ≤ fuel' →
    resolve_deps_loop fuel' self h optdepends queue known = Some r.
Proof.
  induction fuel as [|fuel IH]; intros queue known r fuel'; simpl; [done|].
  destruct fuel' as [|fuel']; [lia|]. simpl.
  destruct queue as [|p queue]; [done|].
  case_bool_decide.
  - intros ??. apply IH; [done | lia].
  - destruct (expand self h optdepends p queue); [|done].
    intros ??. apply IH; [done | lia].
Qed.

(** What the loop returns has no repetition and holds every package that
    was known and every package that was queued. *)
Lemma resolve_deps_loop_superset self h optdepends fuel :
  ∀ queue known s,
    resolve_deps_loop fuel self h optdepends queue known = Some (Ok s) →
    (NoDup known → NoDup s)
    ∧ (∀ x, x ∈ known → x ∈ s) ∧ (∀ x, x ∈ queue → x ∈ s).
Proof.
  induction fuel as [|fuel IH]; intros queue known s; simpl; [done|].
  destruct queue as [|p queue].
  - intros [= <-]. split_and!; [done | done | by intros x ?%elem_of_nil].
  - case_bool_decide as Hp.
    + intros (Hnd & Hk & Hq)%IH. split_and!; [done | done |].
      intros x [->|?]%elem_of_cons; auto.
    + destruct (expand self h optdepends p queue) as [queue'|e] eqn:E; [|done].
      intros (Hnd & Hk & Hq)%IH.
      split_and!.
      * intros ?. by apply Hnd, NoDup_set_add.
      * intros x Hx. apply Hk, elem_of_set_add. by left.
      * intros x [->|Hx]%elem_of_cons.
        -- apply Hk, elem_of_set_add. by right.
        -- apply Hq. by apply (proj1 (expand_locs _ _ _ _ _ _ E)).
Qed.

(** What the loop returns was known, queued, or belongs to the catalogs. *)
Lemma resolve_deps_loop_subset self h optdepends fuel :
  ∀ queue known s,
    resolve_deps_loop fuel self h optdepends queue known = Some (Ok s) →
    ∀ x, x ∈ s → x ∈ known ∨ x ∈ queue ∨ x ∈ mirror_locs self.
Proof.
  induction fuel as [|fuel IH]; intros queue known s; simpl; [done|].
  destruct queue as [|p queue].
  - intros [= <-] x ?. by left.
  - case_bool_decide as Hp.
    + intros Hrun x Hx. destruct (IH _ _ _ Hrun x Hx) as [?|[?|?]]; auto.
      right. left. by apply list_elem_of_further.
    + destruct (expand self h optdepends p queue) as [queue'|e] eqn:E; [|done].
      intros Hrun x Hx.
      destruct (IH _ _ _ Hrun x Hx) as [[?| ->]%elem_of_set_add|[Hq|?]]; auto.
      * right. left. apply list_elem_of_here.
      * destruct (proj2 (expand_locs _ _ _ _ _ _ E) x Hq); auto.
        right. left. by apply list_elem_of_further.
Qed.

(** The queue only grows at its end, by what the names resolve to. *)
Lemma enqueue_app self important names queue :
  for_each (enqueue self important) names queue =
    (l ← for_each (enqueue self important) names []; Ok (queue ++ l)).
Proof.
  revert queue. induction names as [|d names IH]; intros queue; cbn [for_each].
  - simpl. by rewrite app_nil_r.
  - assert (∀ q, enqueue self important q d
                 = (ds ← resolve_name self d important; Ok (q ++ ds))) as Hstep
      by done.
    rewrite !Hstep.
    destruct (resolve_name self d important) as [ds|e]; simpl; [|done].
    rewrite (IH (queue ++ ds)), (IH ds).
    destruct (for_each (enqueue self important) names []) as [l|]; simpl; [|done].
    by rewrite app_assoc.
Qed.

Lemma expand_app self h optdepends p queue :
  expand self h optdepends p queue =
    (l ← expand self h optdepends p []; Ok (queue ++ l)).
Proof.
  unfold expand.
  destruct (getattr (heap_get h p) "depends") as [v|]; simpl; [|done].
  destruct (py_iter v) as [names|]; simpl; [|done].
  rewrite (enqueue_app self true names queue).
  destruct (for_each (enqueue self true) names []) as [l1|]; simpl; [|done].
  destruct optdepends; [|done].
  destruct (getattr (heap_get h p) "optdepends") as [v'|]; simpl; [|done].
  destruct (py_iter v') as [names'|]; simpl; [|done].
  rewrite (enqueue_app self false names' (queue ++ l1)),
    (enqueue_app self false names' l1).
  destruct (for_each (enqueue self false) names' []) as [l2|]; simpl; [|done].
  by rewrite app_assoc.
Qed.

Lemma enqueue_names self important names queue queue' :
  for_each (enqueue self important) names queue = Ok queue' →
  ∀ d, d ∈ names →
    ∃ ds, resolve_name self d important = Ok ds ∧ ∀ x, x ∈ ds → x ∈ queue'.
Proof.
  revert queue. induction names as [|d0 names IH]; intros queue; cbn [for_each].
  - by intros _ d ?%elem_of_nil.
  - assert (enqueue self important queue d0
            = (ds ← resolve_name self d0 important; Ok (queue ++ ds))) as ->
      by done.
    destruct (resolve_name self d0 important) as [ds0|e] eqn:E0; simpl; [|done].
    intros Hrun d [->|Hd]%elem_of_cons; [|by eapply IH].
    exists ds0. split; [done|]. intros x Hx.
    apply (proj1 (enqueue_locs _ _ _ _ _ Hrun)), elem_of_app. by right.
Qed.

Lemma resolve_deps_loop_visited self h optdepends fuel :
  ∀ queue known s,
    resolve_deps_loop fuel self h optdepends queue known = Some (Ok s) →
    visited_ok self h optdepends known queue →
    visited_ok self h optdepends s [].
Proof.
  induction fuel as [|fuel IH]; intros queue known s; simpl; [done|].
  destruct queue as [|p queue].
  - by intros [= <-].
  - case_bool_decide as Hp.
    + intros Hrun Hinv. apply (IH _ _ _ Hrun).
      intros p' (l & Hl & Hsub)%Hinv. exists l. split; [done|].
      intros x [?|[->|?]%elem_of_cons]%Hsub; auto.
    + destruct (expand self h optdepends p queue) as [queue'|e] eqn:E; [|done].
      intros Hrun Hinv. apply (IH _ _ _ Hrun).
      rewrite expand_app in E.
      destruct (expand self h optdepends p []) as [lp|] eqn:Ep; [|done].
      simpl in E. injection E as <-.
      intros p' [Hp'| ->]%elem_of_set_add.
      * destruct (Hinv p' Hp') as (l & Hl & Hsub). exists l. split; [done|].
        intros x Hx. rewrite elem_of_set_add, elem_of_app.
        destruct (Hsub x Hx) as [?|[->|?]%elem_of_cons]; auto.
      * exists lp. split; [done|]. intros x Hx. right. apply elem_of_app. auto.
Qed.

Lemma resolve_deps_loop_reachable self h optdepends seeds fuel :
  ∀ queue known s,
    resolve_deps_loop fuel self h optdepends queue known = Some (Ok s) →
    (∀ x, x ∈ known → reachable self h optdepends seeds x) →
    (∀ x, x ∈ queue → reachable self h optdepends seeds x) →
    ∀ x, x ∈ s → reachable self h optdepends seeds x.
Proof.
  induction fuel as [|fuel IH]; intros queue known s; simpl; [done|].
  destruct queue as [|p queue].
  - intros [= <-]. auto.
  - case_bool_decide as Hp.
    + intros Hrun Hk Hq. apply (IH _ _ _ Hrun); [done|].
      intros x Hx. apply Hq. by apply list_elem_of_further.
    + destruct (expand self h optdepends p queue) as [queue'|e] eqn:E; [|done].
      intros Hrun Hk Hq.
      assert (reachable self h optdepends seeds p) as Hrp
        by apply Hq, list_elem_of_here.
      apply (IH _ _ _ Hrun).
      * intros x [?| ->]%elem_of_set_add; auto.
      * rewrite expand_app in E.
        destruct (expand self h optdepends p []) as [lp|] eqn:Ep; [|done].
        simpl in E. injection E as <-.
        intros x [Hx|Hx]%elem_of_app.
        -- apply Hq. by apply list_elem_of_further.
        -- by eapply reach_step.
Qed.

(** The closure that [resolve_deps] returns is the set of the packages
    reachable from the seeds. *)
Lemma resolve_deps_reachable fuel self h seeds optdepends s :
  resolve_deps fuel self h seeds optdepends = Some (Ok s) →
  ∀ x, x ∈ s ↔ reachable self h optdepends seeds x.
Proof.
  unfold resolve_deps. intros Hrun x. split.
  - apply (resolve_deps_loop_reachable _ _ _ _ _ _ _ _ Hrun); [|by auto using reach_seed].
    by intros y ?%elem_of_nil.
  - destruct (resolve_deps_loop_superset _ _ _ _ _ _ _ Hrun) as (_ & _ & Hseeds).
    assert (visited_ok self h optdepends s []) as Hclosed.
    { apply (resolve_deps_loop_visited _ _ _ _ _ _ _ Hrun).
      by intros p ?%elem_of_nil. }
    induction 1 as [x Hx|p l x _ IHp Hl Hx]; [auto|].
    destruct (Hclosed p IHp) as (l' & Hl' & Hsub).
    assert (l' = l) as -> by congruence.
    destruct (Hsub x Hx) as [?|?%elem_of_nil]; done.
Qed.

Lemma expand_names self h optdepends p l :
  expand self h optdepends p [] = Ok l →
  (∃ v names,
     getattr (heap_get h p) "depends" = Ok v ∧ py_iter v = Ok names
     ∧ ∀ d, d ∈ names →
         ∃ ds, resolve_name self d true = Ok ds ∧ ∀ x, x ∈ ds → x ∈ l)
  ∧ (optdepends = true →
     ∃ v names,
       getattr (heap_get h p) "optdepends" = Ok v ∧ py_iter v = Ok names
       ∧ ∀ d, d ∈ names →
           ∃ ds, resolve_name self d false = Ok ds ∧ ∀ x, x ∈ ds → x ∈ l).
Proof.
  unfold expand.
  destruct (getattr (heap_get h p) "depends") as [v|] eqn:Hv; simpl; [|done].
  destruct (py_iter v) as [names|] eqn:Hn; simpl; [|done].
  destruct (for_each (enqueue self true) names []) as [l1|] eqn:E1; simpl; [|done].
  destruct optdepends.
  - destruct (getattr (heap_get h p) "optdepends") as [v'|] eqn:Hv'; simpl; [|done].
    destruct (py_iter v') as [names'|] eqn:Hn'; simpl; [|done].
    intros E2. split.
    + exists v, names. split_and!; [done | done |].
      intros d Hd. destruct (enqueue_names _ _ _ _ _ E1 d Hd) as (ds & Hds & Hsub).
      exists ds. split; [done|]. intros x Hx.
      apply (proj1 (enqueue_locs _ _ _ _ _ E2)). auto.
    + intros _. exists v', names'. split_and!; [done | done |].
      by apply (enqueue_names _ _ _ _ _ E2).
  - intros [= <-]. split; [|done].
    exists v, names. split_and!; [done | done |].
    by apply (enqueue_names _ _ _ _ _ E1).
Qed.

Lemma expand_optional_more self h p l l' :
  expand self h false p [] = Ok l → expand self h true p [] = Ok l' →
  ∀ x, x ∈ l → x ∈ l'.
Proof.
  unfold expand.
  destruct (getattr (heap_get h p) "depends") as [v|]; simpl; [|done].
  destruct (py_iter v) as [names|]; simpl; [|done].
  destruct (for_each (enqueue self true) names []) as [l1|] eqn:E1; simpl; [|done].
  intros [= <-].
  destruct (getattr (heap_get h p) "optdepends") as [v'|]; simpl; [|done].
  destruct (py_iter v') as [names'|]; simpl; [|done].
  intros E2. apply (proj1 (enqueue_locs _ _ _ _ _ E2)).
Qed.

(** ** Properties of the dependency closure *)

(** X1. [resolve_deps] ends on every mirror, heap, seed list and flag: with
    enough rounds the loop returns a closure or raises, and more rounds do
    not change the outcome. *)
Theorem resolve_deps_terminates self h packages optdepends :
  ∃ N r, ∀ fuel, N ≤ fuel →
    resolve_deps fuel self h packages optdepends = Some r.
Proof.
  unfold resolve_deps.
  apply (resolve_deps_loop_ends self h optdepends
           (length (pending self packages []))). done.
Qed.

Lemma enqueue_elems self important names :
  ∀ queue queue',
    for_each (enqueue self important) names queue = Ok queue' →
    ∀ x, x ∈ queue' →
      x ∈ queue
      ∨ ∃ d ds, d ∈ names ∧ resolve_name self d important = Ok ds ∧ x ∈ ds.
Proof.
  induction names as [|d0 names IH]; intros queue queue'; cbn [for_each].
  - intros [= <-] x Hx. by left.
  - assert (enqueue self important queue d0
            = (ds ← resolve_name self d0 important; Ok (queue ++ ds))) as ->
      by done.
    destruct (resolve_name self d0 important) as [ds0|e] eqn:E0; simpl; [|done].
    intros Hrun x Hx.
    destruct (IH _ _ Hrun x Hx) as [[?|?]%elem_of_app|(d & ds & Hd & Hds & Hin)].
    + by left.
    + right. exists d0, ds0. split_and!; [apply list_elem_of_here | done | done].
    + right. exists d, ds. split_and!; [by apply list_elem_of_further | done | done].
Qed.

(** What a visit queues comes from the names of [depends], and of
    [optdepends] when the flag is set. *)
Lemma expand_elems self h optdepends p l :
  expand self h optdepends p [] = Ok l →
  ∀ x, x ∈ l →
    (∃ v names d ds,
       getattr (heap_get h p) "depends" = Ok v ∧ py_iter v = Ok names
       ∧ d ∈ names ∧ resolve_name self d true = Ok ds ∧ x ∈ ds)
    ∨ (optdepends = true
       ∧ ∃ v names d ds,
           getattr (heap_get h p) "optdepends" = Ok v ∧ py_iter v = Ok names
           ∧ d ∈ names ∧ resolve_name self d false = Ok ds ∧ x ∈ ds).
Proof.
  unfold expand.
  destruct (getattr (heap_get h p) "depends") as [v|] eqn:Hv; simpl; [|done].
  destruct (py_iter v) as [names|] eqn:Hn; simpl; [|done].
  destruct (for_each (enqueue self true) names []) as [l1|] eqn:E1; simpl; [|done].
  assert (∀ x, x ∈ l1 →
            ∃ v names d ds,
              getattr (heap_get h p) "depends" = Ok v ∧ py_iter v = Ok names
              ∧ d ∈ names ∧ resolve_name self d true = Ok ds ∧ x ∈ ds) as Hhard.
  { intros x Hx.
    destruct (enqueue_elems _ _ _ _ _ E1 x Hx) as [?%elem_of_nil|(d & ds & ? & ? & ?)];
      [done|].
    rewrite Hv. by exists v, names, d, ds. }
  destruct optdepends.
  - destruct (getattr (heap_get h p) "optdepends") as [v'|] eqn:Hv'; simpl; [|done].
    destruct (py_iter v') as [names'|] eqn:Hn'; simpl; [|done].
    intros E2 x Hx.
    destruct (enqueue_elems _ _ _ _ _ E2 x Hx) as [?|(d & ds & ? & ? & ?)].
    + left. rewrite <- Hv. auto.
    + right. split; [done|]. by exists v', names', d, ds.
  - intros [= <-] x Hx. left. rewrite <- Hv. auto.
Qed.

(** X2. When [resolve_deps] returns, the closure lists no package twice and
    holds exactly the packages that dependencies lead to from the seeds: a
    seed, or a package that a name in [depends] (and in [optdepends] when
    the flag is set, and only then) of such a package resolves to. *)
Theorem resolve_deps_closure fuel self h packages optdepends s :
  resolve_deps fuel self h packages optdepends = Some (Ok s) →
  NoDup s ∧ ∀ x, x ∈ s ↔ dep_reachable self h optdepends packages x.
Proof.
  intros Hrun. split.
  { apply (resolve_deps_loop_superset _ _ _ _ _ _ _ Hrun), NoDup_nil_2. }
  intros x. rewrite (resolve_deps_reachable _ _ _ _ _ _ Hrun x). split.
  - induction 1 as [x Hx|p l x _ IHp Hl Hx]; [by apply dep_seed|].
    destruct (expand_elems _ _ _ _ _ Hl x Hx)
      as [(v & names & d & ds & Hv & Hn & Hd & Hds & Hin)
         |[Hflag (v & names & d & ds & Hv & Hn & Hd & Hds & Hin)]].
    + by eapply dep_hard.
    + by eapply dep_optional.
  - assert (visited_ok self h optdepends s []) as Hclosed.
    { apply (resolve_deps_loop_visited _ _ _ _ _ _ _ Hrun).
      by intros p ?%elem_of_nil. }
    induction 1 as [x Hx|p v names d ds x _ IHp Hv Hn Hd Hds Hx
                   |p v names d ds x Hflag _ IHp Hv Hn Hd Hds Hx].
    + by apply reach_seed.
    + apply (resolve_deps_reachable _ _ _ _ _ _ Hrun) in IHp as Hp.
      destruct (Hclosed p Hp) as (l & Hl & _).
      destruct (proj1 (expand_names _ _ _ _ _ Hl))
        as (v' & names' & Hv' & Hn' & Hall).
      assert (names' = names) as -> by congruence.
      destruct (Hall d Hd) as (ds' & Hds' & Hsub).
      assert (ds' = ds) as -> by congruence.
      eapply reach_step; [exact IHp | exact Hl | auto].
    + apply (resolve_deps_reachable _ _ _ _ _ _ Hrun) in IHp as Hp.
      destruct (Hclosed p Hp) as (l & Hl & _).
      destruct (proj2 (expand_names _ _ _ _ _ Hl) Hflag)
        as (v' & names' & Hv' & Hn' & Hall).
      assert (names' = names) as -> by congruence.
      destruct (Hall d Hd) as (ds' & Hds' & Hsub).
      assert (ds' = ds) as -> by congruence.
      eapply reach_step; [exact IHp | exact Hl | auto].
Qed.

(** X3. When [resolve_deps] returns, every seed is in the closure, and
    every package of the closure is a seed or an object of some catalog of
    the mirror. *)
Theorem resolve_deps_bounds fuel self h packages optdepends s :
  resolve_deps fuel self h packages optdepends = Some (Ok s) →
  (∀ x, x ∈ packages → x ∈ s)
  ∧ (∀ x, x ∈ s → x ∈ packages ∨ x ∈ mirror_locs self).
Proof.
  intros Hrun. split.
  - apply (resolve_deps_loop_superset _ _ _ _ _ _ _ Hrun).
  - intros x Hx.
    destruct (resolve_deps_loop_subset _ _ _ _ _ _ _ Hrun x Hx)
      as [?%elem_of_nil|[?|?]]; auto. done.
Qed.

(** X4. When [resolve_deps] returns, the closure is closed under
    dependencies: for every package in it, [depends] can be iterated, every
    name in it resolves (strictly) and all the packages it resolves to are
    in the closure; with the flag set the same holds of [optdepends],
    resolved leniently. *)
Theorem resolve_deps_closed fuel self h packages optdepends s :
  resolve_deps fuel self h packages optdepends = Some (Ok s) →
  ∀ p, p ∈ s →
    (∃ v names,
       getattr (heap_get h p) "depends" = Ok v ∧ py_iter v = Ok names
       ∧ ∀ d, d ∈ names →
           ∃ ds, resolve_name self d true = Ok ds ∧ ∀ x, x ∈ ds → x ∈ s)
    ∧ (optdepends = true →
       ∃ v names,
         getattr (heap_get h p) "optdepends" = Ok v ∧ py_iter v = Ok names
         ∧ ∀ d, d ∈ names →
             ∃ ds, resolve_name self d false = Ok ds ∧ ∀ x, x ∈ ds → x ∈ s).
Proof.
  intros Hrun p Hp.
  assert (visited_ok self h optdepends s []) as Hclosed.
  { apply (resolve_deps_loop_visited _ _ _ _ _ _ _ Hrun).
    by intros p' ?%elem_of_nil. }
  destruct (Hclosed p Hp) as (l & Hl & Hsub).
  assert (∀ x, x ∈ l → x ∈ s) as Hsub'.
  { intros x Hx. destruct (Hsub x Hx) as [?|?%elem_of_nil]; done. }
  destruct (expand_names _ _ _ _ _ Hl) as [Hdep Hopt]. split.
  - destruct Hdep as (v & names & Hv & Hnames & Hall).
    exists v, names. split_and!; [done | done |].
    intros d Hd. destruct (Hall d Hd) as (ds & Hds & Hin). eauto.
  - intros Hflag. destruct (Hopt Hflag) as (v & names & Hv & Hnames & Hall).
    exists v, names. split_and!; [done | done |].
    intros d Hd. destruct (Hall d Hd) as (ds & Hds & Hin). eauto.
Qed.

(** X5. Asking for optional dependencies only adds packages: when both
    runs return, the closure without [optdepends] is included in the
    closure with it. *)
Theorem resolve_deps_optional_more fuel fuel' self h packages s s' :
  resolve_deps fuel self h packages false = Some (Ok s) →
  resolve_deps fuel' self h packages true = Some (Ok s') →
  ∀ x, x ∈ s → x ∈ s'.
Proof.
  intros Hrun Hrun' x Hx.
  apply (resolve_deps_reachable _ _ _ _ _ _ Hrun) in Hx.
  destruct (resolve_deps_loop_superset _ _ _ _ _ _ _ Hrun') as (_ & _ & Hseeds).
  assert (visited_ok self h true s' []) as Hclosed.
  { apply (resolve_deps_loop_visited _ _ _ _ _ _ _ Hrun').
    by intros p ?%elem_of_nil. }
  induction Hx as [x Hx|p l x _ IHp Hl Hx]; [auto|].
  destruct (Hclosed p IHp) as (l' & Hl' & Hsub).
  destruct (Hsub x (expand_optional_more _ _ _ _ _ Hl Hl' x Hx))
    as [?|?%elem_of_nil]; done.
Qed.

(** A name that no catalog holds resolves to nothing, on any mirror. *)
Lemma resolve_name_repo_absent pkgname pkgs r :
  Repo_contains r pkgname = false →
  resolve_name_repo pkgname (pkgs, None) r = Ok (pkgs, None).
Proof.
  unfold Repo_contains, resolve_name_repo.
  intros [[-> ->]%orb_false_iff ->]%orb_false_iff. done.
Qed.

Lemma resolve_name_unmatched self n :
  unmatched self n →
  resolve_name self n false = Ok [] ∧ resolve_name self n true = Raise (not_found n).
Proof.
  intros Hn. unfold unmatched in Hn. unfold resolve_name.
  assert (for_each (resolve_name_repo n) (dict_values (repos self)) ([], None)
          = Ok ([], None)) as ->; [|done].
  induction (dict_values (repos self)) as [|r rs IH]; cbn [for_each]; [done|].
  rewrite resolve_name_repo_absent by apply Hn, list_elem_of_here.
  simpl. apply IH. intros r' Hr'. apply Hn. by apply list_elem_of_further.
Qed.

Lemma enqueue_skip_unmatched self n names queue :
  unmatched self n →
  for_each (enqueue self false) (filter (λ x, x ≠ n) names) queue
  = for_each (enqueue self false) names queue.
Proof.
  intros [Hn _]%resolve_name_unmatched. revert queue.
  induction names as [|d names IH]; intros queue; [done|].
  rewrite filter_cons. destruct (decide (d ≠ n)) as [Hd|Hd]; cbn [for_each].
  - destruct (enqueue self false queue d); simpl; [apply IH | done].
  - apply dec_stable in Hd as ->.
    assert (enqueue self false queue n = Ok queue) as ->.
    { unfold enqueue. rewrite Hn. simpl. by rewrite app_nil_r. }
    simpl. apply IH.
Qed.

Lemma heap_get_fmap (f : Package → Package) (h : heap) l :
  f ∅ = ∅ → heap_get (f <$> h) l = f (heap_get h l).
Proof.
  intros Hf. unfold heap_get. rewrite list_lookup_fmap.
  by destruct (h !! l).
Qed.

Lemma expand_drop_optional self h n optdepends p queue :
  unmatched self n →
  expand self (drop_optional n <$> h) optdepends p queue
  = expand self h optdepends p queue.
Proof.
  intros Hn. unfold expand. rewrite heap_get_fmap by done.
  set (pkg := heap_get h p).
  assert (getattr (drop_optional n pkg) "depends" = getattr pkg "depends") as ->.
  { unfold getattr, drop_optional.
    destruct (pkg !! "optdepends") as [[| |l]|]; try done.
    by rewrite lookup_insert_ne. }
  destruct (getattr pkg "depends") as [v|]; simpl; [|done].
  destruct (py_iter v) as [names|]; simpl; [|done].
  destruct (for_each (enqueue self true) names queue) as [q1|]; simpl; [|done].
  destruct optdepends; [|done].
  unfold getattr, drop_optional.
  destruct (pkg !! "optdepends") as [[| |l]|] eqn:E; rewrite ?E; try done.
  rewrite lookup_insert_eq. simpl. by apply enqueue_skip_unmatched.
Qed.

(** X6. Two packages that depend on each other, and on nothing else, are
    handled without looping: when the name in [depends] of [a] resolves to
    [b] alone and the name in [depends] of [b] to [a] alone, the closure of
    [a] is [a] and [b], reached in four rounds. *)
Theorem resolve_deps_cycle self h a b na nb optdepends fuel :
  a ≠ b →
  getattr (heap_get h a) "depends" = Ok (PyTuple [nb]) →
  getattr (heap_get h b) "depends" = Ok (PyTuple [na]) →
  resolve_name self nb true = Ok [b] →
  resolve_name self na true = Ok [a] →
  (optdepends = true →
   getattr (heap_get h a) "optdepends" = Ok (PyTuple [])
   ∧ getattr (heap_get h b) "optdepends" = Ok (PyTuple [])) →
  4 ≤ fuel →
  resolve_deps fuel self h [a] optdepends = Some (Ok [a; b]).
Proof.
  intros Hab Hda Hdb Hrb Hra Hopt Hfuel.
  assert (expand self h optdepends a [] = Ok [b]) as Ha.
  { unfold expand. rewrite Hda. simpl. unfold enqueue. rewrite Hrb. simpl.
    destruct optdepends; [|done]. destruct Hopt as [-> _]; done. }
  assert (expand self h optdepends b [] = Ok [a]) as Hb.
  { unfold expand. rewrite Hdb. simpl. unfold enqueue. rewrite Hra. simpl.
    destruct optdepends; [|done]. destruct Hopt as [_ ->]; done. }
  do 4 (destruct fuel as [|fuel]; [lia|]).
  unfold resolve_deps. cbn [resolve_deps_loop].
  rewrite (bool_decide_false (a ∈ [])) by apply not_elem_of_nil.
  rewrite Ha.
  assert (set_add [] a = [a]) as ->.
  { unfold set_add. by rewrite bool_decide_false by apply not_elem_of_nil. }
  rewrite (bool_decide_false (b ∈ [a])).
  2: { intros ->%list_elem_of_singleton. done. }
  rewrite Hb.
  assert (set_add [a] b = [a; b]) as ->.
  { unfold set_add. rewrite bool_decide_false; [done|].
    intros ->%list_elem_of_singleton. done. }
  rewrite (bool_decide_true (a ∈ [a; b])) by apply list_elem_of_here.
  done.
Qed.

(** X7. A hard dependency that no catalog holds aborts the traversal: when
    the first seed lists in [depends] the name [n], found in no catalog,
    after names that all resolve, [resolve_deps] raises the ValueError
    naming [n], whatever the other seeds and the flag are. *)
Theorem resolve_deps_missing_dependency db repo_names server archs h self
    p rest optdepends names names' n fuel :
  Mirror_init db repo_names server archs = Ok (h, self) →
  getattr (heap_get h p) "depends" = Ok (PyTuple (names ++ n :: names')) →
  (∀ d, d ∈ names → ∃ r, r ∈ dict_values (repos self) ∧ Repo_contains r d = true) →
  unmatched self n →
  1 ≤ fuel →
  resolve_deps fuel self h (p :: rest) optdepends
  = Some (Raise (ValueError (n +:+ " not found in any repo"))).
Proof.
  intros [Hok _]%Mirror_init_ok Hdep Hnames Hn Hfuel.
  destruct fuel as [|fuel]; [lia|].
  unfold resolve_deps. cbn [resolve_deps_loop].
  rewrite (bool_decide_false (p ∈ [])) by apply not_elem_of_nil.
  assert (expand self h optdepends p rest = Raise (not_found n)) as ->; [|done].
  unfold expand. rewrite Hdep. cbn [mbind result_bind py_iter].
  rewrite for_each_app.
  assert (∃ q, for_each (enqueue self true) names rest = Ok q) as [q ->].
  { clear Hdep. revert rest.
    induction names as [|d names IH]; intros rest; cbn [for_each]; [eauto|].
    destruct (Hnames d) as (r & Hr & Hin); [apply list_elem_of_here|].
    destruct (resolve_name_spec self d true Hok) as (s & _ & Hmem & Hres).
    assert (s ≠ []) as Hs.
    { rewrite Forall_forall in Hok.
      destruct (match_set_present r d (Hok r Hr) Hin) as [l Hl].
      intros ->. eapply elem_of_nil, Hmem. eauto. }
    rewrite bool_decide_false, andb_false_r in Hres by done.
    assert (enqueue self true rest d = Ok (rest ++ s)) as ->
      by (unfold enqueue; by rewrite Hres).
    simpl. apply IH.
    intros d' Hd'. apply Hnames. by apply list_elem_of_further. }
  cbn [mbind result_bind for_each].
  assert (enqueue self true q n = Raise (not_found n)) as ->
    by (unfold enqueue; by rewrite (proj2 (resolve_name_unmatched self n Hn))).
  done.
Qed.

(** X8. An optional dependency that no catalog holds is skipped in silence:
    the lenient resolution of its name returns the empty set, and the
    traversal with the flag set runs exactly as it does on the heap where
    that name is struck from every [optdepends] tuple. *)
Theorem resolve_deps_optional_missing self h n packages fuel :
  unmatched self n →
  resolve_name self n false = Ok []
  ∧ resolve_deps fuel self (drop_optional n <$> h) packages true
    = resolve_deps fuel self h packages true.
Proof.
  intros Hn. split; [by apply resolve_name_unmatched|].
  unfold resolve_deps. generalize (@nil loc) as known. revert packages.
  induction fuel as [|fuel IH]; intros queue known; simpl; [done|].
  destruct queue as [|p queue]; [done|].
  rewrite expand_drop_optional by done.
  case_bool_decide; [apply IH|].
  destruct (expand self h true p queue); [apply IH | done].
Qed.

(** ** The closure on the sample mirrors *)

Lemma resolve_deps_closure_witness :
  ∃ h self, sample_mirror = Ok (h, self)
    ∧ resolve_deps 10 self h [4] false = Some (Ok [4; 5])
    ∧ dep_reachable self h false [4] 5
    ∧ ¬ dep_reachable self h false [4] 0.
Proof.
  destruct sample_mirror as [[h self]|e] eqn:E; [|no_raise sample_mirror by E].
  exists h, self. split; [reflexivity|].
  read_off sample_mirror by E at (λ h self, resolve_deps 10 self h [4] false)
    is (Some (Ok (A:=list loc) [4; 5])) as Hrun.
  clear E.
  destruct (resolve_deps_closure 10 self h [4] false [4; 5] Hrun) as [_ Hreach].
  split_and!; [done | |].
  - apply Hreach. apply list_elem_of_further, list_elem_of_here.
  - intros Hin%Hreach. apply (bool_decide_pack _) in Hin. by vm_compute in Hin.
Defined.

Lemma resolve_deps_bounds_witness :
  ∃ h self, sample_mirror = Ok (h, self)
    ∧ resolve_deps 10 self h [0] true = Some (Ok [0; 2; 3])
    ∧ ∀ x, x ∈ [0; 2; 3] → x ∈ [0] ∨ x ∈ mirror_locs self.
Proof.
  destruct sample_mirror as [[h self]|e] eqn:E; [|no_raise sample_mirror by E].
  exists h, self. split; [reflexivity|].
  read_off sample_mirror by E at (λ h self, resolve_deps 10 self h [0] true)
    is (Some (Ok (A:=list loc) [0; 2; 3])) as Hrun.
  clear E.
  destruct (resolve_deps_bounds 10 self h [0] true [0; 2; 3] Hrun) as [_ Hsub].
  split; [done | exact Hsub].
Defined.

Lemma resolve_deps_closed_witness :
  ∃ h self, sample_mirror = Ok (h, self)
    ∧ resolve_deps 10 self h [0] true = Some (Ok [0; 2; 3])
    ∧ getattr (heap_get h 0) "depends" = Ok (PyTuple ["glibc"; "readline"])
    ∧ ∃ ds, resolve_name self "readline" true = Ok ds ∧ ∀ x, x ∈ ds → x ∈ [0; 2; 3].
Proof.
  destruct sample_mirror as [[h self]|e] eqn:E; [|no_raise sample_mirror by E].
  exists h, self. split; [reflexivity|].
  read_off sample_mirror by E at (λ h self, resolve_deps 10 self h [0] true)
    is (Some (Ok (A:=list loc) [0; 2; 3])) as Hrun.
  read_off sample_mirror by E at (λ h (_ : Mirror), getattr (heap_get h 0) "depends")
    is (Ok (PyTuple ["glibc"; "readline"])) as Hdep.
  clear E.
  destruct (resolve_deps_closed 10 self h [0] true [0; 2; 3] Hrun 0)
    as [(v & names & Hv & Hnames & Hall) _]; [apply list_elem_of_here|].
  split_and!; [done | done |].
  rewrite Hdep in Hv. injection Hv as <-. simpl in Hnames. injection Hnames as <-.
  apply Hall. apply list_elem_of_further, list_elem_of_here.
Defined.

Lemma resolve_deps_optional_more_witness :
  ∃ h self, sample_small = Ok (h, self)
    ∧ resolve_deps 10 self h [0] false = Some (Ok [0])
    ∧ resolve_deps 10 self h [0] true = Some (Ok [0; 1])
    ∧ ∀ x, x ∈ [0] → x ∈ [0; 1].
Proof.
  destruct sample_small as [[h self]|e] eqn:E; [|no_raise sample_small by E].
  exists h, self. split; [reflexivity|].
  read_off sample_small by E at (λ h self, resolve_deps 10 self h [0] false)
    is (Some (Ok (A:=list loc) [0])) as Hrun.
  read_off sample_small by E at (λ h self, resolve_deps 10 self h [0] true)
    is (Some (Ok (A:=list loc) [0; 1])) as Hrun'.
  clear E. split_and!; [done | done |].
  exact (resolve_deps_optional_more 10 10 self h [0] [0] [0; 1] Hrun Hrun').
Defined.

Lemma resolve_deps_cycle_witness :
  ∃ h self, sample_mirror = Ok (h, self)
    ∧ resolve_deps 4 self h [4] true = Some (Ok [4; 5]).
Proof.
  destruct sample_mirror as [[h self]|e] eqn:E; [|no_raise sample_mirror by E].
  exists h, self. split; [reflexivity|].
  read_off sample_mirror by E
    at (λ h self, (getattr (heap_get h 4) "depends", getattr (heap_get h 5) "depends",
                   getattr (heap_get h 4) "optdepends",
                   getattr (heap_get h 5) "optdepends",
                   resolve_name self "pong" true, resolve_name self "ping" true))
    is (Ok (PyTuple ["pong"]), Ok (PyTuple ["ping"]), Ok (PyTuple []),
        Ok (PyTuple []), Ok (A:=list loc) [5], Ok (A:=list loc) [4]) as Hfacts.
  clear E.
  apply (resolve_deps_cycle self h 4 5 "ping" "pong" true 4);
    [done | assumption | assumption | assumption | assumption
    | by intros _; split | lia].
Defined.

Lemma resolve_deps_missing_dependency_witness :
  ∃ h self, sample_small = Ok (h, self)
    ∧ getattr (heap_get h 2) "depends" = Ok (PyTuple (["plugin"] ++ "ghost" :: []))
    ∧ resolve_deps 1 self h [2; 0] true
      = Some (Raise (ValueError "ghost not found in any repo")).
Proof.
  destruct sample_small as [[h self]|e] eqn:E; [|no_raise sample_small by E].
  exists h, self. split; [reflexivity|].
  read_off sample_small by E at (λ h (_ : Mirror), getattr (heap_get h 2) "depends")
    is (Ok (PyTuple (["plugin"] ++ "ghost" :: []))) as Hdep.
  read_off sample_small by E
    at (λ (_ : heap) self,
          (λ r, (Repo_contains r "plugin", Repo_contains r "ghost"))
            <$> dict_values (repos self))
    is [(true, false)] as Hrepos.
  pose proof (resolve_deps_missing_dependency (λ _ _, sample_community)
                ["community"] DEFAULT_SERVER ["i686"] h self 2 [0] true
                ["plugin"] [] "ghost" 1 E Hdep) as Hraise.
  clear E. split; [done|]. unfold unmatched in Hraise.
  destruct (dict_values (repos self)) as [|r [|]] eqn:Hvals; try done.
  injection Hrepos as Hplugin Hghost.
  apply Hraise; [| | lia].
  - intros d ->%list_elem_of_singleton. exists r. split; [apply list_elem_of_here | done].
  - intros r' ->%list_elem_of_singleton. done.
Defined.

Lemma resolve_deps_optional_missing_witness :
  ∃ h self, sample_mirror = Ok (h, self)
    ∧ getattr (heap_get h 0) "optdepends" = Ok (PyTuple ["bash-completion"])
    ∧ resolve_name self "bash-completion" false = Ok []
    ∧ resolve_deps 10 self (drop_optional "bash-completion" <$> h) [0] true
      = resolve_deps 10 self h [0] true.
Proof.
  destruct sample_mirror as [[h self]|e] eqn:E; [|no_raise sample_mirror by E].
  exists h, self. split; [reflexivity|].
  read_off sample_mirror by E at (λ h (_ : Mirror), getattr (heap_get h 0) "optdepends")
    is (Ok (PyTuple ["bash-completion"])) as Hopt.
  read_off sample_mirror by E
    at (λ (_ : heap) self,
          (λ r, Repo_contains r "bash-completion") <$> dict_values (repos self))
    is [false; false] as Hrepos.
  clear E. split; [done|].
  apply resolve_deps_optional_missing. unfold unmatched.
  destruct (dict_values (repos self)) as [|r1 [|r2 [|]]] eqn:Hvals; try done.
  injection Hrepos as H1 H2.
  intros r [->|[->|?%elem_of_nil]%elem_of_cons]%elem_of_cons; done.
Defined.

(** ** Properties of the record parser *)

Lemma alpm_fold_lookup k file :
  ∀ entries cur,
    Forall (λ kv : option string * list string, kv.2 ≠ []) entries →
    dict_get (foldl alpm_line (entries, cur) file).1 k
    = nonempty (default [] (dict_get entries k) ++ values_for cur k file).
Proof.
  induction file as [|raw file IH]; intros entries cur Hne; cbn [foldl values_for].
  - rewrite app_nil_r. simpl. destruct (dict_get entries k) as [vs|] eqn:E; [|done].
    apply dict_get_Some_elem in E. rewrite Forall_forall in Hne.
    specialize (Hne _ E). simpl in *. by destruct vs.
  - unfold alpm_line at 2.
    destruct (Str.is_empty (Str.strip raw)); [by apply IH|].
    destruct (is_marker (Str.strip raw)); [by apply IH|].
    rewrite IH.
    + f_equal. destruct (decide (cur = k)) as [->|Hk].
      * rewrite dict_get_set_eq. simpl. by rewrite <- app_assoc.
      * by rewrite dict_get_set_ne.
    + apply dict_set_Forall; [done|]. simpl. by destruct (default [] _).
Qed.

Lemma dict_values_append_perm (d : list (option string * list string)) k x :
  concat (dict_values (dict_set d k (default [] (dict_get d k) ++ [x])))
  ≡ₚ x :: concat (dict_values d).
Proof.
  unfold dict_values. induction d as [|[k0 v0] d IH]; csimpl.
  - done.
  - destruct (decide (k0 = k)) as [->|Hne]; csimpl.
    + rewrite <- app_assoc. simpl. by rewrite <- Permutation_middle.
    + rewrite IH. by rewrite <- Permutation_middle.
Qed.

(** X9. What [alpm_parse] stores under a field name is the sequence of the
    stripped value lines that follow the markers of that name (lower-cased,
    or the null name before any marker), in the order of the file; a name
    followed by no value line is not a key of the mapping. *)
Theorem alpm_parse_lookup file k :
  dict_get (alpm_parse file) k = nonempty (values_for None k file).
Proof.
  unfold alpm_parse. rewrite alpm_fold_lookup by constructor. done.
Qed.

(** X10. Blank lines change nothing: a line that strips to the empty string
    may be inserted anywhere in the file, also between a marker and its
    values, and the mapping is the same. *)
Theorem alpm_parse_blank_line before blank after :
  is_blank blank = true →
  alpm_parse (before ++ blank :: after) = alpm_parse (before ++ after).
Proof.
  intros Hb. unfold alpm_parse. rewrite !foldl_app. cbn [foldl].
  by rewrite alpm_line_blank.
Qed.

Lemma alpm_parse_blank_line_witness :
  alpm_parse (["%DEPENDS%"] ++ "  " :: ["glibc"]) = alpm_parse (["%DEPENDS%"] ++ ["glibc"]).
Proof. apply alpm_parse_blank_line. reflexivity. Defined.

(** X11. No value line is lost or invented: the values of the mapping,
    taken together, are the stripped value lines of the file, each as many
    times as it occurs. *)
Theorem alpm_parse_keeps_values file :
  concat (dict_values (alpm_parse file))
  ≡ₚ Str.strip <$> filter (λ raw, is_value_line raw = true) file.
Proof.
  unfold alpm_parse.
  assert (∀ st,
            concat (dict_values (foldl alpm_line st file).1)
            ≡ₚ concat (dict_values st.1)
               ++ (Str.strip <$> filter (λ raw, is_value_line raw = true) file))
    as Hgen; [|by rewrite Hgen].
  induction file as [|raw file IH]; intros [entries cur]; cbn [foldl].
  - by rewrite app_nil_r.
  - rewrite IH, filter_cons. unfold alpm_line, is_value_line, is_blank.
    destruct (Str.is_empty (Str.strip raw)); [done|].
    destruct (is_marker (Str.strip raw)); [done|]. simpl.
    rewrite dict_values_append_perm. by rewrite <- Permutation_middle.
Qed.

(** ** Properties of package construction *)

Lemma Package_blank_slot name s :
  s ∈ slots → getattr (Package_blank name) s = Ok (initial_value name s).
Proof.
  intros Hs. unfold slots in Hs.
  repeat (apply elem_of_cons in Hs as [->|Hs]); try (vm_compute; reflexivity).
  by apply elem_of_nil in Hs.
Qed.

Lemma parse_field_slots (body : Package → option string * list string → result Package)
    entries self self' :
  (∀ p kv p', body p kv = Ok p' → ∃ k v, p' = <[k := v]> p) →
  (∀ s, s ∈ slots → is_Some (self !! s)) →
  for_each body entries self = Ok self' →
  ∀ s, s ∈ slots → is_Some (self' !! s).
Proof.
  intros Hbody Hself Hrun.
  apply (λ Hstep,
           for_each_invariant body (λ p, ∀ s, s ∈ slots → is_Some (p !! s))
             entries Hstep self self' Hself Hrun).
  intros p kv p' _ Hp (k & v & ->)%Hbody s Hs.
  destruct (decide (k = s)) as [->|Hne].
  - rewrite lookup_insert_eq. eauto.
  - rewrite lookup_insert_ne by done. auto.
Qed.

(** X12. [Package(name)] without buffers sets every slot of [__slots__]:
    [name] to the given name, the seven dependency and group slots to the
    empty tuple, the others to [None]. With buffers, whenever the
    construction completes every slot is still set, so that reading a slot of
    a constructed package never raises. *)
Theorem Package_init_fresh name :
  Package_init name None None = Ok (Package_blank name)
  ∧ (∀ s, s ∈ slots → getattr (Package_blank name) s = Ok (initial_value name s))
  ∧ (∀ descbuf depsbuf self,
       Package_init name descbuf depsbuf = Ok self →
       ∀ s, s ∈ slots → ∃ v, getattr self s = Ok v).
Proof.
  split_and!; [done | apply Package_blank_slot |].
  intros descbuf depsbuf self Hrun.
  assert (∀ s, s ∈ slots → is_Some (self !! s)) as Hset.
  { assert (∀ s, s ∈ slots → is_Some (Package_blank name !! s)) as Hblank.
    { intros s Hs. pose proof (Package_blank_slot name s Hs) as Hget.
      unfold getattr in Hget. destruct (Package_blank name !! s); [eauto | done]. }
    assert (∀ p buf p', (∀ s, s ∈ slots → is_Some (p !! s)) →
              parse_desc p buf = Ok p' → ∀ s, s ∈ slots → is_Some (p' !! s))
      as Hdesc.
    { intros p buf p' Hp. unfold parse_desc. apply parse_field_slots; [|done].
      intros q [k v] q'. unfold parse_desc_field.
      destruct (decide (k = Some "groups")).
      - intros (s & _ & _ & ->)%setattr_Ok. eauto.
      - destruct (item0 v); simpl; [|done].
        intros (s & _ & _ & ->)%setattr_Ok. eauto. }
    assert (∀ p buf p', (∀ s, s ∈ slots → is_Some (p !! s)) →
              parse_deps p buf = Ok p' → ∀ s, s ∈ slots → is_Some (p' !! s))
      as Hdeps.
    { intros p buf p' Hp. unfold parse_deps. apply parse_field_slots; [|done].
      intros q [k v] q'. unfold parse_deps_field.
      destruct (tuple_of bare_name v); simpl; [|done].
      intros (s & _ & _ & ->)%setattr_Ok. eauto. }
    revert Hrun. unfold Package_init.
    destruct descbuf as [dbuf|]; simpl.
    - destruct (parse_desc (Package_blank name) dbuf) as [p1|] eqn:E1; simpl; [|done].
      pose proof (Hdesc _ _ _ Hblank E1) as Hp1.
      destruct depsbuf as [pbuf|]; [by apply Hdeps | by intros [= <-]].
    - destruct depsbuf as [pbuf|]; [by apply Hdeps | by intros [= <-]]. }
  intros s [v Hv]%Hset. exists v. unfold getattr. by rewrite Hv.
Qed.

(** ** Construction leaves every package ready for the traversal *)

Lemma iterable_insert pkg k v s :
  iterable pkg s → v ≠ PyNone → iterable (<[k := v]> pkg) s.
Proof.
  intros (w & Hw & Hne) Hv. unfold iterable.
  destruct (decide (k = s)) as [->|Hks].
  - exists v. by rewrite lookup_insert_eq.
  - exists w. by rewrite lookup_insert_ne.
Qed.

Lemma pkg_ready_insert pkg k v :
  pkg_ready pkg → v ≠ PyNone → pkg_ready (<[k := v]> pkg).
Proof.
  intros (H1 & H2 & H3 & H4) Hv. unfold pkg_ready.
  split_and!; by apply iterable_insert.
Qed.

Lemma Package_blank_ready name : pkg_ready (Package_blank name).
Proof.
  unfold pkg_ready, iterable.
  split_and!; exists (PyTuple []); (split; [vm_compute; reflexivity | done]).
Qed.

Lemma store_fields_ready val entries :
  (∀ k v x, val k v = Ok x → x ≠ PyNone) →
  ∀ self self', pkg_ready self →
    for_each (store_field val) entries self = Ok self' → pkg_ready self'.
Proof.
  intros Hval self self' Hself Hrun.
  apply (for_each_invariant _ pkg_ready _) in Hrun; [done | | done].
  intros s kv s' _ Hs. unfold store_field.
  destruct (val kv.1 kv.2) as [x|] eqn:E; simpl; [|done].
  intros (k & _ & _ & ->)%setattr_Ok. apply pkg_ready_insert; eauto.
Qed.

Lemma parse_desc_ready self descbuf self' :
  pkg_ready self → parse_desc self descbuf = Ok self' → pkg_ready self'.
Proof.
  unfold parse_desc. intros Hself.
  rewrite (for_each_ext parse_desc_field (store_field desc_value))
    by apply parse_desc_field_store.
  apply store_fields_ready; [|done].
  intros k v x. unfold desc_value. destruct (decide _); [by intros [= <-]|].
  destruct (item0 v); simpl; [by intros [= <-] | done].
Qed.

Lemma parse_deps_ready self depsbuf self' :
  pkg_ready self → parse_deps self depsbuf = Ok self' → pkg_ready self'.
Proof.
  unfold parse_deps. intros Hself.
  rewrite (for_each_ext parse_deps_field (store_field deps_value))
    by apply parse_deps_field_store.
  apply store_fields_ready; [|done].
  intros k v x. unfold deps_value.
  destruct (tuple_of bare_name v); simpl; [by intros [= <-] | done].
Qed.

Lemma Forall_insert_lookup {A : Type} (P : A → Prop) (l : list A) i x :
  Forall P l → (∀ y, l !! i = Some y → P y → P x) → Forall P (<[i := x]> l).
Proof.
  intros Hl Hx. destruct (l !! i) as [y|] eqn:E.
  - apply Forall_insert; [done|]. apply (Hx y); [done|].
    rewrite Forall_forall in Hl. apply Hl. by eapply list_elem_of_lookup_2.
  - rewrite list_insert_ge; [done|]. by apply lookup_ge_None.
Qed.

Lemma heap_get_lookup (h : heap) l p : h !! l = Some p → heap_get h l = p.
Proof. unfold heap_get. by intros ->. Qed.

Lemma heap_get_ready (h : heap) l :
  Forall pkg_ready h → l < length h → pkg_ready (heap_get h l).
Proof.
  intros Hh Hl. apply lookup_lt_is_Some in Hl as [p Hp].
  rewrite (heap_get_lookup _ _ _ Hp). rewrite Forall_forall in Hh.
  apply Hh. by eapply list_elem_of_lookup_2.
Qed.

Lemma db_member_ready st finfo st' :
  Forall pkg_ready st.1 → db_member st finfo = Ok st' → Forall pkg_ready st'.1.
Proof.
  destruct st as [h r]. simpl. intros Hh. unfold db_member.
  destruct (ti_isdir finfo).
  - simpl. intros [= <-]. simpl. apply Forall_app. split; [done|].
    apply Forall_cons. split; [apply Package_blank_ready | constructor].
  - destruct (subscript (packages r) _) as [l|]; simpl; [|done].
    destruct (decide (basename _ = "desc")).
    + destruct (parse_desc _ _) as [pkg|] eqn:E; simpl; [|done].
      destruct (getattr pkg "filename") as [fn|]; simpl; [|done].
      destruct (path_join_attr (server r) fn) as [url|]; simpl; [|done].
      destruct (path_join_attr (local_path r) fn) as [loc|]; simpl; [|done].
      intros [= <-]. simpl. apply Forall_insert_lookup; [done|].
      intros y Hy Hready. rewrite (heap_get_lookup _ _ _ Hy) in E.
      do 2 (apply pkg_ready_insert; [|done]). by eapply parse_desc_ready.
    + destruct (decide (basename _ = "depends")).
      * destruct (parse_deps _ _) as [pkg|] eqn:E; simpl; [|done].
        intros [= <-]. simpl. apply Forall_insert_lookup; [done|].
        intros y Hy Hready. rewrite (heap_get_lookup _ _ _ Hy) in E.
        by eapply parse_deps_ready.
      * by intros [= <-].
Qed.

Lemma initialize_db_ready h self dbfile h' self' :
  Forall pkg_ready h → initialize_db h self dbfile = Ok (h', self') →
  Forall pkg_ready h'.
Proof.
  intros Hh. unfold initialize_db.
  destruct (for_each db_member dbfile (h, self)) as [[h1 r1]|] eqn:E1; simpl; [|done].
  apply (for_each_invariant db_member (λ st, Forall pkg_ready st.1) dbfile)
    in E1; [|intros st x st' _; apply db_member_ready | done].
  destruct (for_each (index_package h1) _ _) as [[g p]|]; simpl; [|done].
  by intros [= <- <-].
Qed.

(** What the loop of [Mirror.__init__] keeps, beside [mirror_inv]. *)
Lemma Mirror_init_ready db repo_names server archs h self :
  Mirror_init db repo_names server archs = Ok (h, self) →
  mirror_ok self ∧ Forall (λ l, l < length h) (mirror_locs self)
  ∧ Forall pkg_ready h.
Proof.
  unfold Mirror_init. intros Hrun.
  apply (for_each_invariant _ (λ st, mirror_inv st ∧ Forall pkg_ready st.1))
    in Hrun as [[Hok Hlt] Hready]; [done | | ].
  - intros st na st' _ [Hst Hready] Hstep.
    split; [by eapply Mirror_init_step_inv|].
    destruct st as [h0 self0], na as [name arch].
    destruct (Repo_init h0 name arch server "" (db name arch)) as [[h1 r]|] eqn:E;
      simpl in Hstep; [|done].
    injection Hstep as <-. simpl. by eapply initialize_db_ready.
  - split; [split; [split|]|]; constructor.
Qed.

(** ** How the traversal can fail *)

Lemma resolve_name_outcome self n important :
  Forall repo_ok (dict_values (repos self)) →
  (∃ s, resolve_name self n important = Ok s)
  ∨ (important = true ∧ unmatched self n
     ∧ resolve_name self n important = Raise (not_found n)).
Proof.
  intros Hok. destruct (resolve_name_spec self n important Hok) as (s & _ & Hmem & ->).
  destruct important; simpl; [|eauto].
  case_bool_decide as Hs; [|eauto].
  right. split_and!; [done | | done].
  intros r Hr. destruct (Repo_contains r n) eqn:Hin; [|done]. exfalso.
  rewrite Forall_forall in Hok.
  destruct (match_set_present r n (Hok r Hr) Hin) as [l Hl].
  assert (l ∈ s) as Hls by (apply Hmem; eauto).
  rewrite Hs in Hls. by apply elem_of_nil in Hls.
Qed.

Lemma enqueue_outcome self important names :
  Forall repo_ok (dict_values (repos self)) →
  ∀ queue,
    (∃ queue', for_each (enqueue self important) names queue = Ok queue')
    ∨ (important = true
       ∧ ∃ n, n ∈ names ∧ unmatched self n
           ∧ for_each (enqueue self important) names queue = Raise (not_found n)).
Proof.
  intros Hok. induction names as [|d names IH]; intros queue; cbn [for_each].
  - left. eauto.
  - assert (enqueue self important queue d
            = (ds ← resolve_name self d important; Ok (queue ++ ds))) as -> by done.
    destruct (resolve_name_outcome self d important Hok) as [[s ->]|(Hi & Hd & ->)].
    + simpl. destruct (IH (queue ++ s)) as [?|(Hi & n & Hn & Hun & ->)]; [by left|].
      right. split; [done|]. exists n. split; [by apply list_elem_of_further | done].
    + right. split; [done|]. exists d. split; [apply list_elem_of_here | done].
Qed.

Lemma iterable_getattr pkg s :
  iterable pkg s → ∃ v names, getattr pkg s = Ok v ∧ py_iter v = Ok names.
Proof.
  intros (v & Hv & Hne). unfold getattr. rewrite Hv.
  destruct v as [|s'|l]; [done | |]; eauto.
Qed.

Lemma expand_outcome self h optdepends p queue :
  Forall repo_ok (dict_values (repos self)) → pkg_ready (heap_get h p) →
  (∃ queue', expand self h optdepends p queue = Ok queue')
  ∨ (∃ v names n,
       getattr (heap_get h p) "depends" = Ok v ∧ py_iter v = Ok names
       ∧ n ∈ names ∧ unmatched self n
       ∧ expand self h optdepends p queue = Raise (not_found n)).
Proof.
  intros Hok (_ & _ & Hdep & Hopt).
  apply iterable_getattr in Hdep as (v & names & Hv & Hnames).
  apply iterable_getattr in Hopt as (v' & names' & Hv' & Hnames').
  unfold expand. rewrite Hv. cbn [mbind result_bind]. rewrite Hnames.
  cbn [mbind result_bind].
  destruct (enqueue_outcome self true names Hok queue)
    as [[q1 ->]|(_ & n & Hn & Hun & ->)].
  - cbn [mbind result_bind]. destruct optdepends; [|eauto].
    rewrite Hv'. cbn [mbind result_bind]. rewrite Hnames'. cbn [mbind result_bind].
    destruct (enqueue_outcome self false names' Hok q1) as [?|(? & _)]; [by left | done].
  - right. exists v, names, n. done.
Qed.

Lemma resolve_deps_loop_failure self h optdepends seeds :
  Forall repo_ok (dict_values (repos self)) →
  Forall pkg_ready h →
  Forall (λ l, l < length h) (mirror_locs self) →
  ∀ fuel queue known e,
    (∀ x, x ∈ queue → x < length h ∧ reachable self h optdepends seeds x) →
    resolve_deps_loop fuel self h optdepends queue known = Some (Raise e) →
    ∃ p v names n,
      reachable self h optdepends seeds p
      ∧ getattr (heap_get h p) "depends" = Ok v ∧ py_iter v = Ok names
      ∧ n ∈ names ∧ unmatched self n ∧ e = not_found n.
Proof.
  intros Hok Hready Hlocs. rewrite Forall_forall in Hlocs.
  induction fuel as [|fuel IH]; intros queue known e Hq; simpl; [done|].
  destruct queue as [|p queue]; [done|].
  case_bool_decide as Hp.
  - apply IH. intros x Hx. apply Hq. by apply list_elem_of_further.
  - destruct (Hq p) as [Hlt Hreach]; [apply list_elem_of_here|].
    destruct (expand_outcome self h optdepends p queue Hok)
      as [[queue' E]|(v & names & n & Hv & Hnames & Hn & Hun & E)];
      [by apply heap_get_ready | |]; rewrite E.
    + apply IH. rewrite expand_app in E.
      destruct (expand self h optdepends p []) as [lp|] eqn:Ep; [|done].
      simpl in E. injection E as <-.
      intros x [Hx|Hx]%elem_of_app.
      * apply Hq. by apply list_elem_of_further.
      * split; [|by eapply reach_step].
        destruct (proj2 (expand_locs _ _ _ _ _ _ Ep) x Hx) as [?%elem_of_nil|?];
          [done | auto].
    + intros [= <-]. exists p, v, names, n. done.
Qed.

(** X13. On a mirror that [Mirror.__init__] has built, with seeds that are
    objects of its heap, [resolve_deps] can fail in one way only: some
    package reachable from the seeds lists in [depends] a name that no
    catalog holds, and the exception is the ValueError naming it. No
    attribute of a package is missing or [None] when the traversal reads
    it. *)
Theorem resolve_deps_failure db repo_names server archs h self
    fuel packages optdepends e :
  Mirror_init db repo_names server archs = Ok (h, self) →
  Forall (λ l, l < length h) packages →
  resolve_deps fuel self h packages optdepends = Some (Raise e) →
  ∃ p v names n,
    reachable self h optdepends packages p
    ∧ getattr (heap_get h p) "depends" = Ok v ∧ py_iter v = Ok names
    ∧ n ∈ names ∧ unmatched self n
    ∧ e = ValueError (n +:+ " not found in any repo").
Proof.
  intros ([Hok _] & Hlocs & Hready)%Mirror_init_ready Hseeds.
  unfold resolve_deps.
  apply (resolve_deps_loop_failure self h optdepends packages Hok Hready Hlocs).
  rewrite Forall_forall in Hseeds.
  intros x Hx. split; [auto | by apply reach_seed].
Qed.

Lemma resolve_deps_failure_witness :
  ∃ h self, sample_mirror = Ok (h, self)
    ∧ resolve_deps 10 self h [7] true
      = Some (Raise (ValueError "missing-lib not found in any repo"))
    ∧ ∃ p v names n,
        reachable self h true [7] p
        ∧ getattr (heap_get h p) "depends" = Ok v ∧ py_iter v = Ok names
        ∧ n ∈ names ∧ unmatched self n
        ∧ ValueError "missing-lib not found in any repo"
          = ValueError (n +:+ " not found in any repo").
Proof.
  destruct sample_mirror as [[h self]|e] eqn:E; [|no_raise sample_mirror by E].
  exists h, self. split; [reflexivity|].
  read_off sample_mirror by E at (λ h self, resolve_deps 10 self h [7] true)
    is (Some (Raise (A:=list loc) (ValueError "missing-lib not found in any repo")))
    as Hrun.
  read_off sample_mirror by E at (λ (h : heap) (self : Mirror), length h) is 8 as Hlen.
  split; [exact Hrun|].
  apply (resolve_deps_failure _ _ _ _ h self 10 [7] true _ E); [|exact Hrun].
  clear E. rewrite Hlen. repeat constructor.
Defined.

Lemma resolve_name_strict_nonempty self pkgname s :
  resolve_name self pkgname true = Ok s → s ≠ [].
Proof.
  unfold resolve_name.
  destruct (for_each _ _ _) as [[pkgs found]|]; simpl; [|done].
  case_bool_decide; simpl; [done|]. by intros [= <-].
Qed.

(** X14. What [Mirror.download] settles before it fetches anything, on a
    mirror that [Mirror.__init__] has built: name resolution followed by the
    dependency closure always ends; it either raises the ValueError that
    names a name held by no catalog (the requested name, or a hard
    dependency), or
    selects a non-empty set of catalog objects, without repetition, that
    holds every package the requested name resolves to. *)
Theorem Mirror_download_packages_outcome db repo_names server archs h self
    package_or_group optdepends :
  Mirror_init db repo_names server archs = Ok (h, self) →
  ∃ N r,
    (∀ fuel, N ≤ fuel →
       Mirror_download_packages fuel self h package_or_group optdepends = Some r)
    ∧ match r with
      | Ok s =>
          s ≠ [] ∧ NoDup s
          ∧ (∀ x, x ∈ s → x ∈ mirror_locs self)
          ∧ ∃ seeds, resolve_name self package_or_group true = Ok seeds
              ∧ ∀ x, x ∈ seeds → x ∈ s
      | Raise e =>
          ∃ n, unmatched self n ∧ e = ValueError (n +:+ " not found in any repo")
      end.
Proof.
  intros ([Hok _] & Hlocs & Hready)%Mirror_init_ready.
  unfold Mirror_download_packages.
  destruct (resolve_name_outcome self package_or_group true Hok)
    as [[seeds Hs]|(_ & Hun & Hr)].
  - rewrite Hs.
    destruct (resolve_deps_loop_ends self h optdepends
                (length (pending self seeds [])) seeds [] (le_n _))
      as (N & r & Hrun).
    exists N, r. split; [exact Hrun|].
    specialize (Hrun N (le_n _)).
    pose proof (resolve_name_locs _ _ _ _ Hs) as Hseeds.
    destruct r as [s|e].
    + destruct (resolve_deps_loop_superset _ _ _ _ _ _ _ Hrun) as (Hnd & _ & Hsup).
      split_and!.
      * pose proof (resolve_name_strict_nonempty _ _ _ Hs) as Hne.
        destruct seeds as [|x seeds]; [done|].
        intros ->. eapply elem_of_nil, Hsup, list_elem_of_here.
      * apply Hnd, NoDup_nil_2.
      * intros x Hx.
        destruct (resolve_deps_loop_subset _ _ _ _ _ _ _ Hrun x Hx)
          as [?%elem_of_nil|[?|?]]; [done | auto | done].
      * exists seeds. done.
    + destruct (resolve_deps_loop_failure self h optdepends seeds Hok Hready Hlocs
                  N seeds [] e) as (p & v & names & n & _ & _ & _ & _ & Hn & ->);
        [|done|by exists n].
      rewrite Forall_forall in Hlocs.
      intros x Hx. split; [auto | by apply reach_seed].
  - rewrite Hr. exists 0, (Raise (not_found package_or_group)).
    split; [done|]. by exists package_or_group.
Qed.

Lemma Mirror_download_packages_outcome_witness :
  ∃ h self, sample_mirror = Ok (h, self)
    ∧ Mirror_download_packages 10 self h "base" false = Some (Ok [0; 2; 3])
    ∧ ∃ N r,
        (∀ fuel, N ≤ fuel → Mirror_download_packages fuel self h "base" false = Some r)
        ∧ match r with
          | Ok s =>
              s ≠ [] ∧ NoDup s
              ∧ (∀ x, x ∈ s → x ∈ mirror_locs self)
              ∧ ∃ seeds, resolve_name self "base" true = Ok seeds
                  ∧ ∀ x, x ∈ seeds → x ∈ s
          | Raise e =>
              ∃ n, unmatched self n
                ∧ e = ValueError (n +:+ " not found in any repo")
          end.
Proof.
  destruct sample_mirror as [[h self]|e] eqn:E; [|no_raise sample_mirror by E].
  exists h, self. split; [reflexivity|].
  read_off sample_mirror by E
    at (λ h self, Mirror_download_packages 10 self h "base" false)
    is (Some (Ok [0; 2; 3])) as Hrun.
  split; [exact Hrun|].
  exact (Mirror_download_packages_outcome _ _ _ _ h self "base" false E).
Defined.

(** ** Member names *)

Lemma split_cons sep s : ∃ w ws, Str.split sep s = w :: ws.
Proof.
  destruct s as [|c s]; simpl; [eauto|].
  destruct (Ascii.eqb c sep); [eauto|]. destruct (Str.split sep s); eauto.
Qed.

Lemma split_free sep s :
  all_chars (λ c, negb (Ascii.eqb c sep)) s = true → Str.split sep s = [s].
Proof.
  induction s as [|c s IH]; simpl; [done|].
  intros [Hc Hs]%andb_true_iff. apply negb_true_iff in Hc. rewrite Hc.
  by rewrite (IH Hs).
Qed.

Lemma split_app sep a b :
  Str.split sep (a +:+ String sep b) = Str.split sep a ++ Str.split sep b.
Proof.
  induction a as [|c a IH]; simpl.
  - by rewrite Ascii.eqb_refl.
  - destruct (Ascii.eqb c sep); [by rewrite IH|].
    rewrite IH. by destruct (split_cons sep a) as (w & ws & ->).
Qed.

Lemma join_split sep s : Str.join (String sep "") (Str.split sep s) = s.
Proof.
  induction s as [|c s IH]; simpl; [done|].
  destruct (split_cons sep s) as (w & ws & E). rewrite E in *.
  destruct (Ascii.eqb c sep) eqn:Hc.
  - apply Ascii.eqb_eq in Hc as ->.
    change (Str.join (String sep "") ("" :: w :: ws))
      with (String sep (Str.join (String sep "") (w :: ws))).
    by rewrite IH.
  - rewrite <- IH. by destruct ws.
Qed.

(** X15. The package name that [initialize_db] reads off a member name:
    for a member [name-version-release], where neither the version nor the
    release part holds a hyphen, it is [name], hyphens included; so a
    directory and the files in it ([.../desc], [.../depends]) yield the same
    name. A member name with fewer than two hyphens yields the empty
    name. *)
Theorem package_name_of_member n version rel :
  all_chars (λ c, negb (Ascii.eqb c "-")) version = true →
  all_chars (λ c, negb (Ascii.eqb c "-")) rel = true →
  package_name_of (n +:+ "-" +:+ version +:+ "-" +:+ rel) = n
  ∧ package_name_of (n +:+ "-" +:+ version +:+ "-" +:+ rel +:+ "/desc") = n
  ∧ package_name_of (version +:+ "-" +:+ rel) = ""
  ∧ package_name_of rel = "".
Proof.
  intros Hv Hr.
  assert (∀ r, all_chars (λ c, negb (Ascii.eqb c "-")) r = true →
            package_name_of (n +:+ "-" +:+ version +:+ "-" +:+ r) = n) as Hname.
  { intros r Hr'. unfold package_name_of.
    change (n +:+ "-" +:+ version +:+ "-" +:+ r)
      with (n +:+ String "-" (version +:+ String "-" r)).
    rewrite !split_app, (split_free _ _ Hv), (split_free _ _ Hr').
    rewrite !length_app. simpl.
    replace (length (Str.split "-" n) + 2 - 2) with (length (Str.split "-" n) + 0)
      by lia.
    rewrite take_app_add. simpl. rewrite app_nil_r. apply join_split. }
  split_and!.
  - by apply Hname.
  - apply Hname.
    clear -Hr. induction rel as [|c rel IH]; simpl in *; [done|].
    apply andb_true_iff in Hr as [-> Hr]. simpl. auto.
  - unfold package_name_of.
    change (version +:+ "-" +:+ rel) with (version +:+ String "-" rel).
    by rewrite split_app, (split_free _ _ Hv), (split_free _ _ Hr).
  - unfold package_name_of. by rewrite (split_free _ _ Hr).
Qed.

Lemma package_name_of_member_witness :
  package_name_of "xorg-server-1.20.5-2" = "xorg-server"
  ∧ package_name_of "xorg-server-1.20.5-2/desc" = "xorg-server"
  ∧ package_name_of "1.20.5-2" = ""
  ∧ package_name_of "2" = "".
Proof. apply (package_name_of_member "xorg-server" "1.20.5" "2"); reflexivity. Defined.

(** ** The catalogs of a mirror *)

Lemma elem_of_product {A B : Type} (xs : list A) (ys : list B) x y :
  (x, y) ∈ product xs ys ↔ x ∈ xs ∧ y ∈ ys.
Proof.
  unfold product. rewrite list_elem_of_bind. split.
  - intros (x' & (y' & [= -> ->]%list_elem_of_singleton & Hy)%list_elem_of_bind & Hx).
    done.
  - intros [Hx Hy]. exists x. split; [|done].
    apply list_elem_of_bind. exists y. split; [apply list_elem_of_here | done].
Qed.

Lemma db_member_fields st finfo st' :
  db_member st finfo = Ok st' →
  name st'.2 = name st.2 ∧ arch st'.2 = arch st.2
  ∧ local_path st'.2 = local_path st.2 ∧ server st'.2 = server st.2.
Proof.
  destruct st as [h r]. unfold db_member. destruct (ti_isdir finfo).
  - simpl. by intros [= <-].
  - destruct (subscript (packages r) _) as [l|]; simpl; [|done].
    destruct (decide (basename _ = "desc")).
    + destruct (parse_desc _ _) as [pkg|]; simpl; [|done].
      destruct (getattr pkg "filename") as [fn|]; simpl; [|done].
      destruct (path_join_attr (server r) fn) as [url|]; simpl; [|done].
      destruct (path_join_attr (local_path r) fn) as [loc|]; simpl; [|done].
      by intros [= <-].
    + destruct (decide (basename _ = "depends")).
      * destruct (parse_deps _ _) as [pkg|]; simpl; [|done]. by intros [= <-].
      * by intros [= <-].
Qed.

Lemma Repo_init_fields h n a srv root dbfile h' r :
  Repo_init h n a srv root dbfile = Ok (h', r) →
  name r = n ∧ arch r = a
  ∧ local_path r = path_join root [n; "os"; a]
  ∧ server r = Str.replace "$arch" a (Str.replace "$repo" n srv).
Proof.
  unfold Repo_init, initialize_db.
  destruct (for_each db_member dbfile _) as [[h1 r1]|] eqn:E1; simpl; [|done].
  apply (for_each_invariant db_member
           (λ st, name st.2 = n ∧ arch st.2 = a
                  ∧ local_path st.2 = path_join root [n; "os"; a]
                  ∧ server st.2 = Str.replace "$arch" a (Str.replace "$repo" n srv)))
    in E1; [| |done].
  - destruct (for_each (index_package h1) _ _) as [[g p]|]; simpl; [|done].
    by intros [= <- <-].
  - intros st x st' _ (H1 & H2 & H3 & H4) (E1' & E2 & E3 & E4)%db_member_fields.
    by rewrite E1', E2, E3, E4.
Qed.

Lemma Mirror_init_loop db srv pairs :
  ∀ st st',
    for_each
      (λ (st : heap * Mirror) (na : string * string),
         let '(h, self) := st in
         let '(name, arch) := na in
         '(h, repo) ← Repo_init h name arch srv "" (db name arch);
         Ok (h, mkMirror (dict_set (repos self) (name, arch) repo)))
      pairs st = Ok st' →
    (NoDup (dict_keys (repos st.2)) → NoDup (dict_keys (repos st'.2)))
    ∧ (∀ k, k ∈ dict_keys (repos st'.2) ↔ k ∈ dict_keys (repos st.2) ∨ k ∈ pairs)
    ∧ (∀ n a r, dict_get (repos st'.2) (n, a) = Some r →
         dict_get (repos st.2) (n, a) = Some r
         ∨ ((n, a) ∈ pairs
            ∧ ∃ h0 h1, Repo_init h0 n a srv "" (db n a) = Ok (h1, r))).
Proof.
  induction pairs as [|[n0 a0] pairs IH]; intros [h self] st'; cbn [for_each].
  - intros [= <-]. split_and!; [done | | by left].
    intros k. split; [by left | intros [?|?%elem_of_nil]; done].
  - destruct (Repo_init h n0 a0 srv "" (db n0 a0)) as [[h1 r0]|] eqn:E; simpl; [|done].
    intros (Hnd & Hkeys & Hget)%IH. simpl in *. split_and!.
    + intros Hself. by apply Hnd, dict_keys_set_NoDup.
    + intros k. rewrite Hkeys, dict_keys_set, elem_of_cons.
      case_bool_decide as Hin; [|rewrite elem_of_app, list_elem_of_singleton].
      * split; [intros [?|?]; auto | intros [?|[->|?]]; auto].
      * split; [intros [[?|?]|?]; auto | intros [?|[?|?]]; auto].
    + intros n a r [Hr|[Hin Hr]]%Hget.
      * destruct (decide ((n0, a0) = (n, a))) as [[= -> ->]|Hne].
        -- rewrite dict_get_set_eq in Hr. injection Hr as <-.
           right. split; [apply list_elem_of_here | eauto].
        -- rewrite dict_get_set_ne in Hr by done. by left.
      * right. split; [by apply list_elem_of_further | done].
Qed.

(** X16. A mirror that [Mirror.__init__] has built holds one catalog for
    each pair of a repository name and an architecture, and no other; the
    catalog under a pair is the one that [Repo(name, arch, server)] built
    from the archive of that pair, so it carries that name and architecture,
    the local path [name/os/arch], and the server address with [$repo] and
    [$arch] replaced. *)
Theorem Mirror_init_repos db repo_names server0 archs h self :
  Mirror_init db repo_names server0 archs = Ok (h, self) →
  NoDup (dict_keys (repos self))
  ∧ (∀ n a, (n, a) ∈ dict_keys (repos self) ↔ n ∈ repo_names ∧ a ∈ archs)
  ∧ (∀ n a r, dict_get (repos self) (n, a) = Some r →
       (∃ h0 h1, Repo_init h0 n a server0 "" (db n a) = Ok (h1, r))
       ∧ name r = n ∧ arch r = a
       ∧ local_path r = path_join "" [n; "os"; a]
       ∧ server r = Str.replace "$arch" a (Str.replace "$repo" n server0)).
Proof.
  unfold Mirror_init. intros (Hnd & Hkeys & Hget)%Mirror_init_loop. simpl in *.
  split_and!.
  - apply Hnd, NoDup_nil_2.
  - intros n a. rewrite Hkeys, elem_of_product.
    split; [intros [?%elem_of_nil|?]; done | by right].
  - intros n a r [?|[_ (h0 & h1 & Hr)]]%Hget; [done|].
    split; [eauto | by eapply Repo_init_fields].
Qed.

Lemma Mirror_init_repos_witness :
  ∃ h self, sample_mirror = Ok (h, self)
    ∧ dict_keys (repos self) = [("core", "x86_64"); ("extra", "x86_64")]
    ∧ ∃ r, dict_get (repos self) ("extra", "x86_64") = Some r
        ∧ name r = "extra" ∧ arch r = "x86_64"
        ∧ local_path r = "extra/os/x86_64"
        ∧ server r = "http://arch.tamcore.eu/extra/os/x86_64".
Proof.
  destruct sample_mirror as [[h self]|e] eqn:E; [|no_raise sample_mirror by E].
  exists h, self. split; [reflexivity|].
  read_off sample_mirror by E at (λ (h : heap) self, dict_keys (repos self))
    is [("core", "x86_64"); ("extra", "x86_64")] as Hkeys.
  split; [exact Hkeys|].
  destruct (Mirror_init_repos _ _ _ _ h self E) as (_ & Hin & Hget). clear E.
  destruct (dict_key_get (repos self) ("extra", "x86_64")) as [r Hr].
  { apply Hin. split; [apply list_elem_of_further, list_elem_of_here
                      | apply list_elem_of_here]. }
  exists r. split; [done|].
  destruct (Hget _ _ _ Hr) as (_ & -> & -> & -> & ->). done.
Defined.

(** ** The archive and the package map *)

Lemma db_member_packages h r finfo h' r' :
  db_member (h, r) finfo = Ok (h', r') →
  if ti_isdir finfo
  then packages r' = dict_set (packages r) (package_name_of (ti_name finfo)) (length h)
  else packages r' = packages r
       ∧ package_name_of (ti_name finfo) ∈ dict_keys (packages r).
Proof.
  unfold db_member. destruct (ti_isdir finfo).
  - simpl. by intros [= <- <-].
  - destruct (subscript (packages r) _) as [l|] eqn:El; simpl; [|done].
    assert (package_name_of (ti_name finfo) ∈ dict_keys (packages r)) as Hin.
    { unfold subscript in El.
      destruct (dict_get (packages r) _) eqn:E; [|done]. by eapply dict_get_Some_key. }
    destruct (decide (basename _ = "desc")).
    + destruct (parse_desc _ _) as [pkg|]; simpl; [|done].
      destruct (getattr pkg "filename") as [fn|]; simpl; [|done].
      destruct (path_join_attr (server r) fn) as [url|]; simpl; [|done].
      destruct (path_join_attr (local_path r) fn) as [loc|]; simpl; [|done].
      by intros [= <- <-].
    + destruct (decide (basename _ = "depends")).
      * destruct (parse_deps _ _) as [pkg|]; simpl; [|done]. by intros [= <- <-].
      * by intros [= <- <-].
Qed.

Lemma db_members_packages dbfile :
  ∀ h r h' r',
    for_each db_member dbfile (h, r) = Ok (h', r') →
    (NoDup (dict_keys (packages r)) → NoDup (dict_keys (packages r')))
    ∧ (∀ n, n ∈ dict_keys (packages r') ↔
            n ∈ dict_keys (packages r)
            ∨ ∃ d, d ∈ dbfile ∧ ti_isdir d = true ∧ package_name_of (ti_name d) = n)
    ∧ (∀ before f after, dbfile = before ++ f :: after → ti_isdir f = false →
         package_name_of (ti_name f) ∈ dict_keys (packages r)
         ∨ ∃ d, d ∈ before ∧ ti_isdir d = true
              ∧ package_name_of (ti_name d) = package_name_of (ti_name f)).
Proof.
  induction dbfile as [|x dbfile IH]; intros h r h' r'; cbn [for_each].
  - intros [= <- <-]. split_and!; [done | |].
    + intros n. split; [by left | intros [?|(d & ?%elem_of_nil & _)]; done].
    + intros [|??] ???; done.
  - destruct (db_member (h, r) x) as [[h1 r1]|] eqn:Ex; simpl; [|done].
    apply db_member_packages in Ex.
    intros (Hnd & Hkeys & Hord)%IH.
    assert (∀ n, n ∈ dict_keys (packages r1) ↔
                 n ∈ dict_keys (packages r)
                 ∨ (ti_isdir x = true ∧ package_name_of (ti_name x) = n)) as H1.
    { intros n. destruct (ti_isdir x).
      - rewrite Ex, dict_keys_set.
        case_bool_decide as Hin; [|rewrite elem_of_app, list_elem_of_singleton].
        + split; [by left | intros [?|[_ <-]]; done].
        + split; [intros [?| ->]; auto | intros [?|[_ <-]]; auto].
      - destruct Ex as [-> _]. split; [by left | intros [?|[? _]]; done]. }
    split_and!.
    + intros Hr. apply Hnd. destruct (ti_isdir x).
      * rewrite Ex. by apply dict_keys_set_NoDup.
      * by destruct Ex as [-> _].
    + intros n. rewrite Hkeys, H1. split.
      * intros [[?|[? ?]]|(d & ? & ? & ?)]; [by left | right | right].
        -- exists x. split; [apply list_elem_of_here | done].
        -- exists d. split; [by apply list_elem_of_further | done].
      * intros [?|(d & [->|?]%elem_of_cons & ? & ?)]; [by left; left | by left; right|].
        right. eauto.
    + intros [|y before] f after; simpl.
      * intros [= <- _] Hf. left. rewrite Hf in Ex. by destruct Ex.
      * intros [= <- ->] Hf.
        destruct (Hord before f after eq_refl Hf) as [[?|[? ?]]%H1|(d & ? & ? & ?)].
        -- by left.
        -- right. exists x. split; [apply list_elem_of_here | done].
        -- right. exists d. split; [by apply list_elem_of_further | done].
Qed.

(** X17. What a catalog holds after [Repo(...)] has read an archive: the
    keys of its package map are exactly the package names of the directory
    members, each once; and the archive had every file member after a
    directory member of the same package name (a file met before its
    directory makes the construction fail). *)
Theorem Repo_init_members h n a srv root dbfile h' self :
  Repo_init h n a srv root dbfile = Ok (h', self) →
  NoDup (dict_keys (packages self))
  ∧ (∀ pkg, pkg ∈ dict_keys (packages self) ↔
            ∃ d, d ∈ dbfile ∧ ti_isdir d = true ∧ package_name_of (ti_name d) = pkg)
  ∧ (∀ before f after, dbfile = before ++ f :: after → ti_isdir f = false →
       ∃ d, d ∈ before ∧ ti_isdir d = true
          ∧ package_name_of (ti_name d) = package_name_of (ti_name f)).
Proof.
  unfold Repo_init, initialize_db.
  destruct (for_each db_member dbfile _) as [[h1 r1]|] eqn:E1; simpl; [|done].
  apply db_members_packages in E1 as (Hnd & Hkeys & Hord).
  destruct (for_each (index_package h1) _ _) as [[g p]|]; simpl; [|done].
  intros [= <- <-]. simpl in *. split_and!.
  - apply Hnd, NoDup_nil_2.
  - intros pkg. rewrite Hkeys. split; [intros [?%elem_of_nil|?]; done | by right].
  - intros before f after Hsplit Hf.
    destruct (Hord before f after Hsplit Hf) as [?%elem_of_nil|?]; done.
Qed.

Lemma Repo_init_members_witness :
  ∃ h' self, sample_repo = Ok (h', self)
    ∧ dict_keys (packages self) = ["bash"; "sh"; "glibc"; "readline"; "ping"; "pong"]
    ∧ NoDup (dict_keys (packages self))
    ∧ ∀ pkg, pkg ∈ dict_keys (packages self) ↔
             ∃ d, d ∈ sample_core ∧ ti_isdir d = true
                ∧ package_name_of (ti_name d) = pkg.
Proof.
  destruct sample_repo as [[h' self]|e] eqn:E; [|no_raise sample_repo by E].
  exists h', self. split; [reflexivity|].
  read_off sample_repo by E at (λ (_ : heap) self, dict_keys (packages self))
    is ["bash"; "sh"; "glibc"; "readline"; "ping"; "pong"] as Hkeys.
  split; [exact Hkeys|].
  pose proof (Repo_init_members [] "core" "x86_64" DEFAULT_SERVER "" sample_core
                h' self) as Hmembers.
  unfold Repo_init in Hmembers. destruct (Hmembers E) as (Hnd & Hin & _).
  clear E Hmembers. done.
Defined.

(** ** What the indices hold *)

Lemma dict_append_get d k x k' n :
  n ∈ default [] (dict_get (dict_append d k x) k') ↔
  n ∈ default [] (dict_get d k') ∨ (n = x ∧ k' = k).
Proof.
  unfold dict_append. destruct (decide (k = k')) as [->|Hne].
  - rewrite dict_get_set_eq. simpl. rewrite elem_of_app, list_elem_of_singleton.
    split; [intros [?|?]; auto | intros [?|[? _]]; auto].
  - rewrite dict_get_set_ne by done.
    split; [by left | intros [?|[_ ?]]; [done | congruence]].
Qed.

Lemma foldl_dict_append_get ks x k' n :
  ∀ d, n ∈ default [] (dict_get (foldl (λ d k, dict_append d k x) d ks) k') ↔
       n ∈ default [] (dict_get d k') ∨ (n = x ∧ k' ∈ ks).
Proof.
  induction ks as [|k ks IH]; intros d; simpl.
  - split; [by left | intros [?|[_ ?%elem_of_nil]]; done].
  - rewrite IH, dict_append_get, elem_of_cons.
    split; [intros [[?|[? ?]]|[? ?]]; auto | intros [?|[? [?|?]]]; auto].
Qed.

Lemma index_package_Ok h g0 p0 n0 l0 st' :
  index_package h (g0, p0) (n0, l0) = Ok st' →
  ∃ v gs v' ps,
    getattr (heap_get h l0) "groups" = Ok v ∧ py_iter v = Ok gs
    ∧ getattr (heap_get h l0) "provides" = Ok v' ∧ py_iter v' = Ok ps
    ∧ st' = (foldl (λ d g, dict_append d g n0) g0 gs,
             foldl (λ d p, dict_append d p n0) p0 ps).
Proof.
  unfold index_package.
  destruct (getattr (heap_get h l0) "groups") as [v|] eqn:Hv; simpl; [|done].
  destruct (py_iter v) as [gs|] eqn:Hgs; simpl; [|done].
  destruct (getattr (heap_get h l0) "provides") as [v'|] eqn:Hv'; simpl; [|done].
  destruct (py_iter v') as [ps|] eqn:Hps; simpl; [|done].
  intros [= <-]. by exists v, gs, v', ps.
Qed.

Lemma index_loop_content h items :
  ∀ g0 p0 g p,
    for_each (index_package h) items (g0, p0) = Ok (g, p) →
    ∀ k n,
      (n ∈ default [] (dict_get g k) ↔
       n ∈ default [] (dict_get g0 k)
       ∨ ∃ l, (n, l) ∈ items ∧ lists (heap_get h l) "groups" k)
      ∧ (n ∈ default [] (dict_get p k) ↔
         n ∈ default [] (dict_get p0 k)
         ∨ ∃ l, (n, l) ∈ items ∧ lists (heap_get h l) "provides" k).
Proof.
  induction items as [|[n0 l0] items IH]; intros g0 p0 g p; cbn [for_each].
  - intros [= <- <-] k n.
    split; (split; [by left | intros [?|(l & ?%elem_of_nil & _)]; done]).
  - destruct (index_package h (g0, p0) (n0, l0)) as [[g1 p1]|] eqn:Estep;
      simpl; [|done].
    apply index_package_Ok in Estep
      as (v & gs & v' & ps & Hv & Hgs & Hv' & Hps & [= -> ->]).
    intros Hrun k n. destruct (IH _ _ _ _ Hrun k n) as [Hg Hp].
    rewrite Hg, Hp, !foldl_dict_append_get. unfold lists. split.
    + split.
      * intros [[?|[-> ?]]|(l & ? & ?)]; [by left | right | right].
        -- exists l0. split; [apply list_elem_of_here | eauto].
        -- exists l. split; [by apply list_elem_of_further | done].
      * intros [?|(l & [[= -> ->]|?]%elem_of_cons & Hl)]; [by left; left | |].
        -- left. right. destruct Hl as (w & ks & Hw & Hks & Hk).
           rewrite Hv in Hw. injection Hw as <-. rewrite Hgs in Hks.
           injection Hks as <-. done.
        -- right. eauto.
    + split.
      * intros [[?|[-> ?]]|(l & ? & ?)]; [by left | right | right].
        -- exists l0. split; [apply list_elem_of_here | eauto].
        -- exists l. split; [by apply list_elem_of_further | done].
      * intros [?|(l & [[= -> ->]|?]%elem_of_cons & Hl)]; [by left; left | |].
        -- left. right. destruct Hl as (w & ks & Hw & Hks & Hk).
           rewrite Hv' in Hw. injection Hw as <-. rewrite Hps in Hks.
           injection Hks as <-. done.
        -- right. eauto.
Qed.

Lemma db_members_indices dbfile h r h' r' :
  for_each db_member dbfile (h, r) = Ok (h', r') →
  groups r' = groups r ∧ provides r' = provides r.
Proof.
  intros Hrun.
  apply (for_each_invariant db_member
           (λ st, groups st.2 = groups r ∧ provides st.2 = provides r))
    in Hrun; [done | | done].
  intros [h0 r0] finfo [h1 r1] _ [Hg Hp] Hstep. simpl in *.
  revert Hstep. unfold db_member.
  destruct (ti_isdir finfo).
  - simpl. by intros [= <- <-].
  - destruct (subscript (packages r0) _) as [l|]; simpl; [|done].
    destruct (decide (basename _ = "desc")).
    + destruct (parse_desc _ _) as [pkg|]; simpl; [|done].
      destruct (getattr pkg "filename") as [fn|]; simpl; [|done].
      destruct (path_join_attr (server r0) fn) as [url|]; simpl; [|done].
      destruct (path_join_attr (local_path r0) fn) as [loc|]; simpl; [|done].
      by intros [= <- <-].
    + destruct (decide (basename _ = "depends")).
      * destruct (parse_deps _ _) as [pkg|]; simpl; [|done]. by intros [= <- <-].
      * by intros [= <- <-].
Qed.

(** X18. What the indices of a catalog hold after [Repo(...)]: the entry of
    the groups index for [k] lists a package name exactly when the package
    stored under that name has [k] among the items of its [groups]
    attribute, and the same holds of the provides index and the [provides]
    attribute. *)
Theorem Repo_init_index_content h n a srv root dbfile h' self :
  Repo_init h n a srv root dbfile = Ok (h', self) →
  ∀ k pkg,
    (pkg ∈ default [] (dict_get (groups self) k) ↔
     ∃ l, dict_get (packages self) pkg = Some l ∧ lists (heap_get h' l) "groups" k)
    ∧ (pkg ∈ default [] (dict_get (provides self) k) ↔
       ∃ l, dict_get (packages self) pkg = Some l
          ∧ lists (heap_get h' l) "provides" k).
Proof.
  unfold Repo_init, initialize_db.
  destruct (for_each db_member dbfile _) as [[h1 r1]|] eqn:E1; simpl; [|done].
  destruct (db_members_indices _ _ _ _ _ E1) as [Hg1 Hp1]. simpl in Hg1, Hp1.
  apply db_members_packages in E1 as (Hnd & _ & _).
  specialize (Hnd (NoDup_nil_2)). rewrite Hg1, Hp1.
  destruct (for_each (index_package h1) _ _) as [[g p]|] eqn:E2; simpl; [|done].
  intros [= <- <-] k pkg. simpl.
  destruct (index_loop_content _ _ _ _ _ _ E2 k pkg) as [Hg Hp].
  rewrite Hg, Hp. simpl.
  split; (split;
    [ intros [?%elem_of_nil|(l & Hl & ?)]; [done|];
      exists l; split; [by apply dict_elem_get | done]
    | intros (l & Hl & ?); right; exists l; split;
      [by apply dict_get_Some_elem | done] ]).
Qed.

Lemma Repo_init_index_content_witness :
  ∃ h' self, sample_repo = Ok (h', self)
    ∧ dict_get (groups self) "base" = Some ["bash"; "glibc"]
    ∧ (∃ l, dict_get (packages self) "glibc" = Some l
          ∧ lists (heap_get h' l) "groups" "base")
    ∧ ¬ (∃ l, dict_get (packages self) "readline" = Some l
            ∧ lists (heap_get h' l) "groups" "base").
Proof.
  destruct sample_repo as [[h' self]|e] eqn:E; [|no_raise sample_repo by E].
  exists h', self. split; [reflexivity|].
  read_off sample_repo by E at (λ (_ : heap) self, dict_get (groups self) "base")
    is (Some ["bash"; "glibc"]) as Hbase.
  pose proof (Repo_init_index_content [] "core" "x86_64" DEFAULT_SERVER ""
                sample_core h' self) as Hcontent.
  unfold Repo_init in Hcontent. specialize (Hcontent E). clear E.
  split_and!; [done | |].
  - apply (Hcontent "base" "glibc"). rewrite Hbase. simpl.
    apply list_elem_of_further, list_elem_of_here.
  - intros Hl. apply (Hcontent "base" "readline") in Hl. rewrite Hbase in Hl.
    simpl in Hl. by repeat (apply elem_of_cons in Hl as [?|Hl]; [done|]);
      apply elem_of_nil in Hl.
Defined.

(** ** How catalog construction can fail *)







Lemma index_loop_total h items :
  (∀ n l, (n, l) ∈ items → pkg_ready (heap_get h l)) →
  ∀ st, ∃ st', for_each (index_package h) items st = Ok st'.
Proof.
  induction items as [|[n l] items IH]; intros Hready [g p]; cbn [for_each];
    [eauto|].
  destruct (Hready n l) as (Hg & Hp & _); [apply list_elem_of_here|].
  apply iterable_getattr in Hg as (v & gs & Hv & Hgs).
  apply iterable_getattr in Hp as (v' & ps & Hv' & Hps).
  assert (index_package h (g, p) (n, l)
          = Ok (foldl (λ d k, dict_append d k n) g gs,
                foldl (λ d k, dict_append d k n) p ps)) as ->.
  { unfold index_package. rewrite Hv. simpl. rewrite Hgs. simpl.
    rewrite Hv'. simpl. by rewrite Hps. }
  simpl. apply IH. intros n' l' Hin. apply (Hready n' l').
  by apply list_elem_of_further.
Qed.



(** X20. Once the members of an archive have all been read, the indices
    are built without failure: on a heap where every package has [groups],
    [provides], [depends] and [optdepends] set to something other than
    [None] (as [Package(...)] and the parse methods leave them), when the
    first loop of [initialize_db] completes, [Repo(...)] completes, with the
    heap and the package map that loop left. *)
Theorem Repo_init_index_loop h n a srv root dbfile h1 r1 :
  Forall pkg_ready h →
  for_each db_member dbfile (h, Repo_new n a srv root) = Ok (h1, r1) →
  ∃ g p, Repo_init h n a srv root dbfile = Ok (h1, set_indices r1 g p).
Proof.
  intros Hready Hrun. unfold Repo_init, initialize_db. rewrite Hrun. simpl.
  assert (Forall pkg_ready h1) as Hready1.
  { apply (for_each_invariant db_member (λ st, Forall pkg_ready st.1) dbfile)
      in Hrun; [done | intros st x st' _; apply db_member_ready | done]. }
  apply (for_each_invariant db_member (members_inv (length h) [] []) dbfile)
    in Hrun as (_ & _ & _ & _ & Hin).
  - simpl in Hin. rewrite Forall_forall in Hin.
    destruct (index_loop_total h1 (packages r1)) with (st := (groups r1, provides r1))
      as [[g p] ->].
    + intros n' l Hl. apply heap_get_ready; [done|].
      apply Hin. unfold repo_locs, dict_values. apply list_elem_of_fmap.
      by exists (n', l).
    + simpl. eauto.
  - intros st x st' _. apply db_member_inv.
  - unfold members_inv, repo_locs. simpl.
    split_and!; [done | done | lia | constructor | constructor].
Qed.

Lemma Repo_init_index_loop_witness :
  ∃ h1 r1 g p,
    for_each db_member sample_core ([], Repo_new "core" "x86_64" DEFAULT_SERVER "")
      = Ok (h1, r1)
    ∧ Repo_init [] "core" "x86_64" DEFAULT_SERVER "" sample_core
      = Ok (h1, set_indices r1 g p).
Proof.
  destruct (for_each db_member sample_core
              ([], Repo_new "core" "x86_64" DEFAULT_SERVER "")) as [[h1 r1]|e] eqn:E.
  - destruct (Repo_init_index_loop [] "core" "x86_64" DEFAULT_SERVER "" sample_core
                h1 r1 (Forall_nil_2 _) E) as (g & p & Hrun).
    exists h1, r1, g, p. split; [reflexivity | exact Hrun].
  - exfalso.
    assert (on_ok (for_each db_member sample_core
                     ([], Repo_new "core" "x86_64" DEFAULT_SERVER ""))
                  (λ _ _, tt) = Some tt) as H by (vm_compute; reflexivity).
    rewrite E in H. discriminate H.
Defined.

(** ** Closures of several seed lists *)

Lemma resolve_deps_loop_no_raise self h optdepends (P : loc → Prop) :
  (∀ p, P p → ∃ l, expand self h optdepends p [] = Ok l ∧ ∀ x, x ∈ l → P x) →
  ∀ fuel queue known e,
    (∀ x, x ∈ queue → P x) →
    resolve_deps_loop fuel self h optdepends queue known ≠ Some (Raise e).
Proof.
  intros Hclosed. induction fuel as [|fuel IH]; intros queue known e Hq; simpl;
    [done|].
  destruct queue as [|p queue]; [done|].
  case_bool_decide as Hp.
  - apply IH. intros x Hx. apply Hq. by apply list_elem_of_further.
  - destruct (Hclosed p) as (l & Hl & Hsub); [apply Hq, list_elem_of_here|].
    rewrite expand_app, Hl. simpl. apply IH.
    intros x [Hx|Hx]%elem_of_app; [|auto].
    apply Hq. by apply list_elem_of_further.
Qed.

Lemma resolve_deps_closed_run self h optdepends (P : loc → Prop) seeds :
  (∀ p, P p → ∃ l, expand self h optdepends p [] = Ok l ∧ ∀ x, x ∈ l → P x) →
  (∀ x, x ∈ seeds → P x) →
  ∃ N c, ∀ fuel, N ≤ fuel →
    resolve_deps fuel self h seeds optdepends = Some (Ok c).
Proof.
  intros Hclosed Hseeds. unfold resolve_deps.
  destruct (resolve_deps_loop_ends self h optdepends
              (length (pending self seeds [])) seeds [] (le_n _))
    as (N & [c|e] & Hrun).
  - by exists N, c.
  - exfalso.
    apply (resolve_deps_loop_no_raise self h optdepends P Hclosed N seeds [] e
             Hseeds).
    by apply Hrun.
Qed.

Lemma resolve_deps_visited fuel self h seeds optdepends c :
  resolve_deps fuel self h seeds optdepends = Some (Ok c) →
  ∀ p, p ∈ c → ∃ l, expand self h optdepends p [] = Ok l ∧ ∀ x, x ∈ l → x ∈ c.
Proof.
  intros Hrun p Hp.
  assert (visited_ok self h optdepends c []) as Hclosed.
  { apply (resolve_deps_loop_visited _ _ _ _ _ _ _ Hrun).
    by intros p' ?%elem_of_nil. }
  destruct (Hclosed p Hp) as (l & Hl & Hsub). exists l. split; [done|].
  intros x Hx. destruct (Hsub x Hx) as [?|?%elem_of_nil]; done.
Qed.

Lemma reachable_app self h optdepends s1 s2 x :
  reachable self h optdepends (s1 ++ s2) x ↔
  reachable self h optdepends s1 x ∨ reachable self h optdepends s2 x.
Proof.
  split.
  - induction 1 as [x [Hx|Hx]%elem_of_app|p l x _ [IH|IH] Hl Hx].
    + left. by apply reach_seed.
    + right. by apply reach_seed.
    + left. by eapply reach_step.
    + right. by eapply reach_step.
  - intros [Hx|Hx].
    + induction Hx as [x Hx|p l x _ IH Hl Hx].
      * apply reach_seed, elem_of_app. by left.
      * by eapply reach_step.
    + induction Hx as [x Hx|p l x _ IH Hl Hx].
      * apply reach_seed, elem_of_app. by right.
      * by eapply reach_step.
Qed.

(** X21. Closures compose: when [resolve_deps] returns a closure for each
    of two seed lists, it also returns one for the two lists together (it
    does not raise, and ends), and that closure holds exactly the packages
    of the two closures. *)
Theorem resolve_deps_union fuel1 fuel2 self h optdepends s1 s2 c1 c2 :
  resolve_deps fuel1 self h s1 optdepends = Some (Ok c1) →
  resolve_deps fuel2 self h s2 optdepends = Some (Ok c2) →
  ∃ N c,
    (∀ fuel, N ≤ fuel →
       resolve_deps fuel self h (s1 ++ s2) optdepends = Some (Ok c))
    ∧ ∀ x, x ∈ c ↔ x ∈ c1 ∨ x ∈ c2.
Proof.
  intros Hrun1 Hrun2.
  destruct (resolve_deps_closed_run self h optdepends (λ x, x ∈ c1 ∨ x ∈ c2)
              (s1 ++ s2)) as (N & c & Hrun).
  - intros p [Hp|Hp].
    + destruct (resolve_deps_visited _ _ _ _ _ _ Hrun1 p Hp) as (l & Hl & Hsub).
      exists l. split; [done|]. intros x Hx. left. auto.
    + destruct (resolve_deps_visited _ _ _ _ _ _ Hrun2 p Hp) as (l & Hl & Hsub).
      exists l. split; [done|]. intros x Hx. right. auto.
  - intros x [Hx|Hx]%elem_of_app.
    + left. by apply (resolve_deps_loop_superset _ _ _ _ _ _ _ Hrun1).
    + right. by apply (resolve_deps_loop_superset _ _ _ _ _ _ _ Hrun2).
  - exists N, c. split; [done|]. intros x.
    rewrite (resolve_deps_reachable _ _ _ _ _ _ (Hrun N (le_n _)) x),
      (resolve_deps_reachable _ _ _ _ _ _ Hrun1 x),
      (resolve_deps_reachable _ _ _ _ _ _ Hrun2 x).
    apply reachable_app.
Qed.

(** X22. A closure is closed: when [resolve_deps] returns a closure for
    some seeds, running it again with that closure as the seeds ends without
    raising and returns the same packages, each once. *)
Theorem resolve_deps_idempotent fuel self h optdepends seeds c :
  resolve_deps fuel self h seeds optdepends = Some (Ok c) →
  ∃ N c',
    (∀ fuel', N ≤ fuel' → resolve_deps fuel' self h c optdepends = Some (Ok c'))
    ∧ c' ≡ₚ c.
Proof.
  intros Hrun.
  pose proof (resolve_deps_visited _ _ _ _ _ _ Hrun) as Hclosed.
  destruct (resolve_deps_closed_run self h optdepends (λ x, x ∈ c) c Hclosed)
    as (N & c' & Hrun'); [done|].
  exists N, c'. split; [done|].
  specialize (Hrun' N (le_n _)).
  apply NoDup_Permutation.
  - apply (resolve_deps_loop_superset _ _ _ _ _ _ _ Hrun'), NoDup_nil_2.
  - apply (resolve_deps_loop_superset _ _ _ _ _ _ _ Hrun), NoDup_nil_2.
  - intros x. rewrite (resolve_deps_reachable _ _ _ _ _ _ Hrun' x). split.
    + induction 1 as [x Hx|p l x _ IH Hl Hx]; [done|].
      destruct (Hclosed p IH) as (l' & Hl' & Hsub).
      assert (l' = l) as -> by congruence. auto.
    + by apply reach_seed.
Qed.

Lemma resolve_deps_union_witness :
  ∃ h self, sample_mirror = Ok (h, self)
    ∧ resolve_deps 10 self h [0] false = Some (Ok [0; 2; 3])
    ∧ resolve_deps 10 self h [4] false = Some (Ok [4; 5])
    ∧ ∃ N c,
        (∀ fuel, N ≤ fuel →
           resolve_deps fuel self h ([0] ++ [4]) false = Some (Ok c))
        ∧ ∀ x, x ∈ c ↔ x ∈ [0; 2; 3] ∨ x ∈ [4; 5].
Proof.
  destruct sample_mirror as [[h self]|e] eqn:E; [|no_raise sample_mirror by E].
  exists h, self. split; [reflexivity|].
  read_off sample_mirror by E at (λ h self, resolve_deps 10 self h [0] false)
    is (Some (Ok (A:=list loc) [0; 2; 3])) as Hrun1.
  read_off sample_mirror by E at (λ h self, resolve_deps 10 self h [4] false)
    is (Some (Ok (A:=list loc) [4; 5])) as Hrun2.
  clear E. split_and!; [exact Hrun1 | exact Hrun2 |].
  exact (resolve_deps_union 10 10 self h false [0] [4] _ _ Hrun1 Hrun2).
Defined.

Lemma resolve_deps_idempotent_witness :
  ∃ h self, sample_mirror = Ok (h, self)
    ∧ resolve_deps 10 self h [0] false = Some (Ok [0; 2; 3])
    ∧ ∃ N c',
        (∀ fuel', N ≤ fuel' →
           resolve_deps fuel' self h [0; 2; 3] false = Some (Ok c'))
        ∧ c' ≡ₚ [0; 2; 3].
Proof.
  destruct sample_mirror as [[h self]|e] eqn:E; [|no_raise sample_mirror by E].
  exists h, self. split; [reflexivity|].
  read_off sample_mirror by E at (λ h self, resolve_deps 10 self h [0] false)
    is (Some (Ok (A:=list loc) [0; 2; 3])) as Hrun.
  clear E. split; [exact Hrun|].
  exact (resolve_deps_idempotent 10 self h false [0] _ Hrun).
Defined.

(** ** Claims on the dependency closure *)

(** C4. [resolve_deps] terminates on every mirror, heap, seed list and
    flag: with enough rounds it returns a closure or raises, and more rounds
    change nothing; a closure it returns lists no package twice and holds
    only seeds and objects of the catalogs, so its size is bounded by theirs.
    In particular, when [a] depends on [b] and [b] on [a], each through a
    name that resolves to the other alone, [resolve_deps] on the seed [a]
    ends and returns exactly [a] and [b]. *)
Theorem resolve_deps_cycle_terminates self h optdepends :
  (∀ packages,
     ∃ N r,
       (∀ fuel, N ≤ fuel →
          resolve_deps fuel self h packages optdepends = Some r)
       ∧ ∀ s, r = Ok s →
           NoDup s
           ∧ (∀ x, x ∈ s → x ∈ packages ∨ x ∈ mirror_locs self)
           ∧ length s ≤ length (remove_dups (packages ++ mirror_locs self)))
  ∧ (∀ a b na nb,
       a ≠ b →
       getattr (heap_get h a) "depends" = Ok (PyTuple [nb]) →
       getattr (heap_get h b) "depends" = Ok (PyTuple [na]) →
       resolve_name self nb true = Ok [b] →
       resolve_name self na true = Ok [a] →
       (optdepends = true →
        getattr (heap_get h a) "optdepends" = Ok (PyTuple [])
        ∧ getattr (heap_get h b) "optdepends" = Ok (PyTuple [])) →
       ∀ fuel, 4 ≤ fuel →
         resolve_deps fuel self h [a] optdepends = Some (Ok [a; b])).
Proof.
  split.
  - intros packages. unfold resolve_deps.
    destruct (resolve_deps_loop_ends self h optdepends
                (length (pending self packages [])) packages [] (le_n _))
      as (N & r & Hrun).
    exists N, r. split; [exact Hrun|]. intros s ->.
    specialize (Hrun N (le_n _)).
    assert (NoDup s) as Hnd
      by apply (resolve_deps_loop_superset _ _ _ _ _ _ _ Hrun), NoDup_nil_2.
    assert (∀ x, x ∈ s → x ∈ packages ∨ x ∈ mirror_locs self) as Hsub.
    { intros x Hx.
      destruct (resolve_deps_loop_subset _ _ _ _ _ _ _ Hrun x Hx)
        as [?%elem_of_nil|[?|?]]; auto. done. }
    split_and!; [done | done |].
    apply submseteq_length, NoDup_submseteq; [done|].
    intros x Hx. apply elem_of_remove_dups, elem_of_app. auto.
  - intros a b na nb Hab Hda Hdb Hrb Hra Hopt fuel Hfuel.
    assert (expand self h optdepends a [] = Ok [b]) as Ha.
    { unfold expand. rewrite Hda. simpl. unfold enqueue. rewrite Hrb. simpl.
      destruct optdepends; [|done]. destruct Hopt as [-> _]; done. }
    assert (expand self h optdepends b [] = Ok [a]) as Hb.
    { unfold expand. rewrite Hdb. simpl. unfold enqueue. rewrite Hra. simpl.
      destruct optdepends; [|done]. destruct Hopt as [_ ->]; done. }
    do 4 (destruct fuel as [|fuel]; [lia|]).
    unfold resolve_deps. cbn [resolve_deps_loop].
    rewrite (bool_decide_false (a ∈ [])) by apply not_elem_of_nil.
    rewrite Ha.
    assert (set_add [] a = [a]) as ->.
    { unfold set_add. by rewrite bool_decide_false by apply not_elem_of_nil. }
    rewrite (bool_decide_false (b ∈ [a])).
    2: { intros ->%list_elem_of_singleton. done. }
    rewrite Hb.
    assert (set_add [a] b = [a; b]) as ->.
    { unfold set_add. rewrite bool_decide_false; [done|].
      intros ->%list_elem_of_singleton. done. }
    rewrite (bool_decide_true (a ∈ [a; b])) by apply list_elem_of_here.
    done.
Qed.

Lemma resolve_deps_cycle_terminates_witness :
  ∃ h self, sample_mirror = Ok (h, self)
    ∧ resolve_deps 4 self h [4] false = Some (Ok [4; 5])
    ∧ ∃ N r, ∀ fuel, N ≤ fuel → resolve_deps fuel self h [0; 4] true = Some r.
Proof.
  destruct sample_mirror as [[h self]|e] eqn:E; [|no_raise sample_mirror by E].
  exists h, self. split; [reflexivity|].
  read_off sample_mirror by E
    at (λ h self, (getattr (heap_get h 4) "depends", getattr (heap_get h 5) "depends",
                   resolve_name self "pong" true, resolve_name self "ping" true))
    is (Ok (PyTuple ["pong"]), Ok (PyTuple ["ping"]),
        Ok (A:=list loc) [5], Ok (A:=list loc) [4]) as Hfacts.
  clear E. split.
  - apply (proj2 (resolve_deps_cycle_terminates self h false) 4 5 "ping" "pong");
      [done | assumption | assumption | assumption | assumption | done | lia].
  - destruct (proj1 (resolve_deps_cycle_terminates self h true) [0; 4])
      as (N & r & Hrun & _).
    by exists N, r.
Defined.

(** C5. For every seed list and either value of the flag, the closure that
    [resolve_deps] returns holds every seed: the traversal ends, and
    whenever it returns (it may instead raise on a dependency that no
    catalog holds) each seed is a member of the result. *)
Theorem resolve_deps_superset self h packages optdepends :
  (∃ N r, ∀ fuel, N ≤ fuel →
     resolve_deps fuel self h packages optdepends = Some r)
  ∧ ∀ fuel s,
      resolve_deps fuel self h packages optdepends = Some (Ok s) →
      ∀ x, x ∈ packages → x ∈ s.
Proof.
  split.
  - apply (resolve_deps_loop_ends self h optdepends
             (length (pending self packages []))). done.
  - intros fuel s Hrun.
    apply (resolve_deps_loop_superset _ _ _ _ _ _ _ Hrun).
Qed.

Lemma resolve_deps_superset_witness :
  ∃ h self, sample_mirror = Ok (h, self)
    ∧ resolve_deps 10 self h [3; 0] true = Some (Ok [3; 0; 2])
    ∧ ∀ x, x ∈ [3; 0] → x ∈ [3; 0; 2].
Proof.
  destruct sample_mirror as [[h self]|e] eqn:E; [|no_raise sample_mirror by E].
  exists h, self. split; [reflexivity|].
  read_off sample_mirror by E at (λ h self, resolve_deps 10 self h [3; 0] true)
    is (Some (Ok (A:=list loc) [3; 0; 2])) as Hrun.
  clear E. split; [exact Hrun|].
  exact (proj2 (resolve_deps_superset self h [3; 0] true) 10 _ Hrun).
Defined.


